(** * totalhelp: discovery and rendering of nested command help

    A shallow embedding of [totalhelp/core.py] and of the console script
    of [totalhelp/__main__.py]: the heuristic subcommand extractor, the
    in-process parser walker, the external prober, the three renderers,
    [print_output] and [main], followed by the properties established
    about them. *)

From Stdlib Require Import NArith ZArith String Ascii DecimalString Lia ZifyBool.
From stdpp Require Import gmap list.

Local Open Scope N_scope.

#[local] Set Warnings "-clear-no-such-hyp".

(** ** Python strings

    A Python [str] is a sequence of Unicode code points; a code point is
    an [N].  String literals of the source are written [lit "..."]. *)

Abbreviation char := N (only parsing).
Abbreviation str := (list N) (only parsing).

Definition lit (s : string) : str :=
  map N_of_ascii (list_ascii_of_string s).

(** The double quote, which literals here cannot hold. *)
Definition DQ : str := [34].

(** The parts of the Unicode character database that CPython consults for
    code points outside ASCII.  They are data of the interpreter, not of
    this repository, and every result below holds for any such tables. *)
Class UnicodeDB := {
  unicode_isspace : N → bool;   (* Py_UNICODE_ISSPACE *)
  unicode_isalnum : N → bool;   (* Py_UNICODE_ISALNUM *)
  unicode_tolower : N → N       (* Py_UNICODE_TOLOWER *)
}.

Section PyStr.
Context `{UnicodeDB}.

(** [str.isspace] on one character: the ASCII table of CPython
    ([\t\n\v\f\r], [\x1c]..[\x1f] and the space), the database beyond. *)
Definition isspace (c : N) : bool :=
  if c <? 128
  then ((9 <=? c) && (c <=? 13)) || ((28 <=? c) && (c <=? 32))
  else unicode_isspace c.

Definition ascii_isalnum (c : N) : bool :=
  ((48 <=? c) && (c <=? 57)) || ((65 <=? c) && (c <=? 90))
  || ((97 <=? c) && (c <=? 122)).

(** The class [\w] of a [str] pattern: alphanumerics and the underscore. *)
Definition isword (c : N) : bool :=
  (c =? 95) || (if c <? 128 then ascii_isalnum c else unicode_isalnum c).

Definition ascii_isalpha (c : N) : bool :=
  ((65 <=? c) && (c <=? 90)) || ((97 <=? c) && (c <=? 122)).

Definition tolower (c : N) : N :=
  if c <? 128
  then (if (65 <=? c) && (c <=? 90) then c + 32 else c)
  else unicode_tolower c.

(** The entries of [sre_compile._equivalences] that hold an ASCII letter:
    dotless i for [i] and long s for [s]. *)
Definition ignorecase_fixes (lo : N) : list N :=
  if lo =? 105 then [0x131] else if lo =? 115 then [0x17f] else [].

(** One literal [p] of a pattern compiled with [re.IGNORECASE] against the
    character [c] of the text. *)
Definition ci_char (p c : N) : bool :=
  if ascii_isalpha p
  then let lo := tolower p in
       let lc := tolower c in
       (lc =? lo) || existsb (N.eqb lc) (ignorecase_fixes lo)
  else c =? p.

(** [s.startswith(p)], and its remainder. *)
Fixpoint starts_with (p s : str) : bool :=
  match p, s with
  | [], _ => true
  | a :: p', b :: s' => (a =? b) && starts_with p' s'
  | _ :: _, [] => false
  end.

(** A literal under [re.IGNORECASE] at the head of [s]: the rest of [s]
    after the match. *)
Fixpoint ci_prefix (p s : str) : option str :=
  match p, s with
  | [], _ => Some s
  | a :: p', b :: s' => if ci_char a b then ci_prefix p' s' else None
  | _ :: _, [] => None
  end.

Fixpoint take_while (f : N → bool) (s : str) : str :=
  match s with
  | c :: s' => if f c then c :: take_while f s' else []
  | [] => []
  end.

Fixpoint drop_while (f : N → bool) (s : str) : str :=
  match s with
  | c :: s' => if f c then drop_while f s' else s
  | [] => []
  end.

(** [s.strip()] *)
Definition strip (s : str) : str :=
  rev (drop_while isspace (rev (drop_while isspace s))).

(** [sep.join(parts)] *)
Fixpoint join (sep : str) (parts : list str) : str :=
  match parts with
  | [] => []
  | [x] => x
  | x :: rest => x ++ sep ++ join sep rest
  end.

(** [s.split()]: the maximal runs of non-whitespace, [cur] being the run
    under construction. *)
Fixpoint split_ws (cur s : str) : list str :=
  match s with
  | [] => match cur with [] => [] | _ => [cur] end
  | c :: s' =>
      if isspace c
      then match cur with [] => split_ws [] s' | _ => cur :: split_ws [] s' end
      else split_ws (cur ++ [c]) s'
  end.

(** [s.split(d)] for a one-character separator. *)
Fixpoint split_on (d : N) (cur s : str) : list str :=
  match s with
  | [] => [cur]
  | c :: s' => if c =? d then cur :: split_on d [] s'
               else split_on d (cur ++ [c]) s'
  end.

(** The line boundaries of [str.splitlines]. *)
Definition is_linebreak (c : N) : bool :=
  ((10 <=? c) && (c <=? 13)) || ((0x1c <=? c) && (c <=? 0x1e))
  || (c =? 0x85) || (c =? 0x2028) || (c =? 0x2029).

(** [s.splitlines()]; [after_cr] tells that the previous character was a
    carriage return, which a line feed then completes. *)
Fixpoint splitlines_from (after_cr : bool) (cur s : str) : list str :=
  match s with
  | [] => match cur with [] => [] | _ => [cur] end
  | c :: s' =>
      if after_cr && (c =? 10) then splitlines_from false [] s'
      else if is_linebreak c then cur :: splitlines_from (c =? 13) [] s'
      else splitlines_from false (cur ++ [c]) s'
  end.

Definition splitlines (s : str) : list str := splitlines_from false [] s.

End PyStr.

(** ** The heuristic subcommand extractor *)

Section Extractor.
Context `{UnicodeDB}.

(** [.*?(?=\n\n|\Z)] under [re.DOTALL]: the shortest run that a blank line
    or the end of the text follows. *)
Fixpoint lazy_until_blank (s : str) : str :=
  match s with
  | [] => []
  | c :: s' => if starts_with [10; 10] s then [] else c :: lazy_until_blank s'
  end.

(** [re.search(r"^usage:.*?(?=\n\n|\Z)", text, M | I | S)]: the leftmost
    start of a line ([bol]) where the marker stands, and the block from
    there. *)
Fixpoint search_usage_block (bol : bool) (s : str) : option str :=
  match (if bol then ci_prefix (lit "usage:") s else None) with
  | Some rest => Some (take 6 s ++ lazy_until_blank rest)
  | None =>
      match s with
      | [] => None
      | c :: s' => search_usage_block (c =? 10) s'
      end
  end.

(** After an opening bracket: does a closing one come before the line
    ends?  ([.] does not match a line feed.) *)
Fixpoint closes_bracket (s : str) : bool :=
  match s with
  | [] => false
  | c :: s' =>
      if c =? 93 then true else if c =? 10 then false else closes_bracket s'
  end.

(** [re.sub(r"\[.*?\]", "", s)]; [inside] holds between an opening
    bracket that matched and its first closing bracket. *)
Fixpoint sub_optionals (inside : bool) (s : str) : str :=
  match s with
  | [] => []
  | c :: s' =>
      if inside then sub_optionals (negb (c =? 93)) s'
      else if (c =? 91) && closes_bracket s' then sub_optionals true s'
      else c :: sub_optionals false s'
  end.

(** The class [[\w,-]]. *)
Definition ischoice (c : N) : bool := isword c || (c =? 44) || (c =? 45).

Definition is_nil (s : str) : bool :=
  match s with [] => true | _ => false end.

(** [re.search(r"\{([\w,-]+)\}", s)], group 1.  The closing brace is not
    in the class, so only the maximal run can be followed by it. *)
Fixpoint search_choices (s : str) : option str :=
  match s with
  | [] => None
  | c :: s' =>
      if (c =? 123) && negb (is_nil (take_while ischoice s'))
         && starts_with [125] (drop_while ischoice s')
      then Some (take_while ischoice s')
      else search_choices s'
  end.

Definition headers : list str :=
  [lit "Commands"; lit "Subcommands"; lit "Available commands";
   lit "positional arguments"].

(** [header_pattern] at the head of [s]. *)
Definition header_at (s : str) : bool :=
  existsb (λ h, bool_decide (is_Some (ci_prefix (h ++ lit ":") s))) headers.

(** [header_pattern.search(text)] under [re.MULTILINE]. *)
Fixpoint header_search (bol : bool) (s : str) : bool :=
  (bol && header_at s)
  || match s with
     | [] => false
     | c :: s' => header_search (c =? 10) s'
     end.

(** The class [[\w-]] and a non-empty maximal run of it. *)
Definition isname (c : N) : bool := isword c || (c =? 45).

Definition name_run (s : str) : option str :=
  match take_while isname s with
  | [] => None
  | g => Some g
  end.

(** [\s*([\w-]+)], greedy: more whitespace is tried first. *)
Fixpoint after_space (s : str) : option str :=
  match s with
  | c :: s' =>
      if isspace c
      then match after_space s' with
           | Some g => Some g
           | None => name_run s
           end
      else name_run s
  | [] => None
  end.

(** [re.match(r"^\s+([\w-]+)", line)], group 1. *)
Definition match_indented (line : str) : option str :=
  match line with
  | c :: s' => if isspace c then after_space s' else None
  | [] => None
  end.

(** [line.startswith((" ", "\t"))] *)
Definition startswith_indent (line : str) : bool :=
  starts_with (lit " ") line || starts_with [9] line.

(** One round of the loop over the lines: the new [in_command_section]
    and what the round appends to [commands]. *)
Definition scan_line (in_command_section : bool) (line : str)
  : bool * list str :=
  if header_at line then (true, [])
  else if in_command_section then
    if is_nil (strip line)
       || (negb (is_nil (strip line)) && negb (startswith_indent line))
    then (false, [])
    else if starts_with (lit "{") (strip line) then (true, [])
    else (true, match match_indented line with
                | Some g => [g]
                | None => []
                end)
  else (false, []).

Fixpoint scan_lines (in_command_section : bool) (lines : list str)
  : list str :=
  match lines with
  | [] => []
  | line :: rest =>
      let '(sec, found) := scan_line in_command_section line in
      found ++ scan_lines sec rest
  end.

(** Pattern 1: the brace group of the usage block, if any. *)
Definition usage_choices (text : str) : option str :=
  match search_usage_block true text with
  | Some usage_block =>
      let usage_line := join (lit " ") (split_ws [] usage_block) in
      let usage_without_optionals := sub_optionals false usage_line in
      search_choices usage_without_optionals
  | None => None
  end.

(** Pattern 2: the labeled sections. *)
Definition section_commands (text : str) : list str :=
  if header_search true text then scan_lines false (splitlines text) else [].

Definition _find_subcommands_from_help (text : str) : list str :=
  match usage_choices text with
  | Some group => strip <$> split_on 44 [] group
  | None => section_commands text
  end.

End Extractor.

(** ** The node model

    An [argparse.ArgumentParser] lives on a heap and is named by its
    identity ([id(parser)]); [choices] is the dict of a
    [_SubParsersAction], in insertion order. *)

Inductive action :=
| _SubParsersAction (choices : list (str * positive))
| OtherAction.

Record ArgumentParser := {
  prog : str;
  description : str;
  _actions : list action
}.

Abbreviation heap := (gmap positive ArgumentParser) (only parsing).

(** The parser of a node: a parser of the heap, or the [_HelpOnlyParser]
    that the external prober builds around a help text. *)
Inductive parser_ref :=
| ParserAt (i : positive)
| _HelpOnlyParser (_help_text prog : str).

Record _ParserNode := {
  path : list str;
  parser : parser_ref
}.

(** What the code takes from libraries: [ArgumentParser.format_help] of
    argparse, and the page of [_render_html], the f-string template of the
    source around [prog], [toc] and [body] after [textwrap.dedent] and
    [strip]. *)
Class Libraries := {
  format_help : ArgumentParser → str;
  html_page : str → str → str → str
}.

Definition NL : str := [10].

Definition str_of_N (n : N) : str := lit (NilZero.string_of_uint (N.to_uint n)).

Definition str_of_Z (z : Z) : str := lit (NilZero.string_of_int (Z.to_int z)).

Definition len {A} (l : list A) : N := N.of_nat (length l).

(** ** The renderers *)

Section Render.
Context `{UnicodeDB} `{Libraries}.

(** [_get_help_string]; a node that reaches a renderer holds a parser the
    walker has read, or a [_HelpOnlyParser], whose [format_help] returns
    its text. *)
Definition _get_help_string (σ : heap) (p : parser_ref) : str :=
  match p with
  | ParserAt i => from_option format_help [] (σ !! i)
  | _HelpOnlyParser text _ => text
  end.

(** [" ".join((prog,) + node.path)] *)
Definition path_str (prog : str) (node : _ParserNode) : str :=
  join (lit " ") (prog :: path node).

Definition text_title (prog : str) (node : _ParserNode) : str :=
  lit "$ " ++ path_str prog node ++ lit " --help".

(** The list [output] of [_render_text]; a node that is not the last is
    followed by the rule. *)
Fixpoint text_output (σ : heap) (nodes : list _ParserNode) (prog : str)
  : list str :=
  match nodes with
  | [] => []
  | node :: rest =>
      [text_title prog node;
       replicate (length (text_title prog node)) 61;
       strip (_get_help_string σ (parser node))]
      ++ match rest with
         | [] => []
         | _ => [NL ++ replicate 78 45 ++ NL]
         end
      ++ text_output σ rest prog
  end.

Definition _render_text (σ : heap) (nodes : list _ParserNode) (prog : str)
  : str :=
  join NL (text_output σ nodes prog).

(** The heading level of a node in [_render_md]. *)
Definition md_level (node : _ParserNode) : N := len (path node) + 2.

Definition md_heading (prog : str) (node : _ParserNode) : str :=
  replicate (N.to_nat (md_level node)) 35
  ++ lit " `" ++ path_str prog node ++ lit "`" ++ NL.

Definition md_section (σ : heap) (prog : str) (node : _ParserNode)
  : list str :=
  [md_heading prog node;
   lit "```text";
   strip (_get_help_string σ (parser node));
   lit "```" ++ NL].

Definition _render_md (σ : heap) (nodes : list _ParserNode) (prog : str)
  : str :=
  join NL ((lit "# Help for `" ++ prog ++ lit "`" ++ NL)
           :: flat_map (md_section σ prog) nodes).

(** [_render_html]: anchors, the table of contents and the body. *)
Definition html_anchor (node : _ParserNode) : str :=
  match path node with
  | [] => lit "cmd-root"
  | _ => lit "cmd-" ++ join (lit "-") (path node)
  end.

Definition html_heading_level (node : _ParserNode) : N :=
  N.min (len (path node) + 2) 6.

Definition html_toc_item (prog : str) (node : _ParserNode) : str :=
  lit "<li style=" ++ DQ ++ lit "margin-left: "
  ++ str_of_N (len (path node) * 20) ++ lit "px;" ++ DQ
  ++ lit "><a href=" ++ DQ ++ lit "#" ++ html_anchor node ++ DQ ++ lit ">"
  ++ (if is_nil (path_str prog node) then prog else path_str prog node)
  ++ lit "</a></li>".

Definition html_heading (prog : str) (node : _ParserNode) : str :=
  lit "<h" ++ str_of_N (html_heading_level node)
  ++ lit " id=" ++ DQ ++ html_anchor node ++ DQ
  ++ lit " class=" ++ DQ ++ lit "command" ++ DQ ++ lit "><code>"
  ++ path_str prog node ++ lit " --help</code></h"
  ++ str_of_N (html_heading_level node) ++ lit ">".

(** [s.replace(c, r)] for a one-character [c]. *)
Definition replace_char (c : N) (r : str) (s : str) : str :=
  flat_map (λ x, if x =? c then r else [x]) s.

Definition html_escape (s : str) : str :=
  replace_char 62 (lit "&gt;")
    (replace_char 60 (lit "&lt;") (replace_char 38 (lit "&amp;") s)).

Definition html_body_parts (σ : heap) (prog : str) (node : _ParserNode)
  : list str :=
  [html_heading prog node;
   lit "<pre>"
   ++ html_escape (strip (_get_help_string σ (parser node)))
   ++ lit "</pre>"].

Definition html_toc (nodes : list _ParserNode) (prog : str) : str :=
  concat ([lit "<ul>"] ++ map (html_toc_item prog) nodes ++ [lit "</ul>"]).

Definition html_body (σ : heap) (nodes : list _ParserNode) (prog : str)
  : str :=
  concat (flat_map (html_body_parts σ prog) nodes).

Definition _render_html (σ : heap) (nodes : list _ParserNode) (prog : str)
  : str :=
  html_page prog (html_toc nodes prog) (html_body σ nodes prog).

(** The dict [renderers] of both entry points, looked up by [fmt]. *)
Definition renderers (fmt : str)
  : option (heap → list _ParserNode → str → str) :=
  if bool_decide (fmt = lit "text") then Some _render_text
  else if bool_decide (fmt = lit "md") then Some _render_md
  else if bool_decide (fmt = lit "html") then Some _render_html
  else None.

End Render.

(** ** The external prober *)

(** What [subprocess.run] does with one command line. *)
Inductive run_result :=
| Completed (stdout stderr : str) (returncode : Z)
| FileNotFoundError
| TimeoutExpired
| OtherException (message : str).

(** The exceptions that reach the caller of an entry point. *)
Inductive exn :=
| IndexError
| KeyError (key : str)
| ValueError (message : str)
| AttributeError.

Inductive result (A : Type) :=
| Return (a : A)
| Raise (e : exn).

Arguments Return {A} a.
Arguments Raise {A} e.

(** A [float] is carried as the text [str()] gives it, the only use the
    code makes of [timeout] besides handing it to [subprocess.run]. *)
Abbreviation float := (list N) (only parsing).

Abbreviation environ := (option (list (list N * list N))) (only parsing).

(** The local state of [full_help_external]; [spawned] records the
    argument vector of every child process, in order. *)
Record probe_state := {
  nodes : list _ParserNode;
  q : list (list str * list str);
  visited_paths : gset (list str);
  spawned : list (list str)
}.

Section Prober.
Context `{UnicodeDB}.

(** The child processes: [subprocess.run(argv, timeout=..., env=...)]. *)
Variable run : list str → float → environ → run_result.

Variable command : list str.
Variable timeout : float.
Variable max_depth : Z.
Variable env : environ.

(** The [try] statement of the loop: the help text of one outcome. *)
Definition help_text_of (current_prog : str) (r : run_result) : str :=
  match r with
  | Completed stdout stderr returncode =>
      if (returncode =? 0)%Z then stdout ++ stderr
      else lit "[Warning: command exited with code " ++ str_of_Z returncode
           ++ lit "]" ++ NL ++ NL ++ (stdout ++ stderr)
  | FileNotFoundError =>
      lit "[Error: command not found: '" ++ current_prog ++ lit "']"
  | TimeoutExpired =>
      lit "[Error: command timed out after " ++ timeout ++ lit " seconds]"
  | OtherException e =>
      lit "[Error: an unexpected error occurred: " ++ e ++ lit "]"
  end.

(** The help text obtained for [cmd_list]. *)
Definition probe_help (cmd_list : list str) : str :=
  help_text_of (join (lit " ") cmd_list)
               (run (cmd_list ++ [lit "--help"]) timeout env).

(** The entries that the [for] loop over [subcommands] appends to [q]. *)
Definition new_entries (visited : gset (list str)) (path_tuple : list str)
    (subcommands : list str) : list (list str * list str) :=
  filter (λ e, e.1 ∉ visited)
         ((λ sub_cmd, (path_tuple ++ [sub_cmd],
                       command ++ (path_tuple ++ [sub_cmd])))
            <$> subcommands).

(** One round of [while q]: [q] is not empty and its head is popped. *)
Definition probe_step (st : probe_state) : option probe_state :=
  match q st with
  | [] => None
  | (path, cmd_list) :: rest =>
      if (Z.of_nat (length path) >? max_depth)%Z then
        Some {| nodes := nodes st; q := rest;
                visited_paths := visited_paths st; spawned := spawned st |}
      else if bool_decide (path ∈ visited_paths st) then
        Some {| nodes := nodes st; q := rest;
                visited_paths := visited_paths st; spawned := spawned st |}
      else
        let visited := {[path]} ∪ visited_paths st in
        let help_text := probe_help cmd_list in
        let node := {| path := path;
                       parser := _HelpOnlyParser (strip help_text)
                                   (join (lit " ") cmd_list) |} in
        Some {| nodes := nodes st ++ [node];
                q := rest ++ new_entries visited path
                               (_find_subcommands_from_help help_text);
                visited_paths := visited;
                spawned := spawned st ++ [cmd_list ++ [lit "--help"]] |}
  end.

(** [while q: ...], with [fuel] rounds at most; [None] when they do not
    suffice. *)
Fixpoint probe_loop (fuel : nat) (st : probe_state) : option probe_state :=
  match probe_step st with
  | None => Some st
  | Some st' =>
      match fuel with
      | O => None
      | S fuel' => probe_loop fuel' st'
      end
  end.

Definition probe_init : probe_state :=
  {| nodes := []; q := [([], command)]; visited_paths := ∅; spawned := [] |}.

(** The discovery of [full_help_external]: the state when the loop ends. *)
Definition probe (fuel : nat) : option probe_state :=
  probe_loop fuel probe_init.

End Prober.

Section External.
Context `{UnicodeDB} `{Libraries}.

(** [full_help_external]: the child processes it has run and what it
    returns or raises; [None] when [fuel] rounds do not end the loop. *)
Definition full_help_external
    (run : list str → float → environ → run_result) (fuel : nat)
    (command : list str) (fmt : str) (timeout : float) (max_depth : Z)
    (env : environ) : option (list (list str) * result str) :=
  match command with
  | [] => Some ([], Raise IndexError)
  | prog :: _ =>
      match probe run command timeout max_depth env fuel with
      | None => None
      | Some st =>
          Some (spawned st,
                match renderers fmt with
                | Some render => Return (render ∅ (nodes st) prog)
                | None => Raise (KeyError fmt)
                end)
      end
  end.

End External.

(** ** The in-process walker *)

(** [parser.prog], where [prog] also names an argument. *)
Definition get_prog (p : ArgumentParser) : str := prog p.

(** [root_parser.prog = value] *)
Definition set_prog (σ : heap) (i : positive) (value : str) : heap :=
  alter (λ p, {| prog := value; description := description p;
                 _actions := _actions p |}) i σ.

(** The two innermost loops of [_walk_parser_tree] for one dict
    [choices]: every subparser not seen yet is queued under its name and
    marked. *)
Fixpoint walk_choices (node_path : list str) (choices : list (str * positive))
    (q : list _ParserNode) (visited_parsers : gset positive)
  : list _ParserNode * gset positive :=
  match choices with
  | [] => (q, visited_parsers)
  | (name, subparser) :: rest =>
      if bool_decide (subparser ∈ visited_parsers)
      then walk_choices node_path rest q visited_parsers
      else walk_choices node_path rest
             (q ++ [{| path := node_path ++ [name];
                       parser := ParserAt subparser |}])
             ({[subparser]} ∪ visited_parsers)
  end.

(** The loop over [node.parser._actions]. *)
Fixpoint walk_actions (node_path : list str) (actions : list action)
    (q : list _ParserNode) (visited_parsers : gset positive)
  : list _ParserNode * gset positive :=
  match actions with
  | [] => (q, visited_parsers)
  | _SubParsersAction choices :: rest =>
      let '(q', visited') := walk_choices node_path choices q visited_parsers in
      walk_actions node_path rest q' visited'
  | OtherAction :: rest => walk_actions node_path rest q visited_parsers
  end.

(** The generator object of [_walk_parser_tree]: not started, suspended
    at [yield node] inside the [try], or finished. *)
Inductive generator :=
| GenCreated (root_parser : positive) (prog : option str)
| GenSuspended (root_parser : positive) (original_prog : str)
    (node : _ParserNode) (q : list _ParserNode)
    (visited_parsers : gset positive)
| GenFinished.

Inductive gen_outcome :=
| Yield (node : _ParserNode)
| StopIteration
| Raised (e : exn).

(** The head of [while q]: yield the next node, or leave the [try]
    through [finally], which restores the program name. *)
Definition walk_loop (σ : heap) (root_parser : positive) (original_prog : str)
    (q : list _ParserNode) (visited_parsers : gset positive)
  : heap * generator * gen_outcome :=
  match q with
  | node :: rest =>
      (σ, GenSuspended root_parser original_prog node rest visited_parsers,
       Yield node)
  | [] => (set_prog σ root_parser original_prog, GenFinished, StopIteration)
  end.

(** The object a node refers to, when it is a parser of the heap; an
    object without [_actions] makes the walker raise. *)
Definition node_parser (σ : heap) (node : _ParserNode)
  : option ArgumentParser :=
  match parser node with
  | ParserAt i => σ !! i
  | _HelpOnlyParser _ _ => None
  end.

(** [next(gen)] *)
Definition gen_next (σ : heap) (g : generator)
  : heap * generator * gen_outcome :=
  match g with
  | GenCreated root_parser prog =>
      match σ !! root_parser with
      | None => (σ, GenFinished, Raised AttributeError)
      | Some root =>
          let original_prog := get_prog root in
          let σ1 := match prog with
                    | Some (c :: p) => set_prog σ root_parser (c :: p)
                    | _ => σ
                    end in
          walk_loop σ1 root_parser original_prog
            [{| path := []; parser := ParserAt root_parser |}]
            {[root_parser]}
      end
  | GenSuspended root_parser original_prog node q visited_parsers =>
      match node_parser σ node with
      | None =>
          (set_prog σ root_parser original_prog, GenFinished,
           Raised AttributeError)
      | Some p =>
          let '(q', visited') :=
            walk_actions (path node) (_actions p) q visited_parsers in
          walk_loop σ root_parser original_prog q' visited'
      end
  | GenFinished => (σ, GenFinished, StopIteration)
  end.

(** [gen.close()], which also runs when a generator is abandoned:
    [GeneratorExit] is raised at the [yield], inside the [try]. *)
Definition gen_close (σ : heap) (g : generator) : heap * generator :=
  match g with
  | GenSuspended root_parser original_prog _ _ _ =>
      (set_prog σ root_parser original_prog, GenFinished)
  | _ => (σ, GenFinished)
  end.

(** [gen.throw(e)]: [e] is raised at the [yield] and leaves the [try]. *)
Definition gen_throw (σ : heap) (g : generator) (e : exn)
  : heap * generator * gen_outcome :=
  ((gen_close σ g).1, GenFinished, Raised e).

(** [_walk_parser_tree(root_parser, prog)]: the call only builds the
    generator. *)
Definition _walk_parser_tree (root_parser : positive) (prog : option str)
  : generator :=
  GenCreated root_parser prog.

(** What a caller can do with the generator between its creation and its
    end: ask for the next node, close it (which is also what abandoning it
    does), or throw into it. *)
Inductive gen_op :=
| OpNext
| OpClose
| OpThrow (e : exn).

Definition gen_apply (s : heap * generator) (op : gen_op) : heap * generator :=
  match op with
  | OpNext => (gen_next s.1 s.2).1
  | OpClose => gen_close s.1 s.2
  | OpThrow e => (gen_throw s.1 s.2 e).1
  end.

Definition gen_run (σ : heap) (g : generator) (ops : list gen_op)
  : heap * generator :=
  foldl gen_apply (σ, g) ops.

(** [list(gen)], with [fuel] calls of [next] at most. *)
Fixpoint list_of_gen (fuel : nat) (σ : heap) (g : generator)
    (acc : list _ParserNode) : option (heap * result (list _ParserNode)) :=
  match fuel with
  | O => None
  | S fuel' =>
      match gen_next σ g with
      | (σ', g', Yield node) => list_of_gen fuel' σ' g' (acc ++ [node])
      | (σ', _, StopIteration) => Some (σ', Return acc)
      | (σ', _, Raised e) => Some (σ', Raise e)
      end
  end.

(** What [full_help_from_parser] finds around it: whether [rich] was
    imported and whether the standard output is a terminal. *)
Record terminal := {
  _RICH_AVAILABLE : bool;
  stdout_isatty : bool
}.

Section FromParser.
Context `{UnicodeDB} `{Libraries}.

(** The message of the [ValueError] for an unknown format. *)
Definition invalid_format (fmt : str) : str :=
  lit "Invalid format '" ++ fmt
  ++ lit "'. Must be one of ['text', 'md', 'html']".

(** [full_help_from_parser]: the heap it leaves, the Markdown it has
    printed through [rich], and what it returns or raises; [None] when
    [fuel] calls of [next] do not exhaust the walker. *)
Definition full_help_from_parser (tty : terminal) (fuel : nat) (σ : heap)
    (parser : positive) (prog : option str) (fmt : str)
    (use_rich : option bool)
  : option (heap * list str * result str) :=
  let use_rich :=
    match use_rich with
    | Some b => b
    | None => _RICH_AVAILABLE tty && stdout_isatty tty
    end in
  let program_name :=
    match prog with
    | Some (c :: p) => Return (c :: p)
    | _ => match σ !! parser with
           | Some root => Return (get_prog root)
           | None => Raise AttributeError
           end
    end in
  match program_name with
  | Raise e => Some (σ, [], Raise e)
  | Return program_name =>
      match list_of_gen fuel σ (_walk_parser_tree parser (Some program_name)) []
      with
      | None => None
      | Some (σ', Raise e) => Some (σ', [], Raise e)
      | Some (σ', Return nodes) =>
          match renderers fmt with
          | None => Some (σ', [], Raise (ValueError (invalid_format fmt)))
          | Some render =>
              let doc := render σ' nodes program_name in
              let printed :=
                if bool_decide (fmt = lit "text") && use_rich
                   && _RICH_AVAILABLE tty
                then [_render_md σ' nodes program_name]
                else [] in
              Some (σ', printed, Return doc)
          end
      end
  end.

End FromParser.

(** ** The console script

    [print_output] and [main] of [__main__] act on the world.  What
    they have done is recorded in order: the texts that reached a
    stream (a [print] that raises records nothing), the temporary file
    once written, and the calls of [webbrowser.open]. *)

Inductive effect :=
| PrintStdout (text : str)
| PrintStderr (text : str)
| TempFile (name : str) (content : str)
| WebbrowserOpen (url : str).

(** The [with] block that writes the temporary file either leaves a file
    of that name, or raises. *)
Inductive tempfile_outcome :=
| Written (name : str)
| WriteFailed (message : str).

(** [webbrowser.open] returns, raises [webbrowser.Error], or raises
    another exception. *)
Inductive browser_outcome :=
| Opened (shown : bool)
| BrowserError (message : str)
| BrowserFailed (message : str).

(** What the code takes from the operating system: the temporary file,
    [os.path.realpath], the browser, the two streams and [str] of an
    exception.  A [print] to a stream, after the actions so far, returns
    ([None]) or raises an exception ([UnicodeEncodeError],
    [BrokenPipeError], ...) that is given by its message. *)
Class Host := {
  write_tempfile : str → tempfile_outcome;
  realpath : str → str;
  webbrowser_open : str → browser_outcome;
  stdout_raises : list effect → str → option str;
  stderr_raises : list effect → str → option str;
  str_of_exn : exn → str
}.

(** The namespace that [parse_args] hands to [main]. *)
Record Namespace := {
  args_command : list str;
  args_format : str;
  args_open : bool
}.

(** How [main] ends: it returns, it calls [sys.exit], or an exception
    leaves it. *)
Inductive main_outcome :=
| Returned
| SysExit (status : Z)
| Uncaught (message : str).

Section Console.
Context `{UnicodeDB} `{Libraries} `{Host}.

(** A piece of code that acts: from the actions so far to the actions
    after it, and the message of the exception it raises, if any. *)
Definition action_of := list effect → list effect * option str.

(** [print(text)] and [print(text, file=sys.stderr)] *)
Definition print_stdout (text : str) : action_of :=
  λ done, match stdout_raises done text with
          | None => (done ++ [PrintStdout text], None)
          | Some e => (done, Some e)
          end.

Definition print_stderr (text : str) : action_of :=
  λ done, match stderr_raises done text with
          | None => (done ++ [PrintStderr text], None)
          | Some e => (done, Some e)
          end.

(** The body of the outer [try] of [print_output]; an exception raised
    by the handler of [webbrowser.Error] leaves the body too. *)
Definition html_try (doc : str) (open_browser : bool) : action_of :=
  λ done,
    match write_tempfile doc with
    | WriteFailed e => (done, Some e)
    | Written filepath =>
        match print_stderr (lit "HTML help written to: file://" ++ filepath)
                (done ++ [TempFile filepath doc]) with
        | (done', Some e) => (done', Some e)
        | (done', None) =>
            if open_browser then
              let url := lit "file://" ++ realpath filepath in
              match webbrowser_open url with
              | Opened _ => (done' ++ [WebbrowserOpen url], None)
              | BrowserError e =>
                  print_stderr
                    (lit "Warning: Could not open web browser: " ++ e)
                    (done' ++ [WebbrowserOpen url])
              | BrowserFailed e => (done' ++ [WebbrowserOpen url], Some e)
              end
            else (done', None)
        end
    end.

(** The handler of the outer [try]. *)
Definition html_fallback (doc e : str) : action_of :=
  λ done,
    match print_stderr (lit "Error writing temporary HTML file: " ++ e) done
    with
    | (done', Some e') => (done', Some e')
    | (done', None) => print_stdout doc done'
    end.

Definition print_output (doc fmt : str) (open_browser : bool) : action_of :=
  λ done,
    if bool_decide (fmt = lit "html") then
      match html_try doc open_browser done with
      | (done', Some e) => html_fallback doc e done'
      | (done', None) => (done', None)
      end
    else print_stdout doc done.

(** The handler of [main]. *)
Definition main_failed (e : str) (done : list effect)
  : list effect * main_outcome :=
  match print_stderr (lit "An error occurred: " ++ e) done with
  | (done', Some e') => (done', Uncaught e')
  | (done', None) => (done', SysExit 1%Z)
  end.

(** [main] after [parse_args]: the child processes it has run, what it
    has done, and how it ends; [None] when [fuel] rounds do not end the
    discovery. *)
Definition main (run : list str → float → environ → run_result)
    (fuel : nat) (args : Namespace)
  : option (list (list str) * list effect * main_outcome) :=
  let target_command :=
    match args_command args with
    | [] => [lit "python"]
    | command => command
    end in
  match full_help_external run fuel target_command (args_format args)
          (lit "5.0") 4 None with
  | None => None
  | Some (spawned, Return doc) =>
      match print_output doc (args_format args) (args_open args) [] with
      | (done, None) => Some (spawned, done, Returned)
      | (done, Some e) =>
          let '(done', outcome) := main_failed e done in
          Some (spawned, done', outcome)
      end
  | Some (spawned, Raise e) =>
      let '(done', outcome) := main_failed (str_of_exn e) [] in
      Some (spawned, done', outcome)
  end.

End Console.

(** ** Sample surroundings

    Tables and libraries on which the definitions can be run: a character
    database that knows nothing beyond ASCII, an argparse that prints the
    usage line and the description, and a page that holds the table of
    contents and the body. *)

Definition ascii_db : UnicodeDB :=
  {| unicode_isspace := λ _, false;
     unicode_isalnum := λ _, false;
     unicode_tolower := λ c, c |}.

Definition sample_libraries : Libraries :=
  {| format_help := λ p, lit "usage: " ++ get_prog p ++ NL ++ NL
                         ++ description p;
     html_page := λ prog toc body, toc ++ body |}.

(** A host where the temporary file is [/tmp/help.html], paths are real,
    the browser opens and the streams take every text. *)
Definition sample_host : Host :=
  {| write_tempfile := λ _, Written (lit "/tmp/help.html");
     realpath := λ name, name;
     webbrowser_open := λ _, Opened true;
     stdout_raises := λ _ _, None;
     stderr_raises := λ _ _, None;
     str_of_exn := λ _, lit "error" |}.

(** A parser that registers, under [cmd], an object that is no
    parser. *)
Definition stray_parser : heap :=
  <[1%positive :=
      {| prog := lit "cli"; description := [];
         _actions := [_SubParsersAction [(lit "cmd", 2%positive)]] |}]> ∅.

(** The child processes of the repository's test of the prober: [pip]
    lists two commands, each of which prints a usage line. *)
Definition pip_run (argv : list str) (_ : float) (_ : environ) : run_result :=
  if bool_decide (argv = [lit "pip"; lit "--help"]) then
    Completed (lit "usage: pip <command> [...]" ++ NL ++ NL
               ++ lit "Commands:" ++ NL
               ++ lit "  install    Install packages." ++ NL
               ++ lit "  uninstall  Uninstall packages." ++ NL) [] 0
  else if bool_decide (argv = [lit "pip"; lit "install"; lit "--help"]) then
    Completed (lit "usage: pip install [options] <package>") [] 0
  else if bool_decide (argv = [lit "pip"; lit "uninstall"; lit "--help"]) then
    Completed (lit "usage: pip uninstall [options] <package>") [] 0
  else FileNotFoundError.

(** No command is ever found, and every child process times out. *)
Definition no_such_command (_ : list str) (_ : float) (_ : environ)
  : run_result := FileNotFoundError.

Definition always_late (_ : list str) (_ : float) (_ : environ)
  : run_result := TimeoutExpired.

(** [pip] lists two commands; probing [install] times out. *)
Definition pip_run_late (argv : list str) (timeout : float) (env : environ)
  : run_result :=
  if bool_decide (argv = [lit "pip"; lit "install"; lit "--help"])
  then TimeoutExpired
  else pip_run argv timeout env.

(** The parser of the repository's tests: [cli] with [cmd1] and [cmd2],
    the latter with [sub1]. *)
Definition complex_parser : heap :=
  <[1%positive :=
      {| prog := lit "cli"; description := lit "A test CLI.";
         _actions := [OtherAction;
                      _SubParsersAction [(lit "cmd1", 2%positive);
                                         (lit "cmd2", 3%positive)]] |}]>
  (<[2%positive :=
      {| prog := lit "cli cmd1"; description := [];
         _actions := [OtherAction; OtherAction] |}]>
  (<[3%positive :=
      {| prog := lit "cli cmd2"; description := [];
         _actions := [OtherAction;
                      _SubParsersAction [(lit "sub1", 4%positive)]] |}]>
  (<[4%positive :=
      {| prog := lit "cli cmd2 sub1"; description := [];
         _actions := [OtherAction; OtherAction] |}]> ∅))).

(** A parser built from two parents that each bring a subparsers action
    with a command [foo]. *)
Definition two_parents : heap :=
  <[1%positive :=
      {| prog := lit "cli"; description := [];
         _actions := [_SubParsersAction [(lit "foo", 2%positive)];
                      _SubParsersAction [(lit "foo", 3%positive)]] |}]>
  (<[2%positive :=
      {| prog := lit "a foo"; description := []; _actions := [] |}]>
  (<[3%positive :=
      {| prog := lit "b foo"; description := []; _actions := [] |}]> ∅)).

Local Close Scope N_scope.

(** * The vocabulary of the properties *)

(** ** The external prober *)

Section ProberVocabulary.
Context `{UnicodeDB}.
Variable run : list str → float → environ → run_result.
Variable command : list str.
Variable timeout : float.
Variable max_depth : Z.
Variable env : environ.

(** An entry of the queue weighs one plus the weights of everything its
    help text can queue, down to the depth where entries are dropped;
    the weights of the queue bound the rounds that are left. *)
Definition children (e : list str * list str) : list (list str * list str) :=
  (λ sub_cmd, (e.1 ++ [sub_cmd], command ++ (e.1 ++ [sub_cmd])))
    <$> _find_subcommands_from_help (probe_help run timeout env e.2).

Fixpoint weight (d : nat) (e : list str * list str) : nat :=
  match d with
  | O => 1
  | S d' => S (sum_list_with (weight d') (children e))
  end.

Definition depth_left (e : list str * list str) : nat :=
  Z.to_nat (max_depth + 1 - Z.of_nat (length e.1)).

Definition potential (queue : list (list str * list str)) : nat :=
  sum_list_with (λ e, weight (depth_left e) e) queue.

(** The help text that the loop obtains for the path [p]. *)
Definition help_at (p : list str) : str :=
  probe_help run timeout env (command ++ p).

(** The node that the loop records for the path [p]. *)
Definition node_at (p : list str) : _ParserNode :=
  {| path := p;
     parser := _HelpOnlyParser (strip (help_at p))
                 (join (lit " ") (command ++ p)) |}.

Definition paths (st : probe_state) : list (list str) := path <$> nodes st.

Record probe_inv (st : probe_state) : Prop := {
  inv_nodup : NoDup (paths st);
  inv_visited : ∀ p, p ∈ visited_paths st ↔ p ∈ paths st;
  inv_depth : ∀ p, p ∈ paths st → (Z.of_nat (length p) ≤ max_depth)%Z;
  inv_queue : ∀ e, e ∈ q st → e.2 = command ++ e.1;
  inv_nodes : nodes st = node_at <$> paths st;
  inv_spawned :
    spawned st = (λ p, (command ++ p) ++ [lit "--help"]) <$> paths st;
  inv_parent : ∀ p, p ∈ paths st ∨ p ∈ (q st).*1 →
    p = [] ∨ ∃ p0 x, p = p0 ++ [x] ∧ p0 ∈ paths st
                     ∧ x ∈ _find_subcommands_from_help (help_at p0);
  inv_children : ∀ p x, p ∈ paths st →
    x ∈ _find_subcommands_from_help (help_at p) →
    (Z.of_nat (length p) + 1 ≤ max_depth)%Z →
    p ++ [x] ∈ paths st ∨ p ++ [x] ∈ (q st).*1;
  inv_root :
    match paths st with
    | [] => q st = [([], command)] ∨ (max_depth < 0)%Z
    | p :: _ => p = []
    end
}.

End ProberVocabulary.

(** The placeholders of a timeout and of a command that was not found. *)
Definition timeout_placeholder (timeout : float) : str :=
  lit "[Error: command timed out after " ++ timeout ++ lit " seconds]".

Definition not_found_placeholder (current_prog : str) : str :=
  lit "[Error: command not found: '" ++ current_prog ++ lit "']".

(** ** The in-process walker *)

Definition choices_of (a : action) : list (str * positive) :=
  match a with
  | _SubParsersAction choices => choices
  | OtherAction => []
  end.

(** Every registration of a parser, over all its subparser actions. *)
Definition all_choices (p : ArgumentParser) : list (str * positive) :=
  flat_map choices_of (_actions p).

Definition child_node (node_path : list str) (c : str * positive)
  : _ParserNode :=
  {| path := node_path ++ [c.1]; parser := ParserAt c.2 |}.

(** The parsers that some registration of the heap names. *)
Definition targets (σ : heap) : gset positive :=
  ⋃ ((λ kv, list_to_set (all_choices kv.2).*2) <$> map_to_list σ).

(** The names registered on one parser are distinct: what [add_subparsers]
    builds, one subparsers action per parser with the keys of a dict as
    its names. *)
Definition distinct_names (σ : heap) : Prop :=
  map_Forall (λ _ p, NoDup (all_choices p).*1) σ.

Section WalkerVocabulary.
Variable σ0 : heap.
Variable root : positive.

(** Every parser the walk can meet. *)
Definition universe : gset positive := {[root]} ∪ targets σ0.

(** What holds of the heap and of the generator between two operations:
    only the program name of the root differs from the heap at the call,
    and the saved name is the one of that heap. *)
Definition gen_ok (σ : heap) (g : generator) : Prop :=
  match g with
  | GenCreated r _ => r = root ∧ σ = σ0
  | GenSuspended r original_prog node queue visited =>
      r = root
      ∧ (∃ r0 x, σ0 !! root = Some r0 ∧ original_prog = get_prog r0
                 ∧ σ = set_prog σ0 root x)
      ∧ visited ⊆ universe
  | GenFinished => σ = σ0
  end.

(** The rounds a walker has left at most. *)
Definition walk_measure (g : generator) : nat :=
  match g with
  | GenCreated _ _ => size universe
  | GenSuspended _ _ _ queue visited => size (universe ∖ visited) + length queue
  | GenFinished => 0
  end.

Definition root_node : _ParserNode := {| path := []; parser := ParserAt root |}.

(** The nodes of a walk at a [yield]: [done] were expanded, [node] is
    being yielded, [queue] waits. *)
Record paths_ok (done : list _ParserNode) (node : _ParserNode)
    (queue : list _ParserNode) : Prop := {
  po_nodup : NoDup (path <$> done ++ node :: queue);
  po_parent : ∀ m, m ∈ done ++ node :: queue →
    path m = [] ∨ ∃ p0 x, path m = p0 ++ [x] ∧ p0 ∈ path <$> done;
  po_root : ∃ rest, done ++ node :: queue = root_node :: rest
}.

(** The nodes collected by [list] when the walker stands at [g]. *)
Definition acc_ok (acc : list _ParserNode) (g : generator) : Prop :=
  match g with
  | GenCreated r _ => acc = []
  | GenSuspended _ _ node queue _ =>
      ∃ done, acc = done ++ [node] ∧ paths_ok done node queue
  | GenFinished => False
  end.

End WalkerVocabulary.

(** ** The documents *)

Section DocumentVocabulary.
Context `{UnicodeDB} `{Libraries}.

(** The root comes first in the three documents: the plain text starts
    with its title, the Markdown with the document title and its heading,
    the table of contents and the body of the page with its entries. *)
Definition rendered_root_first (σ : heap) (nodes0 : list _ParserNode)
    (prog0 : str) : Prop :=
  (lit "$ " ++ prog0 ++ lit " --help" ++ NL)
    `prefix_of` _render_text σ nodes0 prog0
  ∧ (lit "# Help for `" ++ prog0 ++ lit "`" ++ NL ++ NL
     ++ lit "## `" ++ prog0 ++ lit "`" ++ NL ++ NL)
    `prefix_of` _render_md σ nodes0 prog0
  ∧ (lit "<ul><li style=" ++ DQ ++ lit "margin-left: 0px;" ++ DQ
     ++ lit "><a href=" ++ DQ ++ lit "#cmd-root" ++ DQ ++ lit ">")
    `prefix_of` html_toc nodes0 prog0
  ∧ (lit "<h2 id=" ++ DQ ++ lit "cmd-root" ++ DQ)
    `prefix_of` html_body σ nodes0 prog0.

End DocumentVocabulary.

(** How many nodes of a run carry the empty path. *)
Definition root_count (l : list _ParserNode) : nat :=
  length (filter (λ node, path node = []) l).

(** ** The order of a run *)

(** Every path of the list but the empty one comes after the path of its
    parent. *)
Definition parents_first (l : list (list str)) : Prop :=
  ∀ pre p post, l = pre ++ p :: post →
    p = [] ∨ ∃ p0 x, p = p0 ++ [x] ∧ p0 ∈ pre.

(** The parsers that a walk from [root] can reach through the
    registrations of the heap. *)
Inductive reachable (σ : heap) (root : positive) : positive → Prop :=
| reach_root : reachable σ root root
| reach_step i p c :
    reachable σ root i → σ !! i = Some p → c ∈ all_choices p →
    reachable σ root c.2.

(** Every registration of the heap names a parser of the heap. *)
Definition closed_heap (σ : heap) : Prop :=
  map_Forall (λ _ p, Forall (λ c, is_Some (σ !! c.2)) (all_choices p)) σ.

Section WalkOrderVocabulary.
Variable σ0 : heap.
Variable root : positive.

(** A walk at a [yield], seen by the identities of its parsers: the
    parsers met so far are the nodes, once each; they are reachable;
    those expanded have all their registrations met; and every node
    comes after its parent. *)
Record walk_ok (done : list _ParserNode) (node : _ParserNode)
    (queue : list _ParserNode) (visited : gset positive) : Prop := {
  wo_ids : ∃ ids, parser <$> (done ++ node :: queue) = ParserAt <$> ids
                  ∧ NoDup ids ∧ visited = list_to_set ids;
  wo_root : root ∈ visited;
  wo_sound : ∀ i, i ∈ visited → reachable σ0 root i;
  wo_closed : ∀ m i p c, m ∈ done → parser m = ParserAt i →
    σ0 !! i = Some p → c ∈ all_choices p → c.2 ∈ visited;
  wo_parents : parents_first (path <$> (done ++ [node]));
  wo_queue : ∀ m, m ∈ queue →
    ∃ p0 x, path m = p0 ++ [x] ∧ p0 ∈ path <$> (done ++ [node])
}.

Definition walk_acc_ok (acc : list _ParserNode) (g : generator) : Prop :=
  match g with
  | GenCreated _ _ => acc = []
  | GenSuspended _ _ node queue visited =>
      ∃ done, acc = done ++ [node] ∧ walk_ok done node queue visited
  | GenFinished => False
  end.

(** What a finished walk has collected. *)
Definition walk_result_ok (nodes0 : list _ParserNode) : Prop :=
  ∃ ids, parser <$> nodes0 = ParserAt <$> ids
         ∧ NoDup ids
         ∧ (∀ j, j ∈ ids ↔ reachable σ0 root j)
         ∧ parents_first (path <$> nodes0).

End WalkOrderVocabulary.

(** ** Help texts that list names *)

Section ListedNames.
Context `{UnicodeDB}.

(** A name of characters of the class [[\w-]], none of which the tables
    count as whitespace or as a line boundary. *)
Definition plain_char (c : N) : Prop :=
  isname c = true ∧ isspace c = false ∧ is_linebreak c = false.

Definition plain_name (name : list N) : Prop :=
  name ≠ [] ∧ Forall plain_char name.

(** The usage line of [prog0] with the brace group of [names]. *)
Definition usage_text (prog0 : list N) (names : list (list N)) : list N :=
  lit "usage: " ++ prog0 ++ lit " {" ++ join (lit ",") names ++ lit "}".

(** A labeled section: the header, then one indented line for each
    entry, its name followed by its help. *)
Definition section_line (entry : list N * list N) : list N :=
  lit "  " ++ entry.1 ++ lit "  " ++ entry.2.

Definition section_text (header : list N) (entries : list (list N * list N))
  : list N :=
  header ++ lit ":" ++ NL
  ++ concat ((λ entry, section_line entry ++ NL) <$> entries).

End ListedNames.

(** ** The pieces of a document *)

(** The texts of [parts] occur in [doc] one after the other, without
    overlap. *)
Fixpoint in_order (parts : list (list N)) (doc : list N) : Prop :=
  match parts with
  | [] => True
  | x :: rest => ∃ pre post, doc = pre ++ x ++ post ∧ in_order rest post
  end.

(** * Properties *)

(** ** The extractor *)

Section ExtractorFacts.
Context `{UnicodeDB}.

(** C2: on the usage line of git the extractor returns the eight names of
    the brace group, in their order. *)
Theorem extract_git_usage :
  _find_subcommands_from_help
    (lit "usage: git [-v | --version] {clone,init,add,mv,reset,rm,bisect,grep}")
  = [lit "clone"; lit "init"; lit "add"; lit "mv"; lit "reset"; lit "rm";
     lit "bisect"; lit "grep"].
Proof. vm_compute. reflexivity. Qed.

(** The scenario of the labeled section: the three commands of docker. *)
Example extract_docker_commands :
  _find_subcommands_from_help
    (NL ++ lit "usage: docker [OPTIONS] COMMAND" ++ NL ++ NL
     ++ lit "A self-sufficient runtime for containers" ++ NL ++ NL
     ++ lit "Commands:" ++ NL
     ++ lit "  build       Build an image from a Dockerfile" ++ NL
     ++ lit "  run         Run a new command in a new container" ++ NL
     ++ lit "  ps          List containers" ++ NL)
  = [lit "build"; lit "run"; lit "ps"].
Proof. vm_compute. reflexivity. Qed.

(** A description that wraps onto a line of its own adds no name, and
    the section ends at the next header that is not indented. *)
Example extract_wrapped_description :
  _find_subcommands_from_help
    (NL ++ lit "USAGE:" ++ NL ++ lit "  oddtool [OPTIONS] <command>" ++ NL ++ NL
     ++ lit "Commands:" ++ NL
     ++ lit "  walk      Move around" ++ NL
     ++ lit "            (this wraps on a second line)" ++ NL
     ++ lit "  jump      Leap upwards" ++ NL
     ++ lit "  help      Print help" ++ NL
     ++ lit "Options:" ++ NL
     ++ lit "  -h, --help  Print help information" ++ NL)
  = [lit "walk"; lit "jump"; lit "help"].
Proof. vm_compute. reflexivity. Qed.

End ExtractorFacts.

(** The walk of the tests: four nodes, breadth first, and the heap as it
    was. *)
Example walk_complex_parser :
  list_of_gen 5 complex_parser (_walk_parser_tree 1 (Some (lit "my-app"))) []
  = Some (complex_parser,
          Return [ {| path := []; parser := ParserAt 1 |};
                   {| path := [lit "cmd1"]; parser := ParserAt 2 |};
                   {| path := [lit "cmd2"]; parser := ParserAt 3 |};
                   {| path := [lit "cmd2"; lit "sub1"];
                      parser := ParserAt 4 |} ]).
Proof. vm_compute. reflexivity. Qed.

(** The plain text of a root and one child: each title is underlined
    with as many marks as it has characters. *)
Example render_text_two_nodes :
  @_render_text ascii_db sample_libraries ∅
    [ {| path := []; parser := _HelpOnlyParser (lit "usage: cli") (lit "cli") |};
      {| path := [lit "cmd1"];
         parser := _HelpOnlyParser (lit "usage: cli cmd1") (lit "cli cmd1") |} ]
    (lit "cli")
  = lit "$ cli --help" ++ NL
    ++ lit "============" ++ NL
    ++ lit "usage: cli" ++ NL
    ++ NL ++ replicate 78 45%N ++ NL ++ NL
    ++ lit "$ cli cmd1 --help" ++ NL
    ++ lit "=================" ++ NL
    ++ lit "usage: cli cmd1".
Proof. vm_compute. reflexivity. Qed.

(** ** The external prober *)

Section ProberFacts.
Context `{UnicodeDB}.
Variable run : list str → float → environ → run_result.
Variable command : list str.
Variable timeout : float.
Variable max_depth : Z.
Variable env : environ.

Abbreviation step := (probe_step run command timeout max_depth env).
Abbreviation loop := (probe_loop run command timeout max_depth env).
Abbreviation children := (children run command timeout env).
Abbreviation weight := (weight run command timeout env).
Abbreviation depth_left := (depth_left max_depth).
Abbreviation potential := (potential run command timeout max_depth env).
Abbreviation help_at := (help_at run command timeout env).
Abbreviation node_at := (node_at run command timeout env).
Abbreviation probe_inv := (probe_inv run command timeout max_depth env).
Abbreviation inv_root := (inv_root run command timeout max_depth env).
Abbreviation inv_nodes := (inv_nodes run command timeout max_depth env).

(** *** Termination *)

Lemma weight_pos d e : 0 < weight d e.
Proof. destruct d; simpl; lia. Qed.

Lemma potential_app q1 q2 : potential (q1 ++ q2) = potential q1 + potential q2.
Proof. apply sum_list_with_app. Qed.

Lemma potential_cons e queue :
  potential (e :: queue) = weight (depth_left e) e + potential queue.
Proof. done. Qed.

Lemma potential_filter (P : list str * list str → Prop)
    `{!∀ e, Decision (P e)} queue :
  potential (filter P queue) ≤ potential queue.
Proof.
  induction queue as [|e queue IH]; [done|].
  rewrite filter_cons. destruct (decide (P e));
    rewrite !potential_cons; lia.
Qed.

Lemma potential_children e d :
  depth_left e = S d →
  potential (children e) = sum_list_with (weight d) (children e).
Proof.
  intros Hd. unfold potential, children.
  induction (_find_subcommands_from_help _) as [|s subs IH]; [done|].
  rewrite !fmap_cons. simpl. rewrite IH. f_equal. f_equal.
  unfold depth_left in *. simpl. rewrite length_app. simpl. lia.
Qed.

Lemma step_decreases st st' :
  step st = Some st' → potential (q st') < potential (q st).
Proof.
  unfold probe_step. destruct (q st) as [|[p c] rest] eqn:Hq; [done|].
  pose proof (weight_pos (depth_left (p, c)) (p, c)) as Hpos.
  rewrite potential_cons.
  destruct (Z.of_nat (length p) >? max_depth)%Z eqn:Hdepth.
  { intros [= <-]. simpl. lia. }
  case_bool_decide.
  { intros [= <-]. simpl. lia. }
  assert (depth_left (p, c) = S (Z.to_nat (max_depth - Z.of_nat (length p))))
    as Hd by (unfold depth_left; simpl; lia).
  intros [= <-]. simpl. rewrite potential_app, Hd. simpl.
  rewrite <- (potential_children (p, c) _ Hd). unfold new_entries.
  change (_ <$> _find_subcommands_from_help _) with (children (p, c)).
  match goal with
  | |- context [potential (filter ?P ?l)] => pose proof (potential_filter P l)
  end.
  lia.
Qed.

Lemma loop_terminates fuel st :
  potential (q st) ≤ fuel → is_Some (loop fuel st).
Proof.
  revert st. induction fuel as [|fuel IH]; intros st Hfuel; simpl.
  - destruct (step st) as [st'|] eqn:Hstep; [|by eexists].
    apply step_decreases in Hstep. lia.
  - destruct (step st) as [st'|] eqn:Hstep; [|by eexists].
    apply IH. apply step_decreases in Hstep. lia.
Qed.

(** More fuel does not change the outcome. *)
Lemma loop_fuel_mono fuel fuel' st st' :
  loop fuel st = Some st' → fuel ≤ fuel' → loop fuel' st = Some st'.
Proof.
  revert fuel' st. induction fuel as [|fuel IH]; intros fuel' st; simpl.
  - destruct (step st) eqn:Hstep; [done|]. intros [= <-] _.
    destruct fuel'; simpl; by rewrite Hstep.
  - destruct (step st) eqn:Hstep.
    + intros Hl Hle. destruct fuel' as [|fuel']; [lia|]. simpl. rewrite Hstep.
      apply IH; [done|lia].
    + intros [= <-] _. destruct fuel'; simpl; by rewrite Hstep.
Qed.

(** When the loop ends, the queue is empty. *)
Lemma loop_ends_empty fuel st st' : loop fuel st = Some st' → q st' = [].
Proof.
  revert st. induction fuel as [|fuel IH]; intros st; simpl.
  - destruct (step st) eqn:Hstep; [done|]. intros [= <-].
    unfold probe_step in Hstep. destruct (q st) as [|[p c] rest]; [done|].
    repeat case_match; done.
  - destruct (step st) eqn:Hstep; [by apply IH|]. intros [= <-].
    unfold probe_step in Hstep. destruct (q st) as [|[p c] rest]; [done|].
    repeat case_match; done.
Qed.

(** An invariant of the rounds holds when the loop ends. *)
Lemma loop_invariant (P : probe_state → Prop) :
  (∀ st st', step st = Some st' → P st → P st') →
  ∀ fuel st st', loop fuel st = Some st' → P st → P st'.
Proof.
  intros Hstep fuel. induction fuel as [|fuel IH]; intros st st'; simpl.
  - destruct (step st); [done|]. by intros [= <-].
  - destruct (step st) as [st1|] eqn:Hst; [|by intros [= <-]].
    intros Hl HP. eapply IH; [done|]. by eapply Hstep.
Qed.

(** *** The invariant of the loop *)

Lemma inv_init : probe_inv (probe_init command).
Proof.
  split; unfold paths; simpl; try done.
  - constructor.
  - intros p. set_solver.
  - intros p Hp. by apply elem_of_nil in Hp.
  - intros e ->%list_elem_of_singleton. simpl. by rewrite app_nil_r.
  - intros p [Hp| ->%list_elem_of_singleton]; [by apply elem_of_nil in Hp|by left].
  - intros p x Hp. by apply elem_of_nil in Hp.
  - by left.
Qed.

Lemma elem_of_new_entries visited p subs e :
  e ∈ new_entries command visited p subs ↔
  ∃ x, x ∈ subs ∧ e = (p ++ [x], command ++ (p ++ [x])) ∧ p ++ [x] ∉ visited.
Proof.
  unfold new_entries. rewrite list_elem_of_filter, list_elem_of_fmap. split.
  - intros (Hv & x & -> & Hx). eauto.
  - intros (x & Hx & -> & Hv). eauto.
Qed.

Lemma inv_step st st' : step st = Some st' → probe_inv st → probe_inv st'.
Proof.
  unfold probe_step. destruct (q st) as [|[p c] rest] eqn:Hq; [done|].
  intros Hstep [Hnd Hvis Hdep Hqu Hno Hsp Hpar Hch Hroot].
  rewrite Hq in *.
  assert (c = command ++ p) as -> by (apply (Hqu (p, c)); left).
  destruct (Z.of_nat (length p) >? max_depth)%Z eqn:Hdepth;
    [|case_bool_decide as Hin]; injection Hstep as <-.
  - (* dropped: too deep *)
    split; unfold paths in *; simpl in *; try done.
    + intros e He. apply Hqu. by right.
    + intros p' [Hp'|Hp']; apply Hpar; [by left|right; by right].
    + intros p0 x Hp0 Hx Hlen.
      destruct (Hch p0 x Hp0 Hx Hlen) as [?|[Heq|?]%elem_of_cons]; [by left| |by right].
      simpl in Heq. apply (f_equal length) in Heq. rewrite length_app in Heq.
      simpl in Heq. lia.
    + destruct (path <$> nodes st); [|done]. right.
      destruct Hroot as [[= -> _ _]|?]; [|done].
      change (length []) with 0 in Hdepth.
      lia.
  - (* dropped: seen before *)
    split; unfold paths in *; simpl in *; try done.
    + intros e He. apply Hqu. by right.
    + intros p' [Hp'|Hp']; apply Hpar; [by left|right; by right].
    + intros p0 x Hp0 Hx Hlen.
      destruct (Hch p0 x Hp0 Hx Hlen) as [?|[Heq|?]%elem_of_cons]; [by left| |by right].
      simpl in Heq. rewrite Heq. left. by apply Hvis.
    + destruct (path <$> nodes st) eqn:Hp; [|done].
      apply Hvis in Hin. by apply elem_of_nil in Hin.
  - (* probed *)
    assert (p ∉ path <$> nodes st) as Hfresh by (by rewrite <- Hvis).
    split; unfold paths in *; simpl in *; rewrite ?fmap_app; simpl.
    + apply NoDup_app. split_and!; [done| |apply NoDup_singleton].
      intros p' Hp' ->%list_elem_of_singleton. done.
    + intros p'. rewrite elem_of_union, elem_of_singleton, elem_of_app,
        list_elem_of_singleton, Hvis. tauto.
    + intros p' [Hp'| ->%list_elem_of_singleton]%elem_of_app; [by apply Hdep|lia].
    + intros e [He|He]%elem_of_app; [apply Hqu; by right|].
      apply elem_of_new_entries in He as (x & _ & -> & _). done.
    + by rewrite Hno at 1.
    + by rewrite Hsp.
    + intros p' Hp'.
      assert (p' ∈ path <$> nodes st ∨ p' = p ∨ p' ∈ rest.*1 ∨
              ∃ x, p' = p ++ [x] ∧ x ∈ _find_subcommands_from_help (help_at p))
        as [?|[->|[?|(x & -> & Hx)]]].
      { destruct Hp' as [[?| ->%list_elem_of_singleton]%elem_of_app|Hp'];
          [by left|right; by left|].
        apply elem_of_app in Hp' as [?|Hp']; [right; right; by left|].
        apply list_elem_of_fmap in Hp' as (e & -> & He).
        apply elem_of_new_entries in He as (x & Hx & -> & _).
        right; right; right. eauto. }
      * destruct (Hpar p') as [?|(p0 & x & -> & ? & ?)]; [by left|by left|].
        right. exists p0, x. rewrite elem_of_app. eauto.
      * destruct (Hpar p) as [?|(p0 & x & -> & ? & ?)]; [right; by left|by left|].
        right. exists p0, x. rewrite elem_of_app. eauto.
      * destruct (Hpar p') as [?|(p0 & x & -> & ? & ?)]; [right; by right|by left|].
        right. exists p0, x. rewrite elem_of_app. eauto.
      * right. exists p, x. rewrite elem_of_app, list_elem_of_singleton. eauto.
    + intros p0 x Hp0 Hx Hlen. rewrite !elem_of_app, list_elem_of_singleton.
      apply elem_of_app in Hp0 as [Hp0| ->%list_elem_of_singleton].
      * destruct (Hch p0 x Hp0 Hx Hlen) as [?|[Heq|?]%elem_of_cons]; eauto.
      * destruct (decide (p ++ [x] ∈ visited_paths st)) as [Hv|Hv].
        { left; left. by apply Hvis. }
        right; right. apply list_elem_of_fmap.
        exists (p ++ [x], command ++ (p ++ [x])). split; [done|].
        apply elem_of_new_entries. exists x. split_and!; [done..|].
        rewrite elem_of_union, elem_of_singleton.
        intros [Heq|?]; [|done].
        apply (f_equal length) in Heq. rewrite length_app in Heq. simpl in Heq. lia.
    + destruct (path <$> nodes st) eqn:Hp; simpl; [|done].
      destruct Hroot as [[= -> _]|?]; [done|lia].
Qed.

(** The invariant holds when the discovery ends. *)
Lemma probe_inv_final fuel st :
  probe run command timeout max_depth env fuel = Some st →
  probe_inv st ∧ q st = [].
Proof.
  intros Hp. split; [|by eapply loop_ends_empty].
  eapply (loop_invariant probe_inv); [apply inv_step|done|apply inv_init].
Qed.

(** The discovery ends, and the invariant holds then. *)
Lemma probe_total :
  ∃ n, ∀ fuel, n ≤ fuel →
    ∃ st, probe run command timeout max_depth env fuel = Some st
          ∧ probe_inv st ∧ q st = [].
Proof.
  exists (potential (q (probe_init command))). intros fuel Hfuel.
  destruct (loop_terminates fuel (probe_init command) Hfuel) as [st Hst].
  exists st. split; [done|]. by apply (probe_inv_final fuel).
Qed.

(** With the root within depth, the first node is the root. *)
Lemma final_root_first st :
  (0 ≤ max_depth)%Z → probe_inv st → q st = [] →
  ∃ rest, nodes st = node_at [] :: rest.
Proof.
  intros Hd Hinv Hq. pose proof (inv_root st Hinv) as Hroot.
  pose proof (inv_nodes st Hinv) as Hnodes.
  destruct (paths st) as [|p ps] eqn:Hp.
  - rewrite Hq in Hroot. destruct Hroot; [done|lia].
  - subst p. rewrite Hnodes. simpl. eauto.
Qed.

End ProberFacts.

Section ExternalClaims.
Context `{UnicodeDB}.

(** C4: whatever the child processes print, the external prober ends:
    some number of rounds suffices, and any larger number gives the same
    outcome.  This covers help texts that name a sibling seen before or
    the program itself. *)
Theorem external_prober_terminates `{Libraries}
    (run : list str → float → environ → run_result) (command : list str)
    (fmt : str) (timeout : float) (max_depth : Z) (env : environ) :
  ∃ n outcome, ∀ fuel, n ≤ fuel →
    full_help_external run fuel command fmt timeout max_depth env
    = Some outcome.
Proof.
  destruct command as [|prog0 rest].
  { exists 0, ([], Raise IndexError). done. }
  destruct (probe_total run (prog0 :: rest) timeout max_depth env) as [n Hn].
  destruct (Hn n (le_n n)) as (st & Hst & _).
  exists n. eexists. intros fuel Hfuel. unfold full_help_external.
  unfold probe in *. by rewrite (loop_fuel_mono _ _ _ _ _ _ _ _ _ Hst Hfuel).
Qed.

(** C3: the external prober records and probes no path longer than
    [max_depth]; with [max_depth = 0] the root is its only node. *)
Theorem external_depth_bound
    (run : list str → float → environ → run_result) (command : list str)
    (timeout : float) (max_depth : Z) (env : environ) :
  (∃ n, ∀ fuel, n ≤ fuel →
     ∃ st, probe run command timeout max_depth env fuel = Some st
       ∧ (∀ node, node ∈ nodes st →
            (Z.of_nat (length (path node)) ≤ max_depth)%Z)
       ∧ (∀ p, p ∈ visited_paths st → (Z.of_nat (length p) ≤ max_depth)%Z)
       ∧ spawned st
         = (λ node, (command ++ path node) ++ [lit "--help"]) <$> nodes st)
  ∧ (∃ n, ∀ fuel, n ≤ fuel →
       ∃ st, probe run command timeout 0 env fuel = Some st
         ∧ nodes st = [node_at run command timeout env []]).
Proof.
  split.
  - destruct (probe_total run command timeout max_depth env) as [n Hn].
    exists n. intros fuel Hfuel.
    destruct (Hn fuel Hfuel) as (st & Hst & Hinv & _).
    exists st. split; [done|]. split_and!.
    + intros node Hnode. apply (inv_depth _ _ _ _ _ _ Hinv).
      unfold paths. apply list_elem_of_fmap. eauto.
    + intros p Hp. apply (inv_depth _ _ _ _ _ _ Hinv).
      by apply (inv_visited _ _ _ _ _ _ Hinv).
    + rewrite (inv_spawned _ _ _ _ _ _ Hinv). unfold paths.
      by rewrite <- list_fmap_compose.
  - destruct (probe_total run command timeout 0 env) as [n Hn].
    exists n. intros fuel Hfuel.
    destruct (Hn fuel Hfuel) as (st & Hst & Hinv & Hq).
    exists st. split; [done|].
    destruct (final_root_first _ _ _ _ _ st (Z.le_refl 0) Hinv Hq)
      as [rest Hrest].
    rewrite Hrest. f_equal. destruct rest as [|node rest]; [done|].
    pose proof (inv_nodup _ _ _ _ _ _ Hinv) as Hnd.
    pose proof (inv_depth _ _ _ _ _ _ Hinv (path node)) as Hlen.
    unfold paths in *. rewrite Hrest in *. simpl in *.
    destruct (path node) eqn:Hp.
    + apply NoDup_cons in Hnd as [Hnd _]. exfalso. apply Hnd. by left.
    + simpl in Hlen. assert (path node ∈ [] :: path node :: (path <$> rest))
        as Hin by (right; left).
      rewrite Hp in Hin. specialize (Hlen Hin). lia.
Qed.

(** C10: with an empty command list [full_help_external] raises
    [IndexError] at [command[0]], whatever the other arguments and before
    the first round of the loop: no child process has run, and the list
    of nodes is still empty.  A command that is not empty never meets
    this error. *)
Theorem external_empty_command `{Libraries}
    (run : list str → float → environ → run_result) (fuel : nat) (fmt : str)
    (timeout : float) (max_depth : Z) (env : environ) :
  full_help_external run fuel [] fmt timeout max_depth env
  = Some ([], Raise IndexError)
  ∧ nodes (probe_init []) = []
  ∧ spawned (probe_init []) = []
  ∧ ∀ prog0 args outcome,
      full_help_external run fuel (prog0 :: args) fmt timeout max_depth env
      = Some outcome →
      outcome.2 ≠ Raise IndexError.
Proof.
  split_and!; [done..|]. intros prog0 args outcome. unfold full_help_external.
  destruct (probe _ _ _ _ _ _) as [st|]; [|done].
  destruct (renderers fmt); by intros [= <-].
Qed.

End ExternalClaims.

(** ** The in-process walker *)

Section WalkerSteps.

(** The loops over the registrations queue some of them, in order: those
    whose parser was not seen, once each. *)
Lemma walk_choices_spec node_path choices queue visited :
  ∃ picked,
    picked `sublist_of` choices
    ∧ NoDup picked.*2
    ∧ (∀ i, i ∈ picked.*2 → i ∉ visited)
    ∧ walk_choices node_path choices queue visited
      = (queue ++ (child_node node_path <$> picked),
         list_to_set picked.*2 ∪ visited).
Proof.
  revert queue visited. induction choices as [|[name i] choices IH];
    intros queue visited; simpl.
  - exists []. split_and!; [done|constructor|by intros ? ?%elem_of_nil|].
    simpl. rewrite app_nil_r. f_equal. set_solver.
  - case_bool_decide as Hin.
    + destruct (IH queue visited) as (picked & Hsub & Hnd & Hfresh & ->).
      exists picked. split_and!; [by apply sublist_cons|done..].
    + destruct (IH (queue ++ [child_node node_path (name, i)])
                  ({[i]} ∪ visited)) as (picked & Hsub & Hnd & Hfresh & Heq).
      exists ((name, i) :: picked). split_and!.
      * by apply sublist_skip.
      * simpl. apply NoDup_cons. split; [|done].
        intros Hi. apply Hfresh in Hi. set_solver.
      * intros j [->|Hj]%elem_of_cons; [done|].
        apply Hfresh in Hj. set_solver.
      * unfold child_node in *. simpl in *. rewrite Heq, <- app_assoc. simpl.
        f_equal. set_solver.
Qed.

Lemma walk_actions_spec node_path actions queue visited :
  ∃ picked,
    picked `sublist_of` flat_map choices_of actions
    ∧ NoDup picked.*2
    ∧ (∀ i, i ∈ picked.*2 → i ∉ visited)
    ∧ walk_actions node_path actions queue visited
      = (queue ++ (child_node node_path <$> picked),
         list_to_set picked.*2 ∪ visited).
Proof.
  revert queue visited. induction actions as [|[choices|] actions IH];
    intros queue visited; simpl.
  - exists []. split_and!; [done|constructor|by intros ? ?%elem_of_nil|].
    simpl. rewrite app_nil_r. f_equal. set_solver.
  - destruct (walk_choices_spec node_path choices queue visited)
      as (picked1 & Hsub1 & Hnd1 & Hfresh1 & ->).
    destruct (IH (queue ++ (child_node node_path <$> picked1))
                 (list_to_set picked1.*2 ∪ visited))
      as (picked2 & Hsub2 & Hnd2 & Hfresh2 & ->).
    exists (picked1 ++ picked2). split_and!.
    + by apply sublist_app.
    + rewrite fmap_app. apply NoDup_app. split_and!; [done| |done].
      intros i Hi1 Hi2. apply Hfresh2 in Hi2. set_solver.
    + intros i. rewrite fmap_app, elem_of_app. intros [Hi|Hi]; [by apply Hfresh1|].
      apply Hfresh2 in Hi. set_solver.
    + rewrite !fmap_app, <- app_assoc. f_equal. rewrite list_to_set_app_L.
      set_solver.
  - apply IH.
Qed.

End WalkerSteps.

(** *** The heap under the walker *)

Lemma set_prog_lookup (σ : heap) i v k :
  set_prog σ i v !! k
  = if decide (i = k)
    then (λ p, {| prog := v; description := description p;
                  _actions := _actions p |}) <$> σ !! k
    else σ !! k.
Proof.
  unfold set_prog. destruct (decide (i = k)) as [->|Hne].
  - by rewrite lookup_alter_eq.
  - by rewrite lookup_alter_ne.
Qed.

Lemma set_prog_actions (σ : heap) i v k :
  _actions <$> set_prog σ i v !! k = _actions <$> σ !! k.
Proof.
  rewrite set_prog_lookup. destruct (decide (i = k)); [|done].
  by destruct (σ !! k).
Qed.

Lemma set_prog_twice (σ : heap) i v w :
  set_prog (set_prog σ i v) i w = set_prog σ i w.
Proof.
  apply map_eq. intros k. rewrite !set_prog_lookup.
  destruct (decide (i = k)); [|done]. by destruct (σ !! k).
Qed.

Lemma set_prog_same (σ : heap) i p :
  σ !! i = Some p → set_prog σ i (get_prog p) = σ.
Proof.
  intros Hp. apply map_eq. intros k. rewrite set_prog_lookup.
  destruct (decide (i = k)) as [<-|]; [|done]. rewrite Hp. by destruct p.
Qed.

Lemma elem_of_targets (σ : heap) i :
  i ∈ targets σ ↔ ∃ k p, σ !! k = Some p ∧ i ∈ (all_choices p).*2.
Proof.
  unfold targets. rewrite elem_of_union_list. split.
  - intros (X & HX & Hi). apply list_elem_of_fmap in HX as ([k p] & -> & Hkp).
    apply elem_of_map_to_list in Hkp. apply elem_of_list_to_set in Hi. eauto.
  - intros (k & p & Hkp & Hi). exists (list_to_set (all_choices p).*2). split.
    + apply list_elem_of_fmap. exists (k, p). split; [done|].
      by apply elem_of_map_to_list.
    + by apply elem_of_list_to_set.
Qed.

Lemma size_difference_one (U V : gset positive) x :
  x ∈ U → x ∉ V → size (U ∖ ({[x]} ∪ V)) + 1 = size (U ∖ V).
Proof.
  intros HU HV.
  assert (U ∖ V = {[x]} ∪ U ∖ ({[x]} ∪ V)) as ->.
  { apply set_eq. intros y. destruct (decide (y = x)) as [->|]; set_solver. }
  pose proof (size_union (C:=gset positive) {[x]} (U ∖ ({[x]} ∪ V))) as Hs.
  rewrite Hs by set_solver. rewrite size_singleton. lia.
Qed.

Lemma size_difference_list (U V : gset positive) (l : list positive) :
  NoDup l → (∀ i, i ∈ l → i ∈ U) → (∀ i, i ∈ l → i ∉ V) →
  size (U ∖ (list_to_set l ∪ V)) + length l = size (U ∖ V).
Proof.
  revert V. induction l as [|x l IH]; intros V Hnd HU HV; simpl.
  - f_equal. rewrite Nat.add_0_r. f_equal. set_solver.
  - apply NoDup_cons in Hnd as [Hx Hnd].
    rewrite <- (size_difference_one U V x); [|apply HU; left|apply HV; left].
    rewrite <- (IH ({[x]} ∪ V)); [|done| |].
    + replace ({[x]} ∪ list_to_set l ∪ V) with (list_to_set l ∪ ({[x]} ∪ V))
        by set_solver. lia.
    + intros i Hi. apply HU. by right.
    + intros i Hi. assert (i ∈ x :: l) as Hi' by (by right).
      apply HV in Hi'. assert (i ≠ x) by (by intros ->). set_solver.
Qed.

Section WalkerFacts.
Variable σ0 : heap.
Variable root : positive.

Abbreviation universe := (universe σ0 root).
Abbreviation gen_ok := (gen_ok σ0 root).
Abbreviation walk_measure := (walk_measure σ0 root).

Lemma restore_ok r0 x :
  σ0 !! root = Some r0 → set_prog (set_prog σ0 root x) root (get_prog r0) = σ0.
Proof. intros Hr. rewrite set_prog_twice. by apply set_prog_same. Qed.

Lemma walk_loop_ok σ r0 x queue visited :
  σ0 !! root = Some r0 → σ = set_prog σ0 root x → visited ⊆ universe →
  gen_ok (walk_loop σ root (get_prog r0) queue visited).1.1
         (walk_loop σ root (get_prog r0) queue visited).1.2.
Proof.
  intros Hr -> Hv. destruct queue as [|node rest]; simpl.
  - by apply restore_ok.
  - split_and!; [done| |done]. exists r0, x. done.
Qed.

(** What one resumption does to a suspended walker. *)
Lemma expand_spec σ node x p queue visited :
  σ = set_prog σ0 root x → node_parser σ node = Some p → visited ⊆ universe →
  ∃ picked,
    picked `sublist_of` all_choices p
    ∧ NoDup picked.*2
    ∧ (∀ i, i ∈ picked.*2 → (i ∉ visited) ∧ (i ∈ universe))
    ∧ walk_actions (path node) (_actions p) queue visited
      = (queue ++ (child_node (path node) <$> picked),
         list_to_set picked.*2 ∪ visited).
Proof.
  intros -> Hp Hv.
  destruct (walk_actions_spec (path node) (_actions p) queue visited)
    as (picked & Hsub & Hnd & Hfresh & Heq).
  exists picked. split_and!; [done..| |done].
  intros i Hi. split; [by apply Hfresh|].
  unfold node_parser in Hp. destruct (parser node) as [k|]; [|done].
  pose proof (set_prog_actions σ0 root x k) as Hact. rewrite Hp in Hact.
  destruct (σ0 !! k) as [p0|] eqn:Hk; [|done]. injection Hact as Hact.
  unfold universe. apply elem_of_union_r, elem_of_targets.
  exists k, p0. split; [done|].
  unfold all_choices. rewrite <- Hact.
  eapply (sublist_subseteq (A := positive)); [|done].
  by apply fmap_sublist.
Qed.

Lemma gen_next_ok σ g :
  gen_ok σ g → gen_ok (gen_next σ g).1.1 (gen_next σ g).1.2.
Proof.
  destruct g as [r prog0|r orig node queue visited|]; simpl.
  - intros [-> ->]. destruct (σ0 !! root) as [r0|] eqn:Hr; [|done].
    assert (∃ x, match prog0 with
                 | Some (c :: p) => set_prog σ0 root (c :: p)
                 | _ => σ0
                 end = set_prog σ0 root x) as [x ->].
    { destruct prog0 as [[|c p]|]; eauto;
        exists (get_prog r0); by rewrite set_prog_same. }
    simpl. split_and!; [done|by exists r0, x|].
    unfold universe. set_solver.
  - intros (-> & (r0 & x & Hr & -> & Hσ) & Hv).
    destruct (node_parser σ node) as [p|] eqn:Hp; simpl.
    + destruct (expand_spec σ node x p queue visited Hσ Hp Hv)
        as (picked & _ & _ & Hfresh & ->).
      apply (walk_loop_ok _ r0 x); [done..|].
      intros i [Hi|Hi]%elem_of_union; [|by apply Hv].
      apply elem_of_list_to_set in Hi. by apply Hfresh.
    + subst σ. by apply restore_ok.
  - done.
Qed.

Lemma gen_close_ok σ g :
  gen_ok σ g → (gen_close σ g).1 = σ0 ∧ (gen_close σ g).2 = GenFinished.
Proof.
  destruct g as [r prog0|r orig node queue visited|]; simpl.
  - by intros [_ ->].
  - intros (-> & (r0 & x & Hr & -> & ->) & _). split; [|done].
    by apply restore_ok.
  - done.
Qed.

Lemma gen_next_measure σ g node :
  gen_ok σ g → (gen_next σ g).2 = Yield node →
  S (walk_measure (gen_next σ g).1.2) = walk_measure g.
Proof.
  destruct g as [r prog0|r orig n queue visited|]; simpl.
  - intros [-> ->]. destruct (σ0 !! root) as [r0|] eqn:Hr; [|done]. simpl.
    intros _. rewrite Nat.add_0_r.
    replace ({[root]} : gset positive) with ({[root]} ∪ ∅ : gset positive)
      by set_solver.
    pose proof (size_difference_one universe ∅ root) as Hs.
    replace (universe ∖ ∅) with universe in Hs by set_solver.
    rewrite <- Hs; [lia|unfold universe; set_solver|set_solver].
  - intros (-> & (r0 & x & Hr & -> & Hσ) & Hv).
    destruct (node_parser σ n) as [p|] eqn:Hp; simpl; [|done].
    destruct (expand_spec σ n x p queue visited Hσ Hp Hv)
      as (picked & _ & Hnd & Hfresh & ->).
    destruct (queue ++ _) as [|m rest] eqn:Hq; simpl; [done|]. intros _.
    apply (f_equal length) in Hq. rewrite length_app, length_fmap in Hq.
    simpl in Hq.
    rewrite <- (size_difference_list universe visited picked.*2 Hnd);
      [|intros i Hi; by apply Hfresh..].
    rewrite length_fmap. lia.
  - done.
Qed.

(** [list(gen)] ends, and leaves the heap of the call. *)
Lemma list_of_gen_total fuel σ g acc :
  gen_ok σ g → walk_measure g < fuel →
  ∃ r, list_of_gen fuel σ g acc = Some (σ0, r).
Proof.
  revert σ g acc. induction fuel as [|fuel IH]; intros σ g acc Hok Hm; [lia|].
  simpl. pose proof (gen_next_ok σ g Hok) as Hok'.
  pose proof (gen_next_measure σ g) as Hdec.
  destruct (gen_next σ g) as [[σ' g'] [node| |e]] eqn:Hnext; simpl in *.
  - apply IH; [done|]. specialize (Hdec node Hok eq_refl). lia.
  - exists (Return acc). f_equal. f_equal.
    destruct g as [r prog0|r orig n queue visited|]; simpl in *.
    + destruct Hok as [-> ->]. destruct (σ0 !! root); [|done].
      simpl in Hnext. by injection Hnext as <- <-.
    + destruct (node_parser σ n); [|by injection Hnext].
      destruct (walk_actions _ _ _ _) as [[|m rest] v];
        simpl in Hnext; [|done]. by injection Hnext as <- <-.
    + by injection Hnext as <- <-.
  - exists (Raise e). f_equal. f_equal.
    destruct g as [r prog0|r orig n queue visited|]; simpl in *.
    + destruct Hok as [-> ->]. destruct (σ0 !! root); [|by injection Hnext].
      simpl in Hnext. done.
    + destruct (node_parser σ n); [|by injection Hnext as <- <-].
      destruct (walk_actions _ _ _ _) as [[|m rest] v]; simpl in Hnext; done.
    + done.
Qed.

End WalkerFacts.

Lemma gen_apply_ok σ0 root s op :
  gen_ok σ0 root s.1 s.2 →
  gen_ok σ0 root (gen_apply s op).1 (gen_apply s op).2.
Proof.
  intros Hok. destruct op as [| |e]; simpl.
  - by apply gen_next_ok.
  - destruct (gen_close_ok σ0 root _ _ Hok) as [-> ->]. done.
  - by destruct (gen_close_ok σ0 root _ _ Hok) as [-> _].
Qed.

Lemma gen_run_ok σ0 root s ops :
  gen_ok σ0 root s.1 s.2 →
  gen_ok σ0 root (foldl gen_apply s ops).1 (foldl gen_apply s ops).2.
Proof.
  revert s. induction ops as [|op ops IH]; intros s Hok; [done|].
  simpl. apply IH. by apply gen_apply_ok.
Qed.

Section WalkerClaims.
Context `{UnicodeDB} `{Libraries}.

(** C9: the walker leaves the heap as it found it, the program name of
    the root included, however the traversal ends: exhausted, closed or
    abandoned at any point, or left by an exception (one thrown into it,
    or the one an object without [_actions] causes).  [list] of the
    walker and [full_help_from_parser] end with the heap of the call,
    whatever they return or raise. *)
Theorem walker_restores_prog (tty : terminal) (σ : heap) (root : positive)
    (prog0 : option str) :
  (∀ ops, (gen_run σ (_walk_parser_tree root prog0) ops).2 = GenFinished →
          (gen_run σ (_walk_parser_tree root prog0) ops).1 = σ)
  ∧ (∀ ops, gen_run σ (_walk_parser_tree root prog0) (ops ++ [OpClose])
            = (σ, GenFinished))
  ∧ (∀ ops e, gen_run σ (_walk_parser_tree root prog0) (ops ++ [OpThrow e])
              = (σ, GenFinished))
  ∧ (∃ n, ∀ fuel, n ≤ fuel →
       ∃ r, list_of_gen fuel σ (_walk_parser_tree root prog0) []
            = Some (σ, r))
  ∧ (∀ fmt use_rich, ∃ n, ∀ fuel, n ≤ fuel →
       ∃ printed r,
         full_help_from_parser tty fuel σ root prog0 fmt use_rich
         = Some (σ, printed, r)).
Proof.
  assert (∀ p, gen_ok σ root σ (_walk_parser_tree root p)) as Hinit by done.
  split_and!.
  - intros ops Hfin.
    pose proof (gen_run_ok σ root (σ, _walk_parser_tree root prog0) ops
                  (Hinit _)) as Hok.
    unfold gen_run in *. by rewrite Hfin in Hok.
  - intros ops. unfold gen_run. rewrite foldl_app. simpl.
    pose proof (gen_run_ok σ root (σ, _walk_parser_tree root prog0) ops
                  (Hinit _)) as Hok.
    destruct (gen_close_ok σ root _ _ Hok) as [Hheap Hgen].
    destruct (gen_close _ _). simpl in *. by subst.
  - intros ops e. unfold gen_run. rewrite foldl_app. simpl.
    pose proof (gen_run_ok σ root (σ, _walk_parser_tree root prog0) ops
                  (Hinit _)) as Hok.
    destruct (gen_close_ok σ root _ _ Hok) as [Hheap Hgen]. by f_equal.
  - exists (S (size (universe σ root))). intros fuel Hfuel.
    apply (list_of_gen_total σ root); [done|]. simpl. lia.
  - intros fmt use_rich. exists (S (size (universe σ root))).
    intros fuel Hfuel. unfold full_help_from_parser.
    destruct (match prog0 with
              | Some (c :: p) => Return (c :: p)
              | _ => match σ !! root with
                     | Some root0 => Return (get_prog root0)
                     | None => Raise AttributeError
                     end
              end) as [program_name|e]; [|by eauto].
    destruct (list_of_gen_total σ root fuel σ
                (_walk_parser_tree root (Some program_name)) [] (Hinit _))
      as [r ->]; [simpl; lia|].
    destruct r as [nodes0|e]; [|by eauto].
    destruct (renderers fmt); eauto.
Qed.

End WalkerClaims.

(** *** The paths of a walk *)

Section WalkerPaths.
Variable σ0 : heap.
Variable root : positive.
Hypothesis Hnames : distinct_names σ0.

Abbreviation root_node := (root_node root).
Abbreviation paths_ok := (paths_ok root).
Abbreviation acc_ok := (acc_ok root).

Lemma paths_ok_expand done node queue p picked m rest :
  paths_ok done node queue →
  NoDup (all_choices p).*1 →
  picked `sublist_of` all_choices p →
  queue ++ (child_node (path node) <$> picked) = m :: rest →
  paths_ok (done ++ [node]) m rest.
Proof.
  intros [Hnd Hpar [tl Hroot]] Hnames_p Hsub Hq.
  assert ((done ++ [node]) ++ m :: rest
          = (done ++ node :: queue) ++ (child_node (path node) <$> picked))
    as Hlist.
  { rewrite <- Hq, <- !app_assoc. done. }
  assert (path node ∉ path <$> done) as Hnode.
  { rewrite fmap_app, fmap_cons in Hnd. apply NoDup_app in Hnd as (_ & Hd & _).
    intros Hin. apply (Hd _ Hin). left. }
  split.
  - rewrite Hlist, fmap_app. apply NoDup_app. split_and!; [done| |].
    + intros pth Hold Hnew.
      apply list_elem_of_fmap in Hnew as (c & -> & Hc).
      apply list_elem_of_fmap in Hc as (c0 & -> & Hc0). simpl in Hold.
      apply list_elem_of_fmap in Hold as (m' & Heq & Hm').
      destruct (Hpar m' Hm') as [Hnil|(p0 & x & Hp & Hp0)].
      * rewrite Hnil in Heq. by apply app_eq_nil in Heq as [_ ?].
      * rewrite Hp in Heq. apply app_inj_tail in Heq as [Heq _].
        by rewrite Heq in Hnode.
    + rewrite <- list_fmap_compose.
      replace (path ∘ child_node (path node))
        with ((λ x, path node ++ [x]) ∘ (fst : str * positive → str)) by done.
      rewrite list_fmap_compose. apply NoDup_fmap_2.
      * intros x y Hxy. by apply app_inj_tail in Hxy as [_ ->].
      * apply (sublist_NoDup _ (all_choices p).*1); [done|].
        by apply (fmap_sublist fst).
  - intros m'. rewrite Hlist, elem_of_app. intros [Hold|Hnew].
    + destruct (Hpar m' Hold) as [?|(p0 & x & Hp & Hp0)]; [by left|right].
      exists p0, x. split; [done|]. rewrite fmap_app, elem_of_app. by left.
    + apply list_elem_of_fmap in Hnew as (c & -> & Hc). right.
      exists (path node), c.1. split; [done|].
      rewrite fmap_app, elem_of_app. right. left.
  - rewrite Hlist, Hroot. simpl. eauto.
Qed.

Lemma node_parser_names σ x node p :
  σ = set_prog σ0 root x → node_parser σ node = Some p →
  NoDup (all_choices p).*1.
Proof.
  intros -> Hp. unfold node_parser in Hp.
  destruct (parser node) as [k|]; [|done].
  pose proof (set_prog_actions σ0 root x k) as Hact. rewrite Hp in Hact.
  destruct (σ0 !! k) as [p0|] eqn:Hk; [|done]. injection Hact as Hact.
  unfold all_choices. rewrite Hact. by apply (Hnames k p0).
Qed.

Lemma gen_next_acc σ g acc node :
  gen_ok σ0 root σ g → acc_ok acc g → (gen_next σ g).2 = Yield node →
  acc_ok (acc ++ [node]) (gen_next σ g).1.2.
Proof.
  destruct g as [r prog0|r orig n queue visited|]; simpl; [| |done].
  - intros [-> ->] ->. destruct (σ0 !! root) as [r0|]; [|done]. simpl.
    intros [= <-]. exists []. split; [done|]. split; simpl.
    + apply NoDup_singleton.
    + intros m ->%list_elem_of_singleton. by left.
    + by exists [].
  - intros (-> & (r0 & x & Hr & -> & Hσ) & Hv) (done & -> & Hpaths).
    destruct (node_parser σ n) as [p|] eqn:Hp; simpl; [|done].
    destruct (expand_spec σ0 root σ n x p queue visited Hσ Hp Hv)
      as (picked & Hsub & _ & _ & ->).
    destruct (queue ++ _) as [|m rest] eqn:Hq; simpl; [done|].
    intros [= <-]. exists (done ++ [n]). split; [done|].
    eapply paths_ok_expand; [done| |done..].
    by eapply node_parser_names.
Qed.

Lemma gen_next_stop σ g acc :
  gen_ok σ0 root σ g → acc_ok acc g → (gen_next σ g).2 = StopIteration →
  NoDup (path <$> acc) ∧ ∃ rest, acc = root_node :: rest.
Proof.
  destruct g as [r prog0|r orig n queue visited|]; simpl; [| |done].
  - intros [-> ->] _. by destruct (σ0 !! root).
  - intros (-> & (r0 & x & Hr & -> & Hσ) & Hv) (done & -> & Hpaths).
    destruct (node_parser σ n) as [p|] eqn:Hp; simpl; [|done].
    destruct (expand_spec σ0 root σ n x p queue visited Hσ Hp Hv)
      as (picked & Hsub & _ & _ & ->).
    destruct (queue ++ _) as [|m rest] eqn:Hq; simpl; [|done]. intros _.
    apply app_eq_nil in Hq as [-> _].
    destruct Hpaths as [Hnd _ Hroot]. done.
Qed.

Lemma list_of_gen_paths fuel σ g acc σ' nodes0 :
  gen_ok σ0 root σ g → acc_ok acc g →
  list_of_gen fuel σ g acc = Some (σ', Return nodes0) →
  NoDup (path <$> nodes0) ∧ ∃ rest, nodes0 = root_node :: rest.
Proof.
  revert σ g acc. induction fuel as [|fuel IH]; intros σ g acc Hok Hacc; [done|].
  simpl. pose proof (gen_next_ok σ0 root σ g Hok) as Hok'.
  pose proof (gen_next_acc σ g acc) as Hyield.
  pose proof (gen_next_stop σ g acc Hok Hacc) as Hstop.
  destruct (gen_next σ g) as [[σ1 g1] [node| |e]]; simpl in *; [| |done].
  - apply IH; [done|]. by apply Hyield.
  - intros [= <- <-]. by apply Hstop.
Qed.

End WalkerPaths.

(** ** The root in the documents *)

Section RootFirst.
Context `{UnicodeDB} `{Libraries}.

Lemma join_cons2 sep (x y : str) l :
  join sep (x :: y :: l) = x ++ sep ++ join sep (y :: l).
Proof. done. Qed.

Lemma root_rendered_first σ node rest prog0 :
  path node = [] → rendered_root_first σ (node :: rest) prog0.
Proof.
  intros Hroot. unfold rendered_root_first. split_and!.
  - unfold _render_text. cbn [text_output app]. rewrite join_cons2.
    unfold text_title, path_str. rewrite Hroot. cbn [join].
    eexists. rewrite <- !app_assoc. reflexivity.
  - unfold _render_md. cbn [flat_map md_section app]. rewrite !join_cons2.
    unfold md_heading, md_level, path_str, len. rewrite Hroot. cbn [join].
    change (replicate _ _) with (lit "##").
    eexists. rewrite <- !app_assoc. reflexivity.
  - unfold html_toc. cbn [map app concat].
    unfold html_toc_item at 1. unfold html_anchor, path_str, len.
    rewrite Hroot. change (str_of_N (_ * 20)) with (lit "0").
    eexists. rewrite <- !app_assoc. reflexivity.
  - unfold html_body. cbn [flat_map html_body_parts app concat].
    unfold html_heading, html_heading_level, html_anchor, len. rewrite Hroot.
    change (str_of_N (N.min _ 6)) with (lit "2").
    eexists. rewrite <- !app_assoc. reflexivity.
Qed.

End RootFirst.

(** ** Discovery runs *)

Lemma root_count_one node rest :
  path node = [] → NoDup (path <$> node :: rest) → root_count (node :: rest) = 1.
Proof.
  intros Hroot Hnd. unfold root_count. rewrite filter_cons_True by done.
  simpl. f_equal. rewrite fmap_cons, Hroot in Hnd.
  apply NoDup_cons in Hnd as [Hnot _].
  induction rest as [|m rest IH]; [done|].
  rewrite fmap_cons, not_elem_of_cons in Hnot. destruct Hnot as [Hm Hrest].
  rewrite filter_cons_False by done. by apply IH.
Qed.

Section DiscoveryClaims.
Context `{UnicodeDB} `{Libraries}.

(** C1, as amended: in a run of the external prober with a depth bound
    that is not negative, and in a run of the in-process walker over
    parsers whose registered names are distinct on each parser, the paths
    of the nodes are distinct, the root with the empty path is the first
    node and the only one with that path, and the documents start with
    it. *)
Theorem discovery_paths_unique
    (run : list str → float → environ → run_result) (command : list str)
    (timeout : float) (max_depth : Z) (env : environ)
    (σ : heap) (root : positive) (prog0 : option str) :
  (0 ≤ max_depth)%Z →
  distinct_names σ →
  (∃ n, ∀ fuel, n ≤ fuel →
     ∃ st rest,
       probe run command timeout max_depth env fuel = Some st
       ∧ NoDup (path <$> nodes st)
       ∧ nodes st = node_at run command timeout env [] :: rest
       ∧ root_count (nodes st) = 1
       ∧ ∀ name, rendered_root_first ∅ (nodes st) name)
  ∧ (∃ n, ∀ fuel, n ≤ fuel →
       ∃ r, list_of_gen fuel σ (_walk_parser_tree root prog0) [] = Some (σ, r)
         ∧ ∀ nodes0, r = Return nodes0 →
             NoDup (path <$> nodes0)
             ∧ (∃ rest, nodes0 = root_node root :: rest)
             ∧ root_count nodes0 = 1
             ∧ ∀ name, rendered_root_first σ nodes0 name).
Proof.
  intros Hdepth Hnames. split.
  - destruct (probe_total run command timeout max_depth env) as [n Hn].
    exists n. intros fuel Hfuel.
    destruct (Hn fuel Hfuel) as (st & Hst & Hinv & Hq).
    destruct (final_root_first _ _ _ _ _ st Hdepth Hinv Hq) as [rest Hrest].
    pose proof (inv_nodup _ _ _ _ _ _ Hinv) as Hnd. unfold paths in Hnd.
    exists st, rest. split_and!; [done..| |].
    + rewrite Hrest in *. by apply root_count_one.
    + intros name. rewrite Hrest. by apply root_rendered_first.
  - exists (S (size (universe σ root))). intros fuel Hfuel.
    destruct (list_of_gen_total σ root fuel σ (_walk_parser_tree root prog0) [])
      as [r Hr]; [done|simpl; lia|].
    exists r. split; [done|]. intros nodes0 ->.
    destruct (list_of_gen_paths σ root Hnames fuel σ
                (_walk_parser_tree root prog0) [] σ nodes0)
      as [Hnd [rest ->]]; [done..|].
    split_and!; [done|by eexists| |].
    + by apply root_count_one.
    + intros name. by apply root_rendered_first.
Qed.

End DiscoveryClaims.

(** The walk over the parser of the tests, and a probe of [pip] at the
    default depth. *)
Lemma discovery_paths_unique_witness :
  (∃ n, ∀ fuel, n ≤ fuel →
     ∃ st rest,
       @probe ascii_db pip_run [lit "pip"] (lit "5.0") 4 None fuel = Some st
       ∧ NoDup (path <$> nodes st)
       ∧ nodes st
         = @node_at ascii_db pip_run [lit "pip"] (lit "5.0") None [] :: rest
       ∧ root_count (nodes st) = 1
       ∧ ∀ name,
           @rendered_root_first ascii_db sample_libraries ∅ (nodes st) name)
  ∧ (∃ n, ∀ fuel, n ≤ fuel →
       ∃ r, list_of_gen fuel complex_parser (_walk_parser_tree 1 None) []
            = Some (complex_parser, r)
         ∧ ∀ nodes0, r = Return nodes0 →
             NoDup (path <$> nodes0)
             ∧ (∃ rest, nodes0 = root_node 1 :: rest)
             ∧ root_count nodes0 = 1
             ∧ ∀ name,
                 @rendered_root_first ascii_db sample_libraries
                   complex_parser nodes0 name).
Proof.
  apply (@discovery_paths_unique ascii_db sample_libraries pip_run
           [lit "pip"] (lit "5.0") 4 None complex_parser 1 None).
  - lia.
  - unfold distinct_names, complex_parser.
    repeat (apply map_Forall_insert_2; [repeat constructor; set_solver|]).
    apply map_Forall_empty.
Defined.

(** C1, as stated, fails twice: with a negative depth bound the prober
    drops the root and yields no node at all, and a parser that holds two
    subparsers actions naming [foo] makes the walker yield two nodes with
    the path [foo]. *)
Lemma discovery_root_missing_or_path_repeated :
  nodes <$> @probe ascii_db pip_run [lit "pip"] (lit "5.0") (-1) None 1
  = Some []
  ∧ snd <$> list_of_gen 4 two_parents (_walk_parser_tree 1 None) []
    = Some (Return [ {| path := []; parser := ParserAt 1 |};
                     {| path := [lit "foo"]; parser := ParserAt 2 |};
                     {| path := [lit "foo"]; parser := ParserAt 3 |} ]).
Proof. split; vm_compute; reflexivity. Qed.

(** ** The order of the extracted names *)

Section ExtractorOrder.
Context `{UnicodeDB}.

Local Arguments lit : simpl never.
Local Arguments ci_prefix : simpl never.
Local Arguments header_at : simpl never.
Local Arguments strip : simpl never.

Lemma sublist_rev (s1 s2 : str) :
  s1 `sublist_of` s2 → rev s1 `sublist_of` rev s2.
Proof.
  induction 1 as [|x l1 l2 _ IH|x l1 l2 _ IH]; simpl; [done| |].
  - by apply sublist_app.
  - by apply sublist_inserts_r.
Qed.

Lemma sublist_filter_mono (P : N → Prop) `{!∀ c, Decision (P c)} (s1 s2 : str) :
  s1 `sublist_of` s2 → filter P s1 `sublist_of` filter P s2.
Proof.
  induction 1 as [|x l1 l2 _ IH|x l1 l2 _ IH]; [done| |].
  - rewrite !filter_cons. destruct (decide (P x)); [by apply sublist_skip|done].
  - rewrite filter_cons. destruct (decide (P x)); [by apply sublist_cons|done].
Qed.

Lemma filter_all (P : N → Prop) `{!∀ c, Decision (P c)} (s : str) :
  Forall P s → filter P s = s.
Proof.
  induction 1 as [|c s Hc _ IH]; [done|].
  rewrite filter_cons_True by done. by rewrite IH.
Qed.

Lemma drop_while_sublist f (s : str) : drop_while f s `sublist_of` s.
Proof.
  induction s as [|c s IH]; simpl; [done|].
  destruct (f c); [by apply sublist_cons|done].
Qed.

Lemma take_while_sublist f (s : str) : take_while f s `sublist_of` s.
Proof.
  induction s as [|c s IH]; simpl; [done|].
  destruct (f c); [by apply sublist_skip|apply sublist_nil_l].
Qed.

Lemma take_while_Forall f (s : str) : Forall (λ c, f c = true) (take_while f s).
Proof.
  induction s as [|c s IH]; simpl; [done|].
  destruct (f c) eqn:Hc; [by constructor|done].
Qed.

Lemma strip_sublist (s : str) : strip s `sublist_of` s.
Proof.
  unfold strip. etrans; [apply sublist_rev, drop_while_sublist|].
  rewrite rev_involutive. apply drop_while_sublist.
Qed.

Lemma concat_strip_sublist (l : list str) :
  concat (strip <$> l) `sublist_of` concat l.
Proof.
  induction l as [|s l IH]; [done|]. rewrite fmap_cons. simpl.
  apply sublist_app; [apply strip_sublist|done].
Qed.

Lemma split_on_sublist d (cur s : str) :
  concat (split_on d cur s) `sublist_of` cur ++ s.
Proof.
  revert cur. induction s as [|c s IH]; intros cur; simpl.
  - by rewrite app_nil_r.
  - destruct (c =? d)%N; simpl.
    + apply sublist_app; [done|]. apply sublist_cons. apply (IH []).
    + etrans; [apply IH|]. by rewrite <- app_assoc.
Qed.

Lemma split_ws_sublist (cur s : str) :
  concat (split_ws cur s) `sublist_of` cur ++ s.
Proof.
  revert cur. induction s as [|c s IH]; intros cur; simpl.
  - destruct cur; simpl; by rewrite ?app_nil_r.
  - destruct (isspace c).
    + destruct cur as [|a cur]; simpl.
      * apply sublist_cons. apply (IH []).
      * apply sublist_skip, sublist_app; [done|].
        apply sublist_cons. apply (IH []).
    + etrans; [apply IH|]. by rewrite <- app_assoc.
Qed.

(** Joining with spaces adds nothing but spaces. *)
Lemma join_space_cons (x : str) (ws : list str) :
  filter (λ c, c ≠ 32%N) (join (lit " ") (x :: ws))
  = filter (λ c, c ≠ 32%N) x ++ filter (λ c, c ≠ 32%N) (join (lit " ") ws).
Proof.
  destruct ws as [|y ws].
  - cbn [join]. by rewrite app_nil_r.
  - change (join (lit " ") (x :: y :: ws))
      with (x ++ lit " " ++ join (lit " ") (y :: ws)).
    by rewrite !filter_app.
Qed.

Lemma join_space_filter (ws : list str) :
  filter (λ c, c ≠ 32%N) (join (lit " ") ws)
  = filter (λ c, c ≠ 32%N) (concat ws).
Proof.
  induction ws as [|x ws IH]; [done|].
  rewrite join_space_cons, IH. simpl. by rewrite filter_app.
Qed.

Lemma ischoice_not_space c : ischoice c = true → c ≠ 32%N.
Proof. intros Hc ->. vm_compute in Hc. discriminate. Qed.

Lemma sub_optionals_sublist inside (s : str) :
  sub_optionals inside s `sublist_of` s.
Proof.
  revert inside. induction s as [|c s IH]; intros inside; simpl; [done|].
  destruct inside; [by apply sublist_cons|].
  destruct ((c =? 91)%N && closes_bracket s);
    [by apply sublist_cons|by apply sublist_skip].
Qed.

Lemma search_choices_spec (s g : str) :
  search_choices s = Some g →
  g `sublist_of` s ∧ Forall (λ c, c ≠ 32%N) g.
Proof.
  induction s as [|c s IH]; simpl; [done|].
  destruct (_ && _ && _).
  - intros [= <-]. split.
    + apply sublist_cons, take_while_sublist.
    + eapply Forall_impl; [apply take_while_Forall|].
      intros a. apply ischoice_not_space.
  - intros Hg. destruct (IH Hg). split; [by apply sublist_cons|done].
Qed.

Lemma ci_prefix_drop (p s rest : str) :
  ci_prefix p s = Some rest → rest = drop (length p) s.
Proof.
  revert s. induction p as [|a p IH]; intros [|b s]; try done.
  - by intros [= <-].
  - by intros [= <-].
  - change (ci_prefix (a :: p) (b :: s))
      with (if ci_char a b then ci_prefix p s else None).
    destruct (ci_char a b); [apply IH|done].
Qed.

Lemma lazy_until_blank_sublist (s : str) : lazy_until_blank s `sublist_of` s.
Proof.
  induction s as [|c s IH]; [done|]. cbn -[starts_with].
  destruct (starts_with _ _); [apply sublist_nil_l|by apply sublist_skip].
Qed.

Lemma search_usage_block_sublist bol (s block : str) :
  search_usage_block bol s = Some block → block `sublist_of` s.
Proof.
  revert bol. induction s as [|c s IH]; intros bol.
  - cbn. destruct bol; cbn; done.
  - cbn -[take]. destruct (if bol then _ else _) as [rest|] eqn:Hprefix.
    + intros [= <-]. destruct bol; [|done].
      apply ci_prefix_drop in Hprefix. subst rest.
      change (length (lit "usage:")) with 6.
      change (drop 6 (c :: s)) with (drop 5 s). apply sublist_skip.
      etrans; [apply sublist_app; [done|apply lazy_until_blank_sublist]|].
      by rewrite take_drop.
    + intros Hb. apply sublist_cons. by eapply IH.
Qed.

Lemma usage_choices_sublist (text g : str) :
  usage_choices text = Some g → g `sublist_of` text.
Proof.
  unfold usage_choices.
  destruct (search_usage_block true text) as [block|] eqn:Hblock; [|done].
  intros [Hsub Hns]%search_choices_spec.
  rewrite <- (filter_all (λ c, c ≠ 32%N) g Hns).
  etrans; [apply sublist_filter_mono; etrans;
             [done|apply sub_optionals_sublist]|].
  rewrite join_space_filter.
  etrans; [apply sublist_filter|].
  etrans; [apply (split_ws_sublist [])|].
  by eapply search_usage_block_sublist.
Qed.

Lemma name_run_sublist (s g : str) : name_run s = Some g → g `sublist_of` s.
Proof.
  unfold name_run. pose proof (take_while_sublist isname s) as Hsub.
  destruct (take_while isname s); [done|]. by intros [= <-].
Qed.

Lemma after_space_sublist (s g : str) : after_space s = Some g → g `sublist_of` s.
Proof.
  induction s as [|c s IH]; [done|]. cbn -[name_run].
  destruct (isspace c); [|apply name_run_sublist].
  destruct (after_space s) as [g'|].
  - intros [= <-]. by apply sublist_cons, IH.
  - apply name_run_sublist.
Qed.

Lemma scan_line_sublist sec (line : str) :
  concat (scan_line sec line).2 `sublist_of` line.
Proof.
  unfold scan_line. repeat case_match; simpl; try apply sublist_nil_l.
  rewrite app_nil_r. subst.
  unfold match_indented in *. destruct line as [|c s]; [done|].
  destruct (isspace c); [|done]. by apply sublist_cons, after_space_sublist.
Qed.

Lemma scan_lines_sublist sec (lines : list str) :
  concat (scan_lines sec lines) `sublist_of` concat lines.
Proof.
  revert sec. induction lines as [|line rest IH]; intros sec; [done|].
  cbn [scan_lines]. pose proof (scan_line_sublist sec line) as Hline.
  destruct (scan_line sec line) as [sec' found]. rewrite concat_app. simpl.
  by apply sublist_app.
Qed.

Lemma splitlines_sublist after_cr (cur s : str) :
  concat (splitlines_from after_cr cur s) `sublist_of` cur ++ s.
Proof.
  revert after_cr cur. induction s as [|c s IH]; intros after_cr cur; simpl.
  - destruct cur; simpl; by rewrite ?app_nil_r.
  - destruct (after_cr && (c =? 10)%N).
    + apply sublist_inserts_l, sublist_cons, (IH false []).
    + destruct (is_linebreak c); simpl.
      * apply sublist_app; [done|]. apply sublist_cons, (IH _ []).
      * etrans; [apply IH|]. by rewrite <- app_assoc.
Qed.

(** The extractor keeps the names in the order in which the text holds
    them, each at a place of its own: the names in a row are a
    subsequence of the text. *)
Lemma find_subcommands_sublist (text : str) :
  concat (_find_subcommands_from_help text) `sublist_of` text.
Proof.
  unfold _find_subcommands_from_help.
  destruct (usage_choices text) as [g|] eqn:Hg.
  - etrans; [apply concat_strip_sublist|].
    etrans; [apply (split_on_sublist _ [])|]. by apply usage_choices_sublist.
  - unfold section_commands.
    destruct (header_search true text); [|apply sublist_nil_l].
    etrans; [apply scan_lines_sublist|]. apply (splitlines_sublist false []).
Qed.

End ExtractorOrder.

(** C5, as stated, fails for both strategies: a name listed twice in a
    labeled section, or twice in the brace group of the usage line, is
    returned twice. *)
Lemma extractor_returns_duplicates :
  @_find_subcommands_from_help ascii_db
     (lit "Commands:" ++ NL ++ lit "  build   Build an image" ++ NL
      ++ lit "  build   Build it again")
  = [lit "build"; lit "build"]
  ∧ @_find_subcommands_from_help ascii_db (lit "usage: tool {run,run}")
    = [lit "run"; lit "run"].
Proof. split; vm_compute; reflexivity. Qed.

(** ** Heading levels *)

Section Headings.
Context `{UnicodeDB} `{Libraries}.

(** C6: [_render_md] gives a node five tokens deep a heading of seven
    marks, one more than Markdown has levels, where [_render_html] stops
    at six for the same node. *)
Theorem md_heading_exceeds_six :
  let deep :=
    {| path := [lit "a"; lit "b"; lit "c"; lit "d"; lit "e"];
       parser := _HelpOnlyParser (lit "usage: cli a b c d e")
                   (lit "cli a b c d e") |} in
  _render_md ∅ [deep] (lit "cli")
  = lit "# Help for `cli`" ++ NL ++ NL
    ++ lit "####### `cli a b c d e`" ++ NL ++ NL
    ++ lit "```text" ++ NL
    ++ lit "usage: cli a b c d e" ++ NL
    ++ lit "```" ++ NL
  ∧ md_level deep = 7%N
  ∧ html_heading_level deep = 6%N.
Proof. split_and!; vm_compute; reflexivity. Qed.

End Headings.

(** ** Unsupported formats *)

Section Formats.
Context `{UnicodeDB} `{Libraries}.

Lemma renderers_unsupported (fmt : str) :
  fmt ∉ [lit "text"; lit "md"; lit "html"] → renderers fmt = None.
Proof.
  intros Hfmt. unfold renderers.
  repeat case_bool_decide; subst; try done;
    exfalso; apply Hfmt; set_solver.
Qed.

End Formats.

(** ** Placeholders of failed probes *)

Section Placeholders.
Context `{UnicodeDB} `{Libraries}.

Lemma renderers_supported (fmt : str) :
  fmt ∈ [lit "text"; lit "md"; lit "html"] → is_Some (renderers fmt).
Proof.
  intros Hfmt. unfold renderers. repeat case_bool_decide; try by eexists.
  set_solver.
Qed.

(** Without a line feed no line starts inside a text. *)
Lemma no_line_start (s : str) :
  10%N ∉ s →
  search_usage_block false s = None ∧ header_search false s = false.
Proof.
  induction s as [|c s IH]; [done|].
  intros [Hc Hs]%not_elem_of_cons. destruct (IH Hs) as [IH1 IH2].
  assert ((c =? 10)%N = false) as Hc' by (apply N.eqb_neq; congruence).
  split.
  - change (search_usage_block false (c :: s))
      with (search_usage_block (c =? 10)%N s). by rewrite Hc'.
  - change (header_search false (c :: s))
      with (header_search (c =? 10)%N s). by rewrite Hc'.
Qed.

(** A single line that opens with a bracket names no subcommand. *)
Lemma extract_bracket_line (rest : str) :
  10%N ∉ rest → _find_subcommands_from_help (91%N :: rest) = [].
Proof.
  intros [Husage Hheader]%no_line_start.
  unfold _find_subcommands_from_help, usage_choices, section_commands.
  assert (search_usage_block true (91%N :: rest) = None) as ->.
  { change (search_usage_block true (91%N :: rest))
      with (match ci_prefix (lit "usage:") (91%N :: rest) with
            | Some r => Some (take 6 (91%N :: rest) ++ lazy_until_blank r)
            | None => search_usage_block (91 =? 10)%N rest
            end).
    assert (ci_prefix (lit "usage:") (91%N :: rest) = None) as ->
      by (vm_compute; reflexivity).
    done. }
  assert (header_search true (91%N :: rest) = false) as ->; [|done].
  change (header_search true (91%N :: rest))
    with (true && header_at (91%N :: rest)
          || header_search (91 =? 10)%N rest).
  assert (header_at (91%N :: rest) = false) as ->
    by (vm_compute; reflexivity).
  done.
Qed.

Lemma not_elem_of_lit_app (c : N) (a b s : str) :
  c ∉ a → c ∉ b → c ∉ s → c ∉ a ++ s ++ b.
Proof. rewrite !elem_of_app. tauto. Qed.

Variable run : list str → float → environ → run_result.
Variable command : list str.
Variable timeout : float.
Variable max_depth : Z.
Variable env : environ.

Abbreviation timeout_placeholder := (timeout_placeholder timeout).

Lemma timeout_placeholder_barren :
  10%N ∉ timeout → _find_subcommands_from_help timeout_placeholder = [].
Proof.
  intros Ht. apply (extract_bracket_line
    (lit "Error: command timed out after " ++ timeout ++ lit " seconds]")).
  apply not_elem_of_lit_app; [| |done];
    apply (bool_decide_unpack _); vm_compute; exact I.
Qed.

Lemma not_found_placeholder_barren current_prog :
  10%N ∉ current_prog →
  _find_subcommands_from_help (not_found_placeholder current_prog) = [].
Proof.
  intros Ht. apply (extract_bracket_line
    (lit "Error: command not found: '" ++ current_prog ++ lit "']")).
  apply not_elem_of_lit_app; [| |done];
    apply (bool_decide_unpack _); vm_compute; exact I.
Qed.

(** A node whose help text names no subcommand has no child. *)
Lemma barren_node_childless st p :
  probe_inv run command timeout max_depth env st →
  _find_subcommands_from_help (help_at run command timeout env p) = [] →
  ∀ node x, node ∈ nodes st → path node ≠ p ++ [x].
Proof.
  intros Hinv Hbarren node x Hnode Hpath.
  destruct (inv_parent _ _ _ _ _ _ Hinv (path node))
    as [Hnil|(p0 & y & Heq & _ & Hy)].
  - left. unfold paths. apply list_elem_of_fmap. eauto.
  - rewrite Hpath in Hnil. by apply app_eq_nil in Hnil as [_ ?].
  - rewrite Hpath in Heq. apply app_inj_tail in Heq as [<- <-].
    rewrite Hbarren in Hy. by apply elem_of_nil in Hy.
Qed.

Lemma node_is_node_at st node :
  probe_inv run command timeout max_depth env st → node ∈ nodes st →
  node = node_at run command timeout env (path node).
Proof.
  intros Hinv Hnode. rewrite (inv_nodes _ _ _ _ _ _ Hinv) in Hnode.
  apply list_elem_of_fmap in Hnode as (p & -> & _). done.
Qed.

(** C7, as amended: a timeout or a command that is not found does not
    stop the prober.  The loop ends; the path is recorded as a node that
    holds the placeholder, and the call returns its document; no node
    lies under the placeholder, provided the text of the timeout,
    respectively the joined command line, holds no line feed (so that the
    placeholder is one line that opens with a bracket); and every name
    that the help text of a node lists is probed if its depth allows,
    whatever happened to the paths probed before it. *)
Theorem probe_error_placeholder :
  10%N ∉ timeout →
  ∃ n, ∀ fuel, n ≤ fuel →
    ∃ st, probe run command timeout max_depth env fuel = Some st
      ∧ (∀ fmt, fmt ∈ [lit "text"; lit "md"; lit "html"] →
           length command ≠ 0 →
           ∃ doc, full_help_external run fuel command fmt timeout max_depth
                    env
                  = Some (spawned st, Return doc))
      ∧ ∀ node, node ∈ nodes st →
          let cmd_list := command ++ path node in
          let outcome := run (cmd_list ++ [lit "--help"]) timeout env in
          (outcome = TimeoutExpired →
             parser node = _HelpOnlyParser (strip timeout_placeholder)
                             (join (lit " ") cmd_list)
             ∧ ∀ node' x, node' ∈ nodes st → path node' ≠ path node ++ [x])
          ∧ (outcome = FileNotFoundError →
               parser node
               = _HelpOnlyParser
                   (strip (not_found_placeholder (join (lit " ") cmd_list)))
                   (join (lit " ") cmd_list)
               ∧ (10%N ∉ join (lit " ") cmd_list →
                  ∀ node' x, node' ∈ nodes st →
                             path node' ≠ path node ++ [x]))
          ∧ (∀ x, x ∈ _find_subcommands_from_help
                        (help_at run command timeout env (path node)) →
                  (Z.of_nat (length (path node)) + 1 ≤ max_depth)%Z →
                  path node ++ [x] ∈ path <$> nodes st).
Proof.
  intros Ht. destruct (probe_total run command timeout max_depth env) as [n Hn].
  exists n. intros fuel Hfuel. destruct (Hn fuel Hfuel) as (st & Hst & Hinv & Hq).
  exists st. split; [done|]. split.
  { intros fmt [render Hrender]%renderers_supported Hcmd.
    unfold full_help_external. destruct command as [|prog1 args]; [done|].
    rewrite Hst, Hrender. eauto. }
  intros node Hnode cmd_list outcome.
  pose proof (node_is_node_at st node Hinv Hnode) as Hnode_at.
  assert (help_at run command timeout env (path node)
          = help_text_of timeout (join (lit " ") cmd_list) outcome) as Hhelp
    by done.
  split_and!.
  - intros Hout. rewrite Hout in Hhelp. simpl in Hhelp. split.
    + rewrite Hnode_at at 1. unfold node_at. simpl. by rewrite Hhelp.
    + intros node' x. apply (barren_node_childless st); [done|].
      rewrite Hhelp. by apply timeout_placeholder_barren.
  - intros Hout. rewrite Hout in Hhelp. simpl in Hhelp. split.
    + rewrite Hnode_at at 1. unfold node_at. simpl. by rewrite Hhelp.
    + intros Hline node' x. apply (barren_node_childless st); [done|].
      rewrite Hhelp. by apply not_found_placeholder_barren.
  - intros x Hx Hlen.
    destruct (inv_children _ _ _ _ _ _ Hinv (path node) x)
      as [Hin|Hin]; [|done..| |].
    + unfold paths. apply list_elem_of_fmap. eauto.
    + done.
    + rewrite Hq in Hin. by apply elem_of_nil in Hin.
Qed.

End Placeholders.

(** The probe of [pip] when [pip install --help] times out. *)
Lemma probe_error_placeholder_witness :
  ∃ n, ∀ fuel, n ≤ fuel →
    ∃ st, @probe ascii_db pip_run_late [lit "pip"] (lit "5.0") 4 None fuel
          = Some st
      ∧ (∀ fmt, fmt ∈ [lit "text"; lit "md"; lit "html"] →
           length [lit "pip"] ≠ 0 →
           ∃ doc, @full_help_external ascii_db sample_libraries pip_run_late
                    fuel [lit "pip"] fmt (lit "5.0") 4 None
                  = Some (spawned st, Return doc))
      ∧ ∀ node, node ∈ nodes st →
          let cmd_list := [lit "pip"] ++ path node in
          let outcome := pip_run_late (cmd_list ++ [lit "--help"]) (lit "5.0")
                           None in
          (outcome = TimeoutExpired →
             parser node
             = _HelpOnlyParser
                 (@strip ascii_db (timeout_placeholder (lit "5.0")))
                 (join (lit " ") cmd_list)
             ∧ ∀ node' x, node' ∈ nodes st → path node' ≠ path node ++ [x])
          ∧ (outcome = FileNotFoundError →
               parser node
               = _HelpOnlyParser
                   (@strip ascii_db
                      (not_found_placeholder (join (lit " ") cmd_list)))
                   (join (lit " ") cmd_list)
               ∧ (10%N ∉ join (lit " ") cmd_list →
                  ∀ node' x, node' ∈ nodes st →
                             path node' ≠ path node ++ [x]))
          ∧ (∀ x, x ∈ @_find_subcommands_from_help ascii_db
                        (help_at pip_run_late [lit "pip"] (lit "5.0") None
                           (path node)) →
                  (Z.of_nat (length (path node)) + 1 ≤ 4)%Z →
                  path node ++ [x] ∈ path <$> nodes st).
Proof.
  apply (@probe_error_placeholder ascii_db sample_libraries pip_run_late
           [lit "pip"] (lit "5.0") 4 None).
  apply (bool_decide_unpack _). vm_compute. exact I.
Defined.

(** That probe: the root, the placeholder of [install], with no node
    under it, and [uninstall], probed after the timeout. *)
Example probe_with_a_timeout :
  (λ st, (path <$> nodes st, parser <$> nodes st))
    <$> @probe ascii_db pip_run_late [lit "pip"] (lit "5.0") 4 None 3
  = Some ([[]; [lit "install"]; [lit "uninstall"]],
          [_HelpOnlyParser
             (lit "usage: pip <command> [...]" ++ NL ++ NL
              ++ lit "Commands:" ++ NL
              ++ lit "  install    Install packages." ++ NL
              ++ lit "  uninstall  Uninstall packages.")
             (lit "pip");
           _HelpOnlyParser
             (lit "[Error: command timed out after 5.0 seconds]")
             (lit "pip install");
           _HelpOnlyParser (lit "usage: pip uninstall [options] <package>")
             (lit "pip uninstall")]).
Proof. vm_compute. reflexivity. Qed.

(** C7, as stated, fails: when the command line itself holds a line that
    reads as a usage line, the placeholder of the command that was not
    found quotes it, and the prober goes on under the placeholder. *)
Lemma placeholder_expanded :
  (λ st, (path <$> nodes st, parser <$> take 1 (nodes st)))
    <$> @probe ascii_db no_such_command [lit "x" ++ NL ++ lit "usage: {a}"]
          (lit "5.0") 2 None 5
  = Some ([[]; [lit "a"]; [lit "a"; lit "a"]],
          [_HelpOnlyParser
             (lit "[Error: command not found: 'x" ++ NL ++ lit "usage: {a}']")
             (lit "x" ++ NL ++ lit "usage: {a}")]).
Proof. vm_compute. reflexivity. Qed.

(** ** The shape of the extracted names *)

Section ExtractorNames.
Context `{UnicodeDB}.

Local Arguments lit : simpl never.
Local Arguments header_at : simpl never.
Local Arguments strip : simpl never.

Lemma Forall_sublist_str (P : N → Prop) (s1 s2 : str) :
  s1 `sublist_of` s2 → Forall P s2 → Forall P s1.
Proof.
  intros Hsub Hall. apply Forall_forall. intros c Hc.
  eapply (proj1 (Forall_forall P s2)); [done|].
  eapply (sublist_subseteq (A := N)); done.
Qed.

Lemma split_on_Forall (Q : N → Prop) d (cur s : str) :
  Forall Q cur → Forall (λ c, c ≠ d → Q c) s →
  Forall (Forall Q) (split_on d cur s).
Proof.
  revert cur. induction s as [|c s IH]; intros cur Hcur Hs; simpl.
  - by constructor.
  - apply Forall_cons in Hs as [Hc Hs]. destruct (N.eqb_spec c d) as [->|Hne].
    + constructor; [done|]. by apply IH.
    + apply IH; [|done]. apply Forall_app. split; [done|].
      constructor; [by apply Hc|done].
Qed.

Lemma ischoice_isname c : ischoice c = true → c ≠ 44%N → isname c = true.
Proof.
  unfold ischoice, isname. intros Hc Hne.
  apply N.eqb_neq in Hne. rewrite Hne, orb_false_r in Hc. done.
Qed.

Lemma search_choices_Forall (s g : str) :
  search_choices s = Some g → Forall (λ c, ischoice c = true) g.
Proof.
  induction s as [|c s IH]; simpl; [done|].
  destruct (_ && _ && _); [|done]. intros [= <-].
  apply (take_while_Forall ischoice).
Qed.

Lemma name_run_spec (s g : str) :
  name_run s = Some g → g ≠ [] ∧ Forall (λ c, isname c = true) g.
Proof.
  unfold name_run. pose proof (take_while_Forall isname s) as Hall.
  destruct (take_while isname s); [done|]. by intros [= <-].
Qed.

Lemma after_space_spec (s g : str) :
  after_space s = Some g → g ≠ [] ∧ Forall (λ c, isname c = true) g.
Proof.
  induction s as [|c s IH]; [done|]. cbn -[name_run].
  destruct (isspace c); [|apply name_run_spec].
  destruct (after_space s) as [g'|].
  - intros [= <-]. by apply IH.
  - apply name_run_spec.
Qed.

Lemma scan_line_spec sec (line : str) :
  Forall (λ name, name ≠ [] ∧ Forall (λ c, isname c = true) name)
         (scan_line sec line).2.
Proof.
  unfold scan_line. repeat case_match; simpl; try by constructor.
  subst. constructor; [|done].
  unfold match_indented in *. destruct line as [|c s]; [done|].
  match goal with
  | Hm : (if isspace c then _ else _) = Some _ |- _ =>
      destruct (isspace c); [by apply (after_space_spec s)|done]
  end.
Qed.

Lemma scan_lines_spec sec (lines : list str) :
  Forall (λ name, name ≠ [] ∧ Forall (λ c, isname c = true) name)
         (scan_lines sec lines).
Proof.
  revert sec. induction lines as [|line rest IH]; intros sec; [by constructor|].
  cbn [scan_lines]. pose proof (scan_line_spec sec line) as Hline.
  destruct (scan_line sec line) as [sec' found]. apply Forall_app. by split.
Qed.

Lemma section_commands_spec (text : str) :
  Forall (λ name, name ≠ [] ∧ Forall (λ c, isname c = true) name)
         (section_commands text).
Proof.
  unfold section_commands. destruct (header_search true text);
    [apply scan_lines_spec|by constructor].
Qed.

Lemma find_subcommands_isname (text : str) :
  Forall (λ name, Forall (λ c, isname c = true) name)
         (_find_subcommands_from_help text).
Proof.
  unfold _find_subcommands_from_help.
  destruct (usage_choices text) as [g|] eqn:Hg.
  - unfold usage_choices in Hg.
    destruct (search_usage_block true text); [|done].
    apply search_choices_Forall in Hg.
    apply Forall_fmap. eapply Forall_impl.
    + apply (split_on_Forall (λ c, isname c = true) 44%N []); [done|].
      eapply Forall_impl; [done|]. intros c Hc Hne. by apply ischoice_isname.
    + intros token Htoken. simpl.
      eapply Forall_sublist_str; [apply strip_sublist|done].
  - eapply Forall_impl; [apply section_commands_spec|]. by intros name [_ ?].
Qed.

(** Whatever the text, a name that the extractor returns holds word
    characters and hyphens only; a name taken from a labeled section is
    not empty. *)
Theorem extracted_names_clean (text : str) :
  Forall (λ name, Forall (λ c, isname c = true) name)
         (_find_subcommands_from_help text)
  ∧ Forall (λ name, name ≠ []) (section_commands text).
Proof.
  split; [apply find_subcommands_isname|].
  eapply Forall_impl; [apply section_commands_spec|]. by intros name [? _].
Qed.

End ExtractorNames.

(** ** The warning of a non-zero exit *)

Section WarningBanner.
Context `{UnicodeDB}.

Local Arguments lit : simpl never.

Lemma uint_plain (d : Decimal.uint) :
  Forall (λ c, is_linebreak c = false) (lit (NilEmpty.string_of_uint d)).
Proof. induction d; unfold lit in *; simpl; by constructor. Qed.

Lemma str_of_Z_plain (z : Z) : Forall (λ c, is_linebreak c = false) (str_of_Z z).
Proof.
  unfold str_of_Z, NilZero.string_of_int.
  assert (∀ d, Forall (λ c, is_linebreak c = false)
                      (lit (NilZero.string_of_uint d))) as Huint.
  { intros d. unfold NilZero.string_of_uint.
    destruct d; try apply uint_plain. unfold lit. simpl. by constructor. }
  destruct (Z.to_int z) as [d|d]; [apply Huint|].
  change (lit (String "-" (NilZero.string_of_uint d)))
    with (45%N :: lit (NilZero.string_of_uint d)).
  constructor; [done|apply Huint].
Qed.

Lemma plain_no_line_feed (s : str) :
  Forall (λ c, is_linebreak c = false) s → 10%N ∉ s.
Proof.
  intros Hall Hin. apply (proj1 (Forall_forall _ _) Hall) in Hin. done.
Qed.

(** A line without a line feed is passed over by the searches that look
    at the starts of lines. *)
Lemma usage_skip_line (line rest : str) :
  10%N ∉ line →
  search_usage_block false (line ++ rest) = search_usage_block false rest.
Proof.
  induction line as [|c line IH]; [done|].
  intros [Hc Hline]%not_elem_of_cons.
  change (search_usage_block false ((c :: line) ++ rest))
    with (search_usage_block (c =? 10)%N (line ++ rest)).
  assert ((c =? 10)%N = false) as -> by (apply N.eqb_neq; congruence).
  by apply IH.
Qed.

Lemma header_skip_line (line rest : str) :
  10%N ∉ line → header_search false (line ++ rest) = header_search false rest.
Proof.
  induction line as [|c line IH]; [done|].
  intros [Hc Hline]%not_elem_of_cons.
  change (header_search false ((c :: line) ++ rest))
    with (header_search (c =? 10)%N (line ++ rest)).
  assert ((c =? 10)%N = false) as -> by (apply N.eqb_neq; congruence).
  by apply IH.
Qed.

Lemma splitlines_plain (cur line rest : str) :
  Forall (λ c, is_linebreak c = false) line →
  splitlines_from false cur (line ++ rest)
  = splitlines_from false (cur ++ line) rest.
Proof.
  revert cur. induction line as [|c line IH]; intros cur Hline.
  - by rewrite app_nil_r.
  - apply Forall_cons in Hline as [Hc Hline]. simpl. rewrite Hc.
    rewrite IH by done. by rewrite <- app_assoc.
Qed.

(** A first line that opens with a bracket, followed by an empty line,
    changes nothing of what the extractor finds in the text below. *)
Lemma extract_below_banner (line out : str) :
  Forall (λ c, is_linebreak c = false) line →
  _find_subcommands_from_help ((91%N :: line) ++ 10%N :: 10%N :: out)
  = _find_subcommands_from_help out.
Proof.
  intros Hplain. pose proof (plain_no_line_feed line Hplain) as Hline.
  assert (search_usage_block true ((91%N :: line) ++ 10%N :: 10%N :: out)
          = search_usage_block true out) as Husage.
  { change (search_usage_block true ((91%N :: line) ++ 10%N :: 10%N :: out))
      with (match ci_prefix (lit "usage:")
                    (91%N :: line ++ 10%N :: 10%N :: out) with
            | Some r => Some (take 6 (91%N :: line ++ 10%N :: 10%N :: out)
                              ++ lazy_until_blank r)
            | None => search_usage_block (91 =? 10)%N
                        (line ++ 10%N :: 10%N :: out)
            end).
    assert (ci_prefix (lit "usage:") (91%N :: line ++ 10%N :: 10%N :: out)
            = None) as -> by (vm_compute; reflexivity).
    change (91 =? 10)%N with false. rewrite usage_skip_line by done.
    change (search_usage_block false (10%N :: 10%N :: out))
      with (match ci_prefix (lit "usage:") (10%N :: out) with
            | Some r => Some (take 6 (10%N :: out) ++ lazy_until_blank r)
            | None => search_usage_block (10 =? 10)%N out
            end).
    assert (ci_prefix (lit "usage:") (10%N :: out) = None) as ->
      by (vm_compute; reflexivity).
    done. }
  assert (header_search true ((91%N :: line) ++ 10%N :: 10%N :: out)
          = header_search true out) as Hheader.
  { change (header_search true ((91%N :: line) ++ 10%N :: 10%N :: out))
      with (true && header_at (91%N :: line ++ 10%N :: 10%N :: out)
            || header_search (91 =? 10)%N (line ++ 10%N :: 10%N :: out)).
    assert (header_at (91%N :: line ++ 10%N :: 10%N :: out) = false) as ->
      by (vm_compute; reflexivity).
    change (91 =? 10)%N with false. simpl orb.
    rewrite header_skip_line by done.
    change (header_search false (10%N :: 10%N :: out))
      with (true && header_at (10%N :: out)
            || header_search (10 =? 10)%N out).
    assert (header_at (10%N :: out) = false) as ->
      by (vm_compute; reflexivity).
    done. }
  assert (scan_lines false (splitlines ((91%N :: line) ++ 10%N :: 10%N :: out))
          = scan_lines false (splitlines out)) as Hscan.
  { unfold splitlines.
    rewrite (splitlines_plain [] (91%N :: line)) by (by constructor).
    change (splitlines_from false ([] ++ 91%N :: line) (10%N :: 10%N :: out))
      with ((91%N :: line) :: [] :: splitlines_from false [] out).
    cbn [scan_lines]. unfold scan_line.
    assert (header_at (91%N :: line) = false) as ->
      by (vm_compute; reflexivity).
    assert (header_at [] = false) as -> by (vm_compute; reflexivity).
    done. }
  unfold _find_subcommands_from_help, usage_choices, section_commands.
  by rewrite Husage, Hheader, Hscan.
Qed.

(** When a command exits with a code that is not zero, the warning put
    before its output changes the recorded help text only: the
    subcommands found are those of the output. *)
Theorem nonzero_exit_keeps_subcommands (timeout current_prog : str)
    (stdout stderr : str) (returncode : Z) :
  _find_subcommands_from_help
    (help_text_of timeout current_prog (Completed stdout stderr returncode))
  = _find_subcommands_from_help (stdout ++ stderr).
Proof.
  simpl. destruct (returncode =? 0)%Z; [done|].
  pose proof (str_of_Z_plain returncode) as Hcode.
  change (lit "[Warning: command exited with code ")
    with (91%N :: lit "Warning: command exited with code ").
  rewrite <- (extract_below_banner
    (lit "Warning: command exited with code " ++ str_of_Z returncode ++ lit "]")
    (stdout ++ stderr)).
  - f_equal. unfold NL. simpl. rewrite <- !app_assoc. done.
  - apply Forall_app. split; [by vm_compute; repeat constructor|].
    apply Forall_app. split; [done|]. by repeat constructor.
Qed.

End WarningBanner.

(** ** The order of the probes *)

Lemma parents_first_snoc (l : list (list str)) (p : list str) :
  parents_first l →
  (p = [] ∨ ∃ p0 x, p = p0 ++ [x] ∧ p0 ∈ l) →
  parents_first (l ++ [p]).
Proof.
  intros Hl Hp pre p' post Heq.
  destruct post as [|y post _] using rev_ind.
  - apply app_inj_tail in Heq as [-> ->]. done.
  - rewrite app_comm_cons, app_assoc in Heq.
    apply app_inj_tail in Heq as [-> _]. by eapply Hl.
Qed.

Section ProbeOrder.
Context `{UnicodeDB}.
Variable run : list str → float → environ → run_result.
Variable command : list str.
Variable timeout : float.
Variable max_depth : Z.
Variable env : environ.

(** A round records no node, or one at the path that heads the queue. *)
Lemma step_nodes st st' :
  probe_step run command timeout max_depth env st = Some st' →
  nodes st' = nodes st
  ∨ ∃ e rest node, q st = e :: rest ∧ path node = e.1
                   ∧ nodes st' = nodes st ++ [node].
Proof.
  unfold probe_step. destruct (q st) as [|[p c] rest]; [done|].
  repeat case_match; intros [= <-]; simpl; [by left..|].
  right. eexists (p, c), rest, _. split_and!; [done| |done]. done.
Qed.

Lemma step_parents_first st st' :
  probe_step run command timeout max_depth env st = Some st' →
  probe_inv run command timeout max_depth env st
  ∧ parents_first (path <$> nodes st) →
  probe_inv run command timeout max_depth env st'
  ∧ parents_first (path <$> nodes st').
Proof.
  intros Hstep [Hinv Hpar]. split; [by eapply inv_step|].
  destruct (step_nodes st st' Hstep) as [->|(e & rest & node & Hq & He & ->)];
    [done|].
  rewrite fmap_app. apply parents_first_snoc; [done|]. simpl. rewrite He.
  destruct (inv_parent _ _ _ _ _ _ Hinv e.1) as [?|(p0 & x & ? & ? & _)];
    [right; rewrite Hq; left|by left|right; eauto].
Qed.

(** In the list of nodes of the prober, hence in every document, a node
    comes after the node of its parent path. *)
Theorem probe_parents_first :
  ∃ n, ∀ fuel, n ≤ fuel →
    ∃ st, probe run command timeout max_depth env fuel = Some st
          ∧ parents_first (path <$> nodes st).
Proof.
  destruct (probe_total run command timeout max_depth env) as [n Hn].
  exists n. intros fuel Hfuel. destruct (Hn fuel Hfuel) as (st & Hst & _).
  exists st. split; [done|].
  eapply (loop_invariant run command timeout max_depth env
            (λ st, probe_inv run command timeout max_depth env st
                   ∧ parents_first (path <$> nodes st)));
    [apply step_parents_first|exact Hst|].
  split; [apply inv_init|]. intros pre p post Heq. by destruct pre.
Qed.

(** The prober runs one child process for each node, and no command line
    twice. *)
Theorem probe_runs_each_command_once :
  ∃ n, ∀ fuel, n ≤ fuel →
    ∃ st, probe run command timeout max_depth env fuel = Some st
          ∧ NoDup (spawned st)
          ∧ length (spawned st) = length (nodes st).
Proof.
  destruct (probe_total run command timeout max_depth env) as [n Hn].
  exists n. intros fuel Hfuel. destruct (Hn fuel Hfuel) as (st & Hst & Hinv & _).
  exists st. split; [done|].
  rewrite (inv_spawned _ _ _ _ _ _ Hinv). unfold paths. split.
  - apply NoDup_fmap_2; [|apply (inv_nodup _ _ _ _ _ _ Hinv)].
    intros p1 p2 Heq. apply app_inv_tail in Heq. by apply app_inv_head in Heq.
  - by rewrite !length_fmap.
Qed.

(** The nodes of the prober are the tree that the help texts list, cut
    at the depth bound: under a node within the bound every name that the
    extractor finds in its help text is a node, and every node but the
    root is such a name under its parent.  So the words that the prober
    appends to the command of the caller hold word characters and hyphens
    only. *)
Theorem probe_nodes_are_the_listed_commands :
  ∃ n, ∀ fuel, n ≤ fuel →
    ∃ st, probe run command timeout max_depth env fuel = Some st
      ∧ (∀ p x, p ∈ paths st →
           x ∈ _find_subcommands_from_help (help_at run command timeout env p) →
           (Z.of_nat (length p) + 1 ≤ max_depth)%Z →
           p ++ [x] ∈ paths st)
      ∧ (∀ p, p ∈ paths st →
           p = [] ∨ ∃ p0 x, p = p0 ++ [x] ∧ p0 ∈ paths st
             ∧ x ∈ _find_subcommands_from_help
                     (help_at run command timeout env p0))
      ∧ (∀ p, p ∈ paths st →
           Forall (λ token, Forall (λ c, isname c = true) token) p).
Proof.
  destruct (probe_total run command timeout max_depth env) as [n Hn].
  exists n. intros fuel Hfuel.
  destruct (Hn fuel Hfuel) as (st & Hst & Hinv & Hq).
  exists st. split; [done|].
  assert (∀ p, p ∈ paths st →
            p = [] ∨ ∃ p0 x, p = p0 ++ [x] ∧ p0 ∈ paths st
              ∧ x ∈ _find_subcommands_from_help
                      (help_at run command timeout env p0)) as Hparent.
  { intros p Hp. apply (inv_parent _ _ _ _ _ _ Hinv). by left. }
  split_and!; [|done|].
  - intros p x Hp Hx Hdepth.
    destruct (inv_children _ _ _ _ _ _ Hinv p x Hp Hx Hdepth) as [?|Hin];
      [done|]. rewrite Hq in Hin. by apply elem_of_nil in Hin.
  - induction p as [|x p IH] using rev_ind; intros Hp; [by constructor|].
    destruct (Hparent _ Hp) as [Hnil|(p0 & x0 & Heq & Hp0 & Hx0)].
    { by destruct p. }
    apply app_inj_tail in Heq as [-> ->].
    apply Forall_app. split; [by apply IH|]. constructor; [|done].
    pose proof (find_subcommands_isname
                  (help_at run command timeout env p0)) as Hall.
    rewrite Forall_forall in Hall. by apply Hall.
Qed.

End ProbeOrder.

(** ** The parsers of a walk *)

Lemma walk_choices_mono node_path choices queue visited :
  visited ⊆ (walk_choices node_path choices queue visited).2.
Proof.
  revert queue visited. induction choices as [|[name i] choices IH];
    intros queue visited; simpl; [done|].
  case_bool_decide; [apply IH|]. etrans; [|apply IH]. set_solver.
Qed.

Lemma walk_choices_covers node_path choices queue visited c :
  c ∈ choices → c.2 ∈ (walk_choices node_path choices queue visited).2.
Proof.
  revert queue visited. induction choices as [|[name i] choices IH];
    intros queue visited; [by intros ?%elem_of_nil|].
  intros [->|Hc]%elem_of_cons; simpl.
  - case_bool_decide as Hi.
    + by apply walk_choices_mono.
    + apply walk_choices_mono. set_solver.
  - case_bool_decide; by apply IH.
Qed.

Lemma walk_actions_mono node_path actions queue visited :
  visited ⊆ (walk_actions node_path actions queue visited).2.
Proof.
  revert queue visited. induction actions as [|[choices|] actions IH];
    intros queue visited; simpl; [done| |apply IH].
  pose proof (walk_choices_mono node_path choices queue visited) as Hmono.
  destruct (walk_choices node_path choices queue visited) as [q' v'].
  etrans; [exact Hmono|apply IH].
Qed.

Lemma walk_actions_covers node_path actions queue visited c :
  c ∈ flat_map choices_of actions →
  c.2 ∈ (walk_actions node_path actions queue visited).2.
Proof.
  revert queue visited. induction actions as [|[choices|] actions IH];
    intros queue visited; simpl; [by intros ?%elem_of_nil| |apply IH].
  intros [Hc|Hc]%elem_of_app.
  - pose proof (walk_choices_covers node_path choices queue visited c Hc)
      as Hin.
    destruct (walk_choices node_path choices queue visited) as [q' v'].
    by apply walk_actions_mono.
  - destruct (walk_choices node_path choices queue visited) as [q' v'].
    by apply IH.
Qed.

Section WalkOrder.
Variable σ0 : heap.
Variable root : positive.

Abbreviation walk_ok := (walk_ok σ0 root).
Abbreviation walk_acc_ok := (walk_acc_ok σ0 root).
Abbreviation walk_result_ok := (walk_result_ok σ0 root).

(** The parser that a resumption reads is a parser of the heap at the
    call, with the same actions. *)
Lemma node_parser_origin σ x node p :
  σ = set_prog σ0 root x → node_parser σ node = Some p →
  ∃ k p0, parser node = ParserAt k ∧ σ0 !! k = Some p0
          ∧ all_choices p0 = all_choices p.
Proof.
  intros -> Hp. unfold node_parser in Hp.
  destruct (parser node) as [k|]; [|done].
  pose proof (set_prog_actions σ0 root x k) as Hact. rewrite Hp in Hact.
  destruct (σ0 !! k) as [p0|] eqn:Hk; [|done]. injection Hact as Hact.
  exists k, p0. split_and!; [done..|]. unfold all_choices. by rewrite Hact.
Qed.

Lemma walk_ok_node_id done node queue visited k :
  walk_ok done node queue visited → parser node = ParserAt k → k ∈ visited.
Proof.
  intros [(ids & Hids & _ & ->) _ _ _ _ _] Hk.
  apply elem_of_list_to_set.
  assert (ParserAt k ∈ ParserAt <$> ids) as Hin.
  { rewrite <- Hids, fmap_app, fmap_cons, Hk. set_solver. }
  apply list_elem_of_fmap in Hin as (k' & [= ->] & ?). done.
Qed.

Lemma walk_ok_init : walk_ok [] (root_node root) [] {[root]}.
Proof.
  split.
  - exists [root]. split_and!; [done|apply NoDup_singleton|set_solver].
  - set_solver.
  - intros i ->%elem_of_singleton. constructor.
  - by intros m i p c ?%elem_of_nil.
  - intros pre p post Heq. destruct pre as [|? [|? ?]]; [|done..].
    injection Heq as <- _. by left.
  - by intros m ?%elem_of_nil.
Qed.

Lemma walk_ok_expand σ x done node queue visited p m rest visited' :
  σ = set_prog σ0 root x → node_parser σ node = Some p →
  walk_ok done node queue visited →
  walk_actions (path node) (_actions p) queue visited = (m :: rest, visited') →
  walk_ok (done ++ [node]) m rest visited'.
Proof.
  intros Hσ Hp Hok Hwalk.
  destruct (node_parser_origin σ x node p Hσ Hp) as (k & p0 & Hk & Hp0 & Hch).
  pose proof (walk_ok_node_id _ _ _ _ k Hok Hk) as Hkv.
  pose proof (walk_actions_mono (path node) (_actions p) queue visited) as Hmono.
  pose proof (walk_actions_covers (path node) (_actions p) queue visited)
    as Hcover.
  destruct (walk_actions_spec (path node) (_actions p) queue visited)
    as (picked & Hsub & Hnd & Hfresh & Heq).
  rewrite Hwalk in Hmono, Hcover, Heq. simpl in Hmono, Hcover.
  injection Heq as Hq Hv.
  destruct Hok as [(ids & Hids & Hndi & Hvis) Hroot Hsound Hclosed Hpar Hqueue].
  assert ((done ++ [node]) ++ m :: rest
          = (done ++ node :: queue) ++ (child_node (path node) <$> picked))
    as Hlist by (rewrite Hq, <- !app_assoc; done).
  assert (∀ m', m' ∈ m :: rest →
            ∃ p1 x1, path m' = p1 ++ [x1] ∧ p1 ∈ path <$> (done ++ [node]))
    as Hparent.
  { intros m'. rewrite Hq, elem_of_app. intros [Hm'|Hm']; [by apply Hqueue|].
    apply list_elem_of_fmap in Hm' as (c & -> & _).
    exists (path node), c.1. split; [done|].
    rewrite fmap_app, elem_of_app. right. left. }
  split.
  - exists (ids ++ picked.*2). split_and!.
    + rewrite Hlist, (fmap_app parser), Hids, (fmap_app ParserAt). f_equal.
      rewrite <- !list_fmap_compose. done.
    + apply NoDup_app. split_and!; [done| |done].
      intros i Hi Hi'. apply Hfresh in Hi'. apply Hi'. rewrite Hvis.
      by apply elem_of_list_to_set.
    + rewrite Hv, Hvis, list_to_set_app_L. set_solver.
  - by apply Hmono.
  - intros i. rewrite Hv, elem_of_union, elem_of_list_to_set.
    intros [Hi|Hi]; [|by apply Hsound].
    apply list_elem_of_fmap in Hi as (c & -> & Hc).
    apply (reach_step σ0 root k p0 c); [by apply Hsound|done|].
    rewrite Hch. unfold all_choices.
    eapply (sublist_subseteq (A := str * positive)); done.
  - intros m' i p' c [Hm'| ->%list_elem_of_singleton]%elem_of_app Hi Hp' Hc.
    + apply Hmono. by eapply Hclosed.
    + rewrite Hk in Hi. injection Hi as <-. rewrite Hp0 in Hp'.
      injection Hp' as <-. apply Hcover. by rewrite Hch in Hc.
  - rewrite fmap_app. apply parents_first_snoc; [done|]. right.
    apply Hparent. left.
  - intros m' Hm'. destruct (Hparent m') as (p1 & x1 & ? & ?); [by right|].
    exists p1, x1. split; [done|]. rewrite fmap_app, elem_of_app. by left.
Qed.

Lemma walk_ok_stop σ x done node queue visited p visited' :
  σ = set_prog σ0 root x → node_parser σ node = Some p →
  walk_ok done node queue visited →
  walk_actions (path node) (_actions p) queue visited = ([], visited') →
  walk_result_ok (done ++ [node]).
Proof.
  intros Hσ Hp Hok Hwalk.
  destruct (node_parser_origin σ x node p Hσ Hp) as (k & p0 & Hk & Hp0 & Hch).
  pose proof (walk_actions_covers (path node) (_actions p) queue visited)
    as Hcover.
  destruct (walk_actions_spec (path node) (_actions p) queue visited)
    as (picked & Hsub & Hnd & Hfresh & Heq).
  rewrite Hwalk in Hcover, Heq. simpl in Hcover. injection Heq as Hq Hv.
  symmetry in Hq. apply app_eq_nil in Hq as [-> Hpicked].
  apply fmap_nil_inv in Hpicked as ->. simpl in Hv.
  assert (visited' = visited) as -> by set_solver.
  destruct Hok as [(ids & Hids & Hndi & Hvis) Hroot Hsound Hclosed Hpar _].
  exists ids. split_and!; [done..| |done].
  intros j. split.
  - intros Hj. apply Hsound. rewrite Hvis. by apply elem_of_list_to_set.
  - assert (∀ i, reachable σ0 root i → i ∈ visited) as Hall.
    { induction 1 as [|i p' c _ IH Hp' Hc]; [done|].
      assert (ParserAt i ∈ parser <$> (done ++ [node])) as Hin.
      { rewrite Hids. apply list_elem_of_fmap. exists i. split; [done|].
        rewrite Hvis in IH. by apply elem_of_list_to_set in IH. }
      apply list_elem_of_fmap in Hin as (m' & Hi & Hm').
      apply elem_of_app in Hm' as [Hm'| ->%list_elem_of_singleton].
      - by eapply Hclosed.
      - rewrite Hk in Hi. injection Hi as ->. rewrite Hp0 in Hp'.
        injection Hp' as <-. apply Hcover. by rewrite Hch in Hc. }
    intros Hj%Hall. rewrite Hvis in Hj. by apply elem_of_list_to_set in Hj.
Qed.

(** What one call of [next] does to the invariant. *)
Lemma gen_next_walk_ok σ g acc :
  gen_ok σ0 root σ g → walk_acc_ok acc g →
  match (gen_next σ g).2 with
  | Yield node => walk_acc_ok (acc ++ [node]) (gen_next σ g).1.2
  | StopIteration => walk_result_ok acc
  | Raised _ => ∃ i, reachable σ0 root i ∧ σ0 !! i = None
  end.
Proof.
  destruct g as [r prog0|r orig n queue visited|]; simpl; [| |done].
  - intros [-> ->] ->. destruct (σ0 !! root) as [r0|] eqn:Hr; simpl.
    + exists []. split; [done|]. apply walk_ok_init.
    + exists root. split; [constructor|done].
  - intros (-> & (r0 & x & Hr & -> & Hσ) & Hv) (done & -> & Hok).
    destruct (node_parser σ n) as [p|] eqn:Hp; simpl.
    + destruct (walk_actions (path n) (_actions p) queue visited)
        as [[|m rest] visited'] eqn:Hwalk; simpl.
      * by eapply walk_ok_stop.
      * exists (done ++ [n]). split; [done|]. by eapply walk_ok_expand.
    + destruct Hok as [(ids & Hids & _ & Hvis) _ Hsound _ _ _].
      unfold node_parser in Hp. destruct (parser n) as [k|text0 prog0] eqn:Hk.
      * exists k. split.
        -- apply Hsound. rewrite Hvis. apply elem_of_list_to_set.
           assert (ParserAt k ∈ ParserAt <$> ids) as Hin.
           { rewrite <- Hids, fmap_app, fmap_cons, Hk. set_solver. }
           apply list_elem_of_fmap in Hin as (k' & [= ->] & ?). done.
        -- subst σ. rewrite set_prog_lookup in Hp.
           destruct (decide (root = k)); [|done]. by destruct (σ0 !! k).
      * exfalso.
        assert (_HelpOnlyParser text0 prog0 ∈ ParserAt <$> ids) as Hin.
        { rewrite <- Hids, fmap_app, fmap_cons, Hk. set_solver. }
        by apply list_elem_of_fmap in Hin as (k' & [=] & ?).
Qed.

Lemma list_of_gen_walk fuel σ g acc σ' r :
  gen_ok σ0 root σ g → walk_acc_ok acc g →
  list_of_gen fuel σ g acc = Some (σ', r) →
  match r with
  | Return nodes0 => walk_result_ok nodes0
  | Raise _ => ∃ i, reachable σ0 root i ∧ σ0 !! i = None
  end.
Proof.
  revert σ g acc. induction fuel as [|fuel IH]; intros σ g acc Hok Hacc; [done|].
  simpl. pose proof (gen_next_ok σ0 root σ g Hok) as Hok'.
  pose proof (gen_next_walk_ok σ g acc Hok Hacc) as Hnext.
  destruct (gen_next σ g) as [[σ1 g1] [node| |e]]; simpl in *.
  - by apply IH.
  - by intros [= <- <-].
  - by intros [= <- <-].
Qed.

End WalkOrder.

Lemma closed_heap_reachable (σ : heap) (root i : positive) :
  closed_heap σ → is_Some (σ !! root) → reachable σ root i → is_Some (σ !! i).
Proof.
  intros Hclosed Hroot. induction 1 as [|i p c _ _ Hp Hc]; [done|].
  pose proof (map_Forall_lookup_1 _ _ _ _ Hclosed Hp) as Hall.
  rewrite Forall_forall in Hall. by apply Hall.
Qed.

Lemma walk_from_created (σ : heap) (root : positive) (prog0 : option str) fuel :
  S (size (universe σ root)) ≤ fuel →
  ∃ r, list_of_gen fuel σ (_walk_parser_tree root prog0) [] = Some (σ, r)
       ∧ match r with
         | Return nodes0 => walk_result_ok σ root nodes0
         | Raise _ => ∃ i, reachable σ root i ∧ σ !! i = None
         end.
Proof.
  intros Hfuel.
  destruct (list_of_gen_total σ root fuel σ (_walk_parser_tree root prog0) [])
    as [r Hr]; [done|simpl; lia|].
  exists r. split; [done|].
  by apply (list_of_gen_walk σ root fuel σ (_walk_parser_tree root prog0) [] σ).
Qed.

(** The in-process walker yields one node for every parser that can be
    reached from the root through the registered subparsers, and no other
    node: a parser registered under two names or by two parents is
    yielded once, under the name met first.  Every node but the root comes
    after the node of its parent.  The walk raises only when an object
    that can be reached is not a parser. *)
Theorem walk_yields_reachable_once (σ : heap) (root : positive)
    (prog0 : option str) :
  ∃ n, ∀ fuel, n ≤ fuel →
    ∃ r, list_of_gen fuel σ (_walk_parser_tree root prog0) [] = Some (σ, r)
      ∧ match r with
        | Return nodes0 =>
            ∃ ids, parser <$> nodes0 = ParserAt <$> ids
                   ∧ NoDup ids
                   ∧ (∀ j, j ∈ ids ↔ reachable σ root j)
                   ∧ parents_first (path <$> nodes0)
        | Raise _ => ∃ i, reachable σ root i ∧ σ !! i = None
        end.
Proof.
  exists (S (size (universe σ root))). intros fuel Hfuel.
  by apply walk_from_created.
Qed.

(** When every registered subparser is a parser and the root is one, the
    walker does not raise: [list] of it returns the nodes, among them a
    node for every parser that can be reached, and leaves the heap as it
    was. *)
Theorem well_formed_parser_is_walked (σ : heap) (root : positive)
    (prog0 : option str) :
  closed_heap σ → is_Some (σ !! root) →
  ∃ n, ∀ fuel, n ≤ fuel →
    ∃ nodes0,
      list_of_gen fuel σ (_walk_parser_tree root prog0) []
      = Some (σ, Return nodes0)
      ∧ ∀ j, reachable σ root j → ParserAt j ∈ parser <$> nodes0.
Proof.
  intros Hclosed Hroot. exists (S (size (universe σ root))).
  intros fuel Hfuel.
  destruct (walk_from_created σ root prog0 fuel Hfuel)
    as ([nodes0|e] & Hr & Hres).
  - exists nodes0. split; [done|]. intros j Hj.
    destruct Hres as (ids & -> & _ & Hids & _).
    apply list_elem_of_fmap. exists j. split; [done|]. by apply Hids.
  - destruct Hres as (i & Hi & Hnone).
    destruct (closed_heap_reachable σ root i Hclosed Hroot Hi) as [p' Hp'].
    congruence.
Qed.

(** The parser of the tests. *)
Lemma well_formed_parser_is_walked_witness :
  ∃ n, ∀ fuel, n ≤ fuel →
    ∃ nodes0,
      list_of_gen fuel complex_parser (_walk_parser_tree 1 None) []
      = Some (complex_parser, Return nodes0)
      ∧ ∀ j, reachable complex_parser 1 j → ParserAt j ∈ parser <$> nodes0.
Proof.
  apply (well_formed_parser_is_walked complex_parser 1 None).
  - unfold closed_heap, complex_parser.
    repeat (apply map_Forall_insert_2;
            [repeat constructor; by eexists|]).
    apply map_Forall_empty.
  - by eexists.
Defined.

(** ** The program name given to the walker *)

(** A suspended walker reads the actions of the heap only: two heaps with
    the same actions give the same nodes. *)
Lemma gen_next_same_actions (σ σ' : heap) r orig node queue visited :
  (∀ k, _actions <$> σ !! k = _actions <$> σ' !! k) →
  (gen_next σ (GenSuspended r orig node queue visited)).1.2
  = (gen_next σ' (GenSuspended r orig node queue visited)).1.2
  ∧ (gen_next σ (GenSuspended r orig node queue visited)).2
    = (gen_next σ' (GenSuspended r orig node queue visited)).2
  ∧ ∀ k, _actions <$> (gen_next σ (GenSuspended r orig node queue visited)).1.1
                        !! k
         = _actions <$> (gen_next σ' (GenSuspended r orig node queue visited)).1.1
                          !! k.
Proof.
  intros Hsame. simpl. unfold node_parser.
  assert (∀ k, _actions <$> set_prog σ r orig !! k
               = _actions <$> set_prog σ' r orig !! k) as Hset.
  { intros k. by rewrite !set_prog_actions. }
  destruct (parser node) as [i|text0 prog0]; [|done].
  specialize (Hsame i) as Hi.
  destruct (σ !! i) as [p|], (σ' !! i) as [p'|]; try done.
  injection Hi as Hi. rewrite Hi.
  destruct (walk_actions (path node) (_actions p') queue visited)
    as [[|m rest] visited']; done.
Qed.

Lemma list_of_gen_same_actions fuel (σ σ' : heap) g acc :
  (∀ k, _actions <$> σ !! k = _actions <$> σ' !! k) →
  (∀ r prog0, g ≠ GenCreated r prog0) →
  snd <$> list_of_gen fuel σ g acc = snd <$> list_of_gen fuel σ' g acc.
Proof.
  revert σ σ' g acc. induction fuel as [|fuel IH]; intros σ σ' g acc Hsame Hg;
    [done|].
  destruct g as [r prog0|r orig node queue visited|]; [by destruct (Hg r prog0)| |done].
  destruct (gen_next_same_actions σ σ' r orig node queue visited Hsame)
    as (Hgen & Hout & Hheap).
  cbn [list_of_gen].
  destruct (gen_next σ (GenSuspended r orig node queue visited))
    as [[σ1 g1] out1] eqn:H1.
  destruct (gen_next σ' (GenSuspended r orig node queue visited))
    as [[σ2 g2] out2] eqn:H2.
  simpl in Hgen, Hout, Hheap. subst g2 out2.
  destruct out1 as [m| |e]; [|done..].
  apply IH; [done|]. intros r' prog'. 
  simpl in H1. destruct (node_parser σ node); [|by injection H1 as _ <-].
  destruct (walk_actions _ _ _ _) as [[|? ?] ?]; simpl in H1;
    by injection H1 as _ <- _.
Qed.

Lemma walk_ignores_prog fuel (σ : heap) (root : positive) (prog0 : option str) :
  snd <$> list_of_gen fuel σ (_walk_parser_tree root prog0) []
  = snd <$> list_of_gen fuel σ (_walk_parser_tree root None) [].
Proof.
  destruct fuel as [|fuel]; [done|]. cbn [list_of_gen _walk_parser_tree gen_next].
  destruct (σ !! root) as [root0|]; [|done]. simpl.
  apply list_of_gen_same_actions; [|done].
  intros k. destruct prog0 as [[|c p]|]; [done| |done].
  by rewrite set_prog_actions.
Qed.

Section ProgramName.
Context `{UnicodeDB} `{Libraries}.

(** A program name given to [full_help_from_parser] changes the titles of
    the document and nothing else: the walker yields the nodes that it
    yields without a name, and the help texts are those of the parsers as
    the caller holds them, the root with its own [prog], since the walker
    has put it back before the renderer asks for a help text. *)
Theorem prog_override_changes_titles_only (tty : terminal) (σ : heap)
    (root : positive) (prog0 : option str) (fmt : str)
    (use_rich : option bool) :
  ∃ n, ∀ fuel, n ≤ fuel →
    list_of_gen fuel σ (_walk_parser_tree root prog0) []
    = list_of_gen fuel σ (_walk_parser_tree root None) []
    ∧ ∀ σ' printed doc,
        full_help_from_parser tty fuel σ root prog0 fmt use_rich
        = Some (σ', printed, Return doc) →
        ∃ nodes0 render root0,
          list_of_gen fuel σ (_walk_parser_tree root None) []
          = Some (σ, Return nodes0)
          ∧ renderers fmt = Some render
          ∧ σ !! root = Some root0
          ∧ σ' = σ
          ∧ doc = render σ nodes0 match prog0 with
                                  | Some (c :: p) => c :: p
                                  | _ => get_prog root0
                                  end.
Proof.
  exists (S (size (universe σ root))). intros fuel Hfuel.
  assert (∀ p, list_of_gen fuel σ (_walk_parser_tree root p) []
               = list_of_gen fuel σ (_walk_parser_tree root None) []) as Hwalk.
  { intros p. pose proof (walk_ignores_prog fuel σ root p) as Hsnd.
    destruct (list_of_gen_total σ root fuel σ (_walk_parser_tree root p) [])
      as [r Hr]; [done|simpl; lia|].
    destruct (list_of_gen_total σ root fuel σ (_walk_parser_tree root None) [])
      as [r' Hr']; [done|simpl; lia|].
    rewrite Hr, Hr' in *. simpl in Hsnd. by injection Hsnd as ->. }
  split; [apply Hwalk|].
  intros σ' printed doc. unfold full_help_from_parser.
  destruct (σ !! root) as [root0|] eqn:Hroot.
  - set (name := match prog0 with
                 | Some (c :: p) => c :: p
                 | _ => get_prog root0
                 end).
    assert (match prog0 with
            | Some (c :: p) => Return (c :: p)
            | _ => Return (get_prog root0)
            end = Return name) as -> by (by destruct prog0 as [[|c p]|]).
    rewrite Hwalk.
    destruct (list_of_gen_total σ root fuel σ (_walk_parser_tree root None) [])
      as [r Hr]; [done|simpl; lia|].
    rewrite Hr. destruct r as [nodes0|e]; [|done].
    destruct (renderers fmt) as [render|]; [|done].
    intros [= <- _ <-]. by exists nodes0, render, root0.
  - destruct prog0 as [[|c p]|]; [done| |done]. rewrite Hwalk.
    destruct fuel as [|fuel]; [done|]. simpl. by rewrite Hroot.
Qed.

End ProgramName.

(** ** The markup of the page *)

Lemma replace_char_app c r (a b : str) :
  replace_char c r (a ++ b) = replace_char c r a ++ replace_char c r b.
Proof. unfold replace_char. apply flat_map_app. Qed.

Lemma html_escape_app (a b : str) :
  html_escape (a ++ b) = html_escape a ++ html_escape b.
Proof. unfold html_escape. by rewrite !replace_char_app. Qed.

(** The three replacements, seen on one character: [&amp;], [&lt;],
    [&gt;], or the character. *)
Lemma html_escape_char (c : N) :
  html_escape [c]
  = if (c =? 38)%N then [38; 97; 109; 112; 59]%N
    else if (c =? 60)%N then [38; 108; 116; 59]%N
    else if (c =? 62)%N then [38; 103; 116; 59]%N
    else [c].
Proof.
  destruct (N.eqb_spec c 38) as [->|H38]; [done|].
  destruct (N.eqb_spec c 60) as [->|H60]; [done|].
  destruct (N.eqb_spec c 62) as [->|H62]; [done|].
  unfold html_escape, replace_char. simpl.
  apply N.eqb_neq in H38, H60, H62. rewrite H38. simpl. rewrite H60. simpl.
  by rewrite H62.
Qed.

Lemma html_escape_cons (c : N) (s : str) :
  html_escape (c :: s) = html_escape [c] ++ html_escape s.
Proof. by rewrite <- html_escape_app. Qed.

Ltac escape_cases c :=
  destruct (N.eqb_spec c 38) as [->|?];
    [|destruct (N.eqb_spec c 60) as [->|?];
      [|destruct (N.eqb_spec c 62) as [->|?]]].

Lemma html_escape_inj (s1 s2 : str) :
  html_escape s1 = html_escape s2 → s1 = s2.
Proof.
  revert s2. induction s1 as [|c1 s1 IH]; intros [|c2 s2].
  - done.
  - rewrite (html_escape_cons c2), html_escape_char.
    change (html_escape []) with (@nil N). by repeat case_match.
  - rewrite (html_escape_cons c1), html_escape_char.
    change (html_escape []) with (@nil N). by repeat case_match.
  - rewrite (html_escape_cons c1), (html_escape_cons c2), !html_escape_char.
    escape_cases c1; escape_cases c2; simpl; intros Heq;
      try congruence; injection Heq; intros; subst; try congruence;
      f_equal; by apply IH.
Qed.

Lemma ampersand_later (e rest pre post : str) :
  38%N ∉ e → e ++ rest = pre ++ 38%N :: post →
  ∃ pre', rest = pre' ++ 38%N :: post.
Proof.
  revert pre. induction e as [|x e IH]; intros pre He Heq; [by exists pre|].
  apply not_elem_of_cons in He as [Hx He].
  destruct pre as [|y pre]; [by injection Heq as -> _|].
  injection Heq as _ Heq. by eapply IH.
Qed.

(** What [_render_html] puts between [<pre>] and [</pre>] holds no angle
    bracket, so a help text cannot open or close an element of the page;
    every ampersand in it starts one of the three entities; escaping goes
    piece by piece; and two help texts never give the same escaped
    text. *)
Theorem html_escape_is_safe_and_faithful :
  (∀ s, (60%N ∉ html_escape s) ∧ (62%N ∉ html_escape s))
  ∧ (∀ s pre post, html_escape s = pre ++ 38%N :: post →
       ∃ rest, post = lit "amp;" ++ rest ∨ post = lit "lt;" ++ rest
               ∨ post = lit "gt;" ++ rest)
  ∧ (∀ a b, html_escape (a ++ b) = html_escape a ++ html_escape b)
  ∧ (∀ s1 s2, html_escape s1 = html_escape s2 → s1 = s2).
Proof.
  split_and!; [| |apply html_escape_app|apply html_escape_inj].
  - induction s as [|c s [IH1 IH2]]; [split; by intros ?%elem_of_nil|].
    rewrite html_escape_cons, html_escape_char, !elem_of_app.
    escape_cases c; set_solver.
  - induction s as [|c s IH]; intros pre post.
    { change (html_escape []) with (@nil N). by destruct pre. }
    rewrite html_escape_cons, html_escape_char.
    escape_cases c; intros Heq.
    + destruct pre as [|x pre].
      * injection Heq as <-. exists (html_escape s). by left.
      * injection Heq as _ Heq.
        apply (ampersand_later [97; 109; 112; 59]%N) in Heq as [pre' Hpre'];
          [by eapply IH|set_solver].
    + destruct pre as [|x pre].
      * injection Heq as <-. exists (html_escape s). right. by left.
      * injection Heq as _ Heq.
        apply (ampersand_later [108; 116; 59]%N) in Heq as [pre' Hpre'];
          [by eapply IH|set_solver].
    + destruct pre as [|x pre].
      * injection Heq as <-. exists (html_escape s). right. by right.
      * injection Heq as _ Heq.
        apply (ampersand_later [103; 116; 59]%N) in Heq as [pre' Hpre'];
          [by eapply IH|set_solver].
    + destruct pre as [|x pre]; [by injection Heq as -> _|].
      injection Heq as _ Heq. by eapply IH.
Qed.

(** ** The anchors of the page *)

Lemma hyphen_free_prefix (x y r r' : str) :
  45%N ∉ x → 45%N ∉ y →
  (r = [] ∨ ∃ t, r = 45%N :: t) → (r' = [] ∨ ∃ t, r' = 45%N :: t) →
  x ++ r = y ++ r' → x = y ∧ r = r'.
Proof.
  revert y. induction x as [|c x IH]; intros [|d y] Hx Hy Hr Hr' Heq.
  - done.
  - exfalso. simpl in Heq. destruct Hr as [->|[t ->]]; [done|].
    injection Heq as <- _. set_solver.
  - exfalso. simpl in Heq. destruct Hr' as [->|[t ->]]; [done|].
    injection Heq as -> _. set_solver.
  - injection Heq as -> Heq.
    apply not_elem_of_cons in Hx as [_ Hx]. apply not_elem_of_cons in Hy as [_ Hy].
    destruct (IH y Hx Hy Hr Hr' Heq) as [-> ->]. done.
Qed.

Lemma join_cons_hyphen (x : str) (l : list str) :
  join [45%N] (x :: l) = x ++ match l with
                              | [] => []
                              | _ => 45%N :: join [45%N] l
                              end.
Proof. destruct l; simpl; [by rewrite app_nil_r|done]. Qed.

(** Names without a hyphen can be read back from what [join] makes of
    them. *)
Lemma join_hyphen_inj (l1 l2 : list str) :
  Forall (λ token, 45%N ∉ token) l1 → Forall (λ token, 45%N ∉ token) l2 →
  l1 ≠ [] → l2 ≠ [] → join [45%N] l1 = join [45%N] l2 → l1 = l2.
Proof.
  revert l2. induction l1 as [|x l1 IH]; intros [|y l2] H1 H2 Hne1 Hne2;
    [done..|].
  apply Forall_cons in H1 as [Hx H1]. apply Forall_cons in H2 as [Hy H2].
  rewrite !join_cons_hyphen. intros Heq.
  apply hyphen_free_prefix in Heq as [-> Heq]; [|done..| |].
  - f_equal. destruct l1 as [|x1 l1], l2 as [|y1 l2]; [done..|].
    injection Heq as Heq. by apply IH.
  - destruct l1; [by left|right; by eexists].
  - destruct l2; [by left|right; by eexists].
Qed.

(** Two nodes whose names hold no hyphen get the same anchor in the page
    only when they have the same path, but for the root and a command
    named [root] under it, which share [cmd-root].  (With hyphens more
    paths collide: [a-b] and [a], [b] both give [cmd-a-b].) *)
Theorem html_anchors_distinct (node1 node2 : _ParserNode) :
  Forall (λ token, 45%N ∉ token) (path node1) →
  Forall (λ token, 45%N ∉ token) (path node2) →
  html_anchor node1 = html_anchor node2 →
  path node1 = path node2
  ∨ (path node1 = [] ∧ path node2 = [lit "root"])
  ∨ (path node1 = [lit "root"] ∧ path node2 = []).
Proof.
  unfold html_anchor. intros H1 H2.
  assert (Forall (λ token : str, 45%N ∉ token) [lit "root"]) as Hroot.
  { repeat constructor. unfold lit. simpl. set_solver. }
  destruct (path node1) as [|x l1] eqn:Hp1, (path node2) as [|y l2] eqn:Hp2.
  - by left.
  - intros Heq. right. left. split; [done|].
    change (lit "cmd-root") with (lit "cmd-" ++ join [45%N] [lit "root"]) in Heq.
    apply app_inv_head in Heq. symmetry. by apply join_hyphen_inj.
  - intros Heq. right. right. split; [|done].
    change (lit "cmd-root") with (lit "cmd-" ++ join [45%N] [lit "root"]) in Heq.
    apply app_inv_head in Heq. by apply join_hyphen_inj.
  - intros Heq. left. apply app_inv_head in Heq. by apply join_hyphen_inj.
Qed.

(** The root and a command [root] under it. *)
Lemma html_anchors_distinct_witness :
  path {| path := []; parser := ParserAt 1 |}
  = path {| path := [lit "root"]; parser := ParserAt 2 |}
  ∨ (path {| path := []; parser := ParserAt 1 |} = []
     ∧ path {| path := [lit "root"]; parser := ParserAt 2 |} = [lit "root"])
  ∨ (path {| path := []; parser := ParserAt 1 |} = [lit "root"]
     ∧ path {| path := [lit "root"]; parser := ParserAt 2 |} = []).
Proof.
  apply (html_anchors_distinct {| path := []; parser := ParserAt 1 |}
           {| path := [lit "root"]; parser := ParserAt 2 |}).
  - simpl. constructor.
  - simpl. repeat constructor. apply (bool_decide_unpack _). vm_compute. exact I.
  - vm_compute. reflexivity.
Defined.

(** ** The nodes in the documents *)

Lemma in_order_prepend (parts : list str) (a doc : str) :
  in_order parts doc → in_order parts (a ++ doc).
Proof.
  destruct parts as [|x rest]; [done|]. intros (pre & post & -> & Hrest).
  exists (a ++ pre), post. by rewrite <- app_assoc.
Qed.

Lemma in_order_join (sep : str) (parts l : list str) :
  parts `sublist_of` l → in_order parts (join sep l).
Proof.
  intros Hsub. induction Hsub as [|x parts l Hsub IH|x parts l Hsub IH].
  - done.
  - exists [], match l with [] => [] | _ => sep ++ join sep l end. split.
    + destruct l; simpl; [by rewrite app_nil_r|done].
    + destruct l; [by apply sublist_nil_r in Hsub as ->|].
      by apply in_order_prepend.
  - destruct l as [|y l]; [by apply sublist_nil_r in Hsub as ->|].
    change (join sep (x :: y :: l)) with (x ++ sep ++ join sep (y :: l)).
    by do 2 apply in_order_prepend.
Qed.

Lemma in_order_concat (parts l : list str) :
  parts `sublist_of` l → in_order parts (concat l).
Proof.
  intros Hsub. induction Hsub as [|x parts l Hsub IH|x parts l Hsub IH].
  - done.
  - by exists [], (concat l).
  - simpl. by apply in_order_prepend.
Qed.

Lemma flat_map_sublist {A} (f g : A → list str) (l : list A) :
  (∀ a, f a `sublist_of` g a) → flat_map f l `sublist_of` flat_map g l.
Proof.
  intros Hfg. induction l as [|a l IH]; [done|]. simpl. by apply sublist_app.
Qed.

Section DocumentOrder.
Context `{UnicodeDB} `{Libraries}.

Lemma text_output_sublist (σ : heap) (nodes0 : list _ParserNode) (prog0 : str) :
  flat_map (λ node, [text_title prog0 node;
                     strip (_get_help_string σ (parser node))]) nodes0
  `sublist_of` text_output σ nodes0 prog0.
Proof.
  induction nodes0 as [|node rest IH]; [done|].
  cbn [flat_map text_output app]. apply sublist_skip, sublist_cons, sublist_skip.
  by apply sublist_inserts_l.
Qed.

(** No renderer drops or reorders a node: in each document the title of
    every node is followed by its help text (escaped in the page), node
    after node in the order of the list, and the table of contents of the
    page holds one item for every node in the same order. *)
Theorem documents_keep_every_node (σ : heap) (nodes0 : list _ParserNode)
    (prog0 : str) :
  in_order
    (flat_map (λ node, [text_title prog0 node;
                        strip (_get_help_string σ (parser node))]) nodes0)
    (_render_text σ nodes0 prog0)
  ∧ in_order
      (flat_map (λ node, [md_heading prog0 node;
                          strip (_get_help_string σ (parser node))]) nodes0)
      (_render_md σ nodes0 prog0)
  ∧ in_order
      (flat_map (λ node,
                   [html_heading prog0 node;
                    lit "<pre>"
                    ++ html_escape (strip (_get_help_string σ (parser node)))
                    ++ lit "</pre>"]) nodes0)
      (html_body σ nodes0 prog0)
  ∧ in_order (html_toc_item prog0 <$> nodes0) (html_toc nodes0 prog0).
Proof.
  split_and!.
  - apply in_order_join, text_output_sublist.
  - apply in_order_join, sublist_cons.
    apply flat_map_sublist. intros node. unfold md_section.
    apply sublist_skip, sublist_cons, sublist_skip, sublist_nil_l.
  - apply in_order_concat. by apply flat_map_sublist.
  - apply in_order_concat. simpl. apply sublist_cons.
    by apply sublist_inserts_r.
Qed.

End DocumentOrder.

(** ** A negative depth bound *)

Section NegativeDepth.
Context `{UnicodeDB} `{Libraries}.

(** With a negative [max_depth] the prober drops the root itself: it runs
    no child process and records no node, and still returns a document,
    the empty text or the bare title of the Markdown. *)
Theorem negative_depth_probes_nothing
    (run : list str → float → environ → run_result) (prog0 : str)
    (args : list str) (timeout : float) (max_depth : Z) (env : environ)
    (fuel : nat) :
  (max_depth < 0)%Z →
  probe run (prog0 :: args) timeout max_depth env (S fuel)
  = Some {| nodes := []; q := []; visited_paths := ∅; spawned := [] |}
  ∧ full_help_external run (S fuel) (prog0 :: args) (lit "text") timeout
      max_depth env
    = Some ([], Return [])
  ∧ full_help_external run (S fuel) (prog0 :: args) (lit "md") timeout
      max_depth env
    = Some ([], Return (lit "# Help for `" ++ prog0 ++ lit "`" ++ NL)).
Proof.
  intros Hdepth.
  assert (probe run (prog0 :: args) timeout max_depth env (S fuel)
          = Some {| nodes := []; q := []; visited_paths := ∅; spawned := [] |})
    as Hprobe.
  { unfold probe, probe_init. cbn [probe_loop probe_step q length].
    assert ((Z.of_nat 0 >? max_depth)%Z = true) as -> by lia.
    by destruct fuel. }
  split; [done|]. unfold full_help_external. rewrite Hprobe. done.
Qed.

End NegativeDepth.

(** A probe of [pip] with the depth bound [-1]. *)
Lemma negative_depth_probes_nothing_witness :
  @probe ascii_db pip_run [lit "pip"] (lit "5.0") (-1) None 1
  = Some {| nodes := []; q := []; visited_paths := ∅; spawned := [] |}
  ∧ @full_help_external ascii_db sample_libraries pip_run 1 [lit "pip"]
      (lit "text") (lit "5.0") (-1) None
    = Some ([], Return [])
  ∧ @full_help_external ascii_db sample_libraries pip_run 1 [lit "pip"]
      (lit "md") (lit "5.0") (-1) None
    = Some ([], Return (lit "# Help for `" ++ lit "pip" ++ lit "`" ++ NL)).
Proof.
  apply (@negative_depth_probes_nothing ascii_db sample_libraries pip_run
           (lit "pip") [] (lit "5.0") (-1) None 0).
  lia.
Defined.

(** ** The label of an entry of the table of contents *)

(** The label of an entry is the command line of its node: the program
    name that [path_str or prog] falls back to is never shown in its
    place, since the command line is empty only when the program name
    is. *)
Theorem html_toc_label_is_command (prog0 : str) (node : _ParserNode) :
  html_toc_item prog0 node
  = lit "<li style=" ++ DQ ++ lit "margin-left: "
    ++ str_of_N (len (path node) * 20) ++ lit "px;" ++ DQ
    ++ lit "><a href=" ++ DQ ++ lit "#" ++ html_anchor node ++ DQ ++ lit ">"
    ++ path_str prog0 node ++ lit "</a></li>".
Proof.
  unfold html_toc_item. do 12 f_equal.
  destruct (is_nil (path_str prog0 node)) eqn:Hnil; [|done].
  unfold is_nil in Hnil. destruct (path_str prog0 node) eqn:Hp; [|done].
  unfold path_str in Hp. destruct (path node); simpl in Hp; [by subst|].
  by apply app_eq_nil in Hp as [-> _].
Qed.

(** ** The console script *)

Section ConsoleFacts.
Context `{UnicodeDB} `{Libraries} `{Host}.

Ltac console_cases :=
  unfold print_output; case_bool_decide;
  unfold html_fallback, html_try, print_stderr, print_stdout;
  repeat case_match; simplify_eq/=.

Ltac console_trace :=
  first [ exact (eq_sym (app_nil_r _))
        | rewrite <- ?app_assoc; reflexivity ].

Ltac console_new Hnew :=
  first [ rewrite <- (app_nil_r (A := effect) _) in Hnew at 1;
          apply app_inv_head in Hnew
        | rewrite <- ?app_assoc in Hnew; apply app_inv_head in Hnew ];
  subst.

Ltac console_quiet Hquiet :=
  repeat match goal with
         | Hs : stdout_raises ?b ?t = Some _ |- _ =>
             destruct (Hquiet b t) as [? ?]; congruence
         | Hs : stderr_raises ?b ?t = Some _ |- _ =>
             destruct (Hquiet b t) as [? ?]; congruence
         end.

(** What [print_output] adds to the actions so far. *)
Lemma print_output_trace (doc fmt : str) (open_browser : bool)
    (done : list effect) :
  ∃ new, (print_output doc fmt open_browser done).1 = done ++ new
    ∧ ((print_output doc fmt open_browser done).2 = None →
       PrintStdout doc ∈ new ∨ ∃ name, TempFile name doc ∈ new).
Proof.
  console_cases; eexists; (split; [console_trace|]); intros; try done;
    set_solver.
Qed.

Lemma print_output_quiet (doc fmt : str) (open_browser : bool)
    (done : list effect) :
  (∀ before text, stdout_raises before text = None
                  ∧ stderr_raises before text = None) →
  (print_output doc fmt open_browser done).2 = None.
Proof. intros Hquiet. console_cases; try done; console_quiet Hquiet. Qed.

Lemma print_output_browser (doc fmt : str) (open_browser : bool)
    (done new : list effect) (url : str) :
  (print_output doc fmt open_browser done).1 = done ++ new →
  WebbrowserOpen url ∈ new →
  fmt = lit "html" ∧ open_browser = true
  ∧ ∃ name pre post,
      url = lit "file://" ++ realpath name
      ∧ new = pre ++ WebbrowserOpen url :: post
      ∧ TempFile name doc ∈ pre.
Proof.
  intros Hnew Hurl. revert Hnew.
  console_cases; intros Hnew; console_new Hnew; try (exfalso; set_solver).
  all: split; [done|]; split; [done|].
  all: set_unfold in Hurl; destruct_or!; simplify_eq.
  all: eexists _, [_; _], _; split_and!; [reflexivity..|]; set_solver.
Qed.

Lemma print_output_fallback (doc fmt : str) (open_browser : bool)
    (done new : list effect) (e : str) :
  (print_output doc fmt open_browser done).1 = done ++ new →
  PrintStderr (lit "Error writing temporary HTML file: " ++ e) ∈ new →
  (print_output doc fmt open_browser done).2 = None →
  PrintStdout doc ∈ new.
Proof.
  intros Hnew Herr. revert Hnew.
  console_cases; intros Hnew Hret; console_new Hnew; try done;
    try set_solver.
Qed.

Lemma print_output_plain (doc fmt : str) (open_browser : bool)
    (done new : list effect) :
  (print_output doc fmt open_browser done).1 = done ++ new →
  fmt ≠ lit "html" →
  new = match (print_output doc fmt open_browser done).2 with
        | None => [PrintStdout doc]
        | Some _ => []
        end.
Proof.
  intros Hnew Hfmt. revert Hnew. unfold print_output.
  case_bool_decide; [done|]. unfold print_stdout.
  destruct (stdout_raises done doc); simpl; intros Hnew; by console_new Hnew.
Qed.

(** [print_output] does not lose the document: when it returns, the
    document is in a temporary file or on the standard output, whatever
    the file system and the browser did; and it returns unless a [print]
    raises.  The browser is asked only for the format [html] with
    [open_browser], after the file has been written, and for the real
    path of that file.  When the failure to write has been reported and
    [print_output] returns, the document is on the standard output, also
    when it was the browser that failed after the file had been written.
    For another format the only action is the [print] of the document. *)
Theorem print_output_delivers (doc fmt : str) (open_browser : bool)
    (done : list effect) :
  ∃ new,
    (print_output doc fmt open_browser done).1 = done ++ new
    ∧ ((print_output doc fmt open_browser done).2 = None →
       PrintStdout doc ∈ new ∨ ∃ name, TempFile name doc ∈ new)
    ∧ ((∀ before text, stdout_raises before text = None
                       ∧ stderr_raises before text = None) →
       (print_output doc fmt open_browser done).2 = None)
    ∧ (∀ url, WebbrowserOpen url ∈ new →
         fmt = lit "html" ∧ open_browser = true
         ∧ ∃ name pre post,
             url = lit "file://" ++ realpath name
             ∧ new = pre ++ WebbrowserOpen url :: post
             ∧ TempFile name doc ∈ pre)
    ∧ (∀ e, PrintStderr (lit "Error writing temporary HTML file: " ++ e)
              ∈ new →
            (print_output doc fmt open_browser done).2 = None →
            PrintStdout doc ∈ new)
    ∧ (fmt ≠ lit "html" →
       new = match (print_output doc fmt open_browser done).2 with
             | None => [PrintStdout doc]
             | Some _ => []
             end).
Proof.
  destruct (print_output_trace doc fmt open_browser done)
    as (new & Hnew & Hdelivered).
  exists new. split_and!; [done..| | | |].
  - apply print_output_quiet.
  - intros url. by apply (print_output_browser doc fmt open_browser done).
  - intros e. by apply print_output_fallback.
  - by apply print_output_plain.
Qed.

(** With a format that [parse_args] lets through, and whatever the child
    processes do (print nothing, exit with an error, not exist, time
    out), the discovery gives [main] a document, which it hands to
    [print_output]: [main] reaches its handler only when [print_output]
    raises, that is, when a [print] does.  When [main] returns, the
    document is in a temporary file or on the standard output; on a host
    whose streams take every text it returns.  Without a command it
    probes [python]; the first child process is the command followed by
    [--help]. *)
Theorem main_documents_any_command
    (run : list str → float → environ → run_result) (args : Namespace) :
  args_format args ∈ [lit "text"; lit "md"; lit "html"] →
  ∃ n, ∀ fuel, n ≤ fuel →
    ∃ rest doc done outcome,
      main run fuel args
      = Some ((match args_command args with
               | [] => [lit "python"]
               | command => command
               end ++ [lit "--help"]) :: rest, done, outcome)
      ∧ full_help_external run fuel
          match args_command args with
          | [] => [lit "python"]
          | command => command
          end (args_format args) (lit "5.0") 4 None
        = Some ((match args_command args with
                 | [] => [lit "python"]
                 | command => command
                 end ++ [lit "--help"]) :: rest, Return doc)
      ∧ (outcome = Returned →
         PrintStdout doc ∈ done ∨ ∃ name, TempFile name doc ∈ done)
      ∧ (outcome ≠ Returned →
         ∃ e, (print_output doc (args_format args) (args_open args) []).2
              = Some e)
      ∧ ((∀ before text, stdout_raises before text = None
                         ∧ stderr_raises before text = None) →
         outcome = Returned).
Proof.
  intros Hfmt. unfold main.
  set (target := match args_command args with
                 | [] => [lit "python"]
                 | command => command
                 end).
  assert (∃ prog0 rest0, target = prog0 :: rest0) as (prog0 & rest0 & Htarget).
  { unfold target. destruct (args_command args); eauto. }
  destruct (probe_total run target (lit "5.0") 4 None) as [n Hn].
  exists n. intros fuel Hfuel.
  destruct (Hn fuel Hfuel) as (st & Hst & Hinv & Hq).
  destruct (renderers_supported (args_format args) Hfmt) as [render Hrender].
  destruct (final_root_first run target (lit "5.0") 4 None st) as [rest Hrest];
    [lia|done..|].
  unfold full_help_external. rewrite Htarget, <- Htarget, Hst, Hrender.
  pose proof (inv_spawned _ _ _ _ _ _ Hinv) as Hspawned.
  unfold paths in Hspawned. rewrite Hrest in Hspawned. simpl in Hspawned.
  rewrite app_nil_r in Hspawned. rewrite Hspawned.
  set (doc := render ∅ (nodes st) prog0).
  destruct (print_output_trace doc (args_format args) (args_open args) [])
    as (new & Hnew & Hdelivered).
  pose proof (print_output_quiet doc (args_format args) (args_open args) [])
    as Hquiet.
  destruct (print_output doc (args_format args) (args_open args) [])
    as [done [e|]] eqn:Hprint; simpl in *; subst done.
  - destruct (main_failed e new) as [done' outcome] eqn:Hfailed.
    eexists _, doc, done', outcome. split_and!; [done..| | |].
    + intros ->. unfold main_failed in Hfailed.
      destruct (print_stderr _ _) as [? [?|]]; by simplify_eq.
    + intros _. rewrite Hprint. by eauto.
    + intros Hq'. by specialize (Hquiet Hq').
  - eexists _, doc, new, Returned. split_and!; [done..|by auto|done|done].
Qed.

End ConsoleFacts.

(** [superhelp --format html --open pip] on the host of the samples. *)
Lemma main_documents_any_command_witness :
  ∃ n, ∀ fuel, n ≤ fuel →
    ∃ rest doc done outcome,
      @main ascii_db sample_libraries sample_host pip_run fuel
        {| args_command := [lit "pip"]; args_format := lit "html";
           args_open := true |}
      = Some (([lit "pip"] ++ [lit "--help"]) :: rest, done, outcome)
      ∧ @full_help_external ascii_db sample_libraries pip_run fuel
          [lit "pip"] (lit "html") (lit "5.0") 4 None
        = Some (([lit "pip"] ++ [lit "--help"]) :: rest, Return doc)
      ∧ (outcome = Returned →
         PrintStdout doc ∈ done ∨ ∃ name, TempFile name doc ∈ done)
      ∧ (outcome ≠ Returned →
         ∃ e, (@print_output sample_host doc (lit "html") true []).2 = Some e)
      ∧ ((∀ before text, @stdout_raises sample_host before text = None
                         ∧ @stderr_raises sample_host before text = None) →
         outcome = Returned).
Proof.
  apply (@main_documents_any_command ascii_db sample_libraries sample_host
           pip_run {| args_command := [lit "pip"]; args_format := lit "html";
                      args_open := true |}).
  apply (bool_decide_unpack _). vm_compute. exact I.
Defined.

(** ** The rejection of a format *)

(** From enough fuel on, the walk does not depend on the program name
    given to it. *)
Lemma walk_same_for_every_prog fuel (σ : heap) (root : positive)
    (prog0 : option str) :
  S (size (universe σ root)) ≤ fuel →
  list_of_gen fuel σ (_walk_parser_tree root prog0) []
  = list_of_gen fuel σ (_walk_parser_tree root None) [].
Proof.
  intros Hfuel. pose proof (walk_ignores_prog fuel σ root prog0) as Hsnd.
  destruct (list_of_gen_total σ root fuel σ (_walk_parser_tree root prog0) [])
    as [r Hr]; [done|simpl; lia|].
  destruct (list_of_gen_total σ root fuel σ (_walk_parser_tree root None) [])
    as [r' Hr']; [done|simpl; lia|].
  rewrite Hr, Hr' in *. simpl in Hsnd. by injection Hsnd as ->.
Qed.

Section FormatRejected.
Context `{UnicodeDB} `{Libraries}.

(** C8, as amended: asked for a format that is none of [text], [md] and
    [html], [full_help_from_parser] returns no document, prints nothing
    and leaves the heap of the caller as it was.  The format is checked
    after the walk, not before it: when the walk returns its nodes the
    call raises the [ValueError] that names the format, and when the walk
    raises, its exception is the one that reaches the caller.  Over
    parsers that register parsers only, the walk returns and the error is
    the [ValueError]. *)
Theorem unsupported_format_rejected (tty : terminal) (σ : heap)
    (parser0 : positive) (prog0 : option str) (use_rich : option bool)
    (fmt : str) :
  fmt ∉ [lit "text"; lit "md"; lit "html"] →
  ∃ n, ∀ fuel, n ≤ fuel →
    ∃ r,
      list_of_gen fuel σ (_walk_parser_tree parser0 prog0) [] = Some (σ, r)
      ∧ full_help_from_parser tty fuel σ parser0 prog0 fmt use_rich
        = Some (σ, [], Raise match r with
                             | Return _ => ValueError (invalid_format fmt)
                             | Raise e => e
                             end)
      ∧ (closed_heap σ → is_Some (σ !! parser0) → ∃ nodes0, r = Return nodes0).
Proof.
  intros Hfmt%renderers_unsupported.
  exists (S (size (universe σ parser0))). intros fuel Hfuel.
  destruct (walk_from_created σ parser0 prog0 fuel Hfuel) as (r & Hr & Hres).
  exists r. split; [done|]. split.
  - assert (∀ p, list_of_gen fuel σ (_walk_parser_tree parser0 p) []
                 = Some (σ, r)) as Hwalk.
    { intros p. rewrite walk_same_for_every_prog by done.
      by rewrite <- (walk_same_for_every_prog fuel σ parser0 prog0). }
    unfold full_help_from_parser.
    destruct (σ !! parser0) as [root0|] eqn:Hroot.
    + assert (∃ name, match prog0 with
                      | Some (c :: p) => Return (c :: p)
                      | _ => Return (get_prog root0)
                      end = Return name) as [name ->]
        by (destruct prog0 as [[|c p]|]; eauto).
      rewrite Hwalk. destruct r as [nodes0|e]; [|done]. by rewrite Hfmt.
    + assert (r = Raise AttributeError) as ->.
      { destruct fuel as [|fuel]; [lia|]. simpl in Hr. rewrite Hroot in Hr.
        by injection Hr as <-. }
      destruct prog0 as [[|c p]|]; [done| |done]. by rewrite Hwalk.
  - intros Hclosed Hroot. destruct r as [nodes0|e]; [by eauto|].
    destruct Hres as (i & Hi & Hnone).
    destruct (closed_heap_reachable σ parser0 i Hclosed Hroot Hi) as [p' Hp'].
    congruence.
Qed.

End FormatRejected.

(** The format [pdf] on the walk of the tests' parser. *)
Lemma unsupported_format_rejected_witness :
  ∃ n, ∀ fuel, n ≤ fuel →
    ∃ r,
      list_of_gen fuel complex_parser (_walk_parser_tree 1 None) []
      = Some (complex_parser, r)
      ∧ @full_help_from_parser ascii_db sample_libraries
          {| _RICH_AVAILABLE := true; stdout_isatty := true |}
          fuel complex_parser 1 None (lit "pdf") None
        = Some (complex_parser, [],
                Raise match r with
                      | Return _ => ValueError (@invalid_format (lit "pdf"))
                      | Raise e => e
                      end)
      ∧ (closed_heap complex_parser → is_Some (complex_parser !! 1%positive) →
         ∃ nodes0, r = Return nodes0).
Proof.
  apply (@unsupported_format_rejected ascii_db sample_libraries
           {| _RICH_AVAILABLE := true; stdout_isatty := true |}
           complex_parser 1 None None (lit "pdf")).
  apply (bool_decide_unpack _). vm_compute. exact I.
Defined.

(** C8, as stated, fails: the rejection does not come before the
    discovery.  Asked for the format [pdf], the prober has run its three
    child processes when the call is rejected; and over a parser that
    registers an object that is no parser, [full_help_from_parser] raises
    the error of the walk, not that of the format. *)
Lemma unsupported_format_after_discovery :
  @full_help_external ascii_db sample_libraries pip_run 10 [lit "pip"]
    (lit "pdf") (lit "5.0") 4 None
  = Some ([[lit "pip"; lit "--help"];
           [lit "pip"; lit "install"; lit "--help"];
           [lit "pip"; lit "uninstall"; lit "--help"]],
          Raise (KeyError (lit "pdf")))
  ∧ @full_help_from_parser ascii_db sample_libraries
      {| _RICH_AVAILABLE := false; stdout_isatty := false |}
      10 stray_parser 1 None (lit "pdf") None
    = Some (stray_parser, [], Raise AttributeError).
Proof. split; vm_compute; reflexivity. Qed.

(** ** What the extractor returns for a listing *)

Section ExtractorRoundTrip.
Context `{UnicodeDB}.

Local Arguments lit : simpl never.

Lemma lazy_until_blank_all (s : list N) : 10%N ∉ s → lazy_until_blank s = s.
Proof.
  induction s as [|c s IH]; [done|]. intros [Hc Hs]%not_elem_of_cons.
  cbn [lazy_until_blank starts_with].
  assert ((10 =? c)%N = false) as -> by (apply N.eqb_neq; congruence).
  simpl. by rewrite IH.
Qed.

Lemma lazy_until_blank_stop (s rest : list N) :
  10%N ∉ s → lazy_until_blank (s ++ 10%N :: 10%N :: rest) = s.
Proof.
  induction s as [|c s IH]; [done|]. intros [Hc Hs]%not_elem_of_cons.
  cbn [lazy_until_blank starts_with app].
  assert ((10 =? c)%N = false) as -> by (apply N.eqb_neq; congruence).
  simpl. by rewrite IH.
Qed.

Lemma split_ws_word (cur w s : list N) :
  Forall (λ c, isspace c = false) w →
  split_ws cur (w ++ s) = split_ws (cur ++ w) s.
Proof.
  revert cur. induction w as [|c w IH]; intros cur Hw.
  - by rewrite app_nil_r.
  - apply Forall_cons in Hw as [Hc Hw]. cbn [split_ws app]. rewrite Hc.
    rewrite IH by done. by rewrite <- app_assoc.
Qed.

Lemma sub_optionals_none (s : list N) : 91%N ∉ s → sub_optionals false s = s.
Proof.
  induction s as [|c s IH]; [done|]. intros [Hc Hs]%not_elem_of_cons.
  cbn [sub_optionals].
  assert ((c =? 91)%N = false) as -> by (apply N.eqb_neq; congruence).
  simpl. by rewrite IH.
Qed.

Lemma search_choices_skip (pre s : list N) :
  123%N ∉ pre → search_choices (pre ++ s) = search_choices s.
Proof.
  induction pre as [|c pre IH]; [done|]. intros [Hc Hs]%not_elem_of_cons.
  cbn [search_choices app].
  assert ((c =? 123)%N = false) as -> by (apply N.eqb_neq; congruence).
  simpl. by apply IH.
Qed.

Lemma take_while_all f (g s : list N) :
  Forall (λ c, f c = true) g → take_while f (g ++ s) = g ++ take_while f s.
Proof.
  induction 1 as [|c g Hc _ IH]; [done|]. simpl. by rewrite Hc, IH.
Qed.

Lemma drop_while_all f (g s : list N) :
  Forall (λ c, f c = true) g → drop_while f (g ++ s) = drop_while f s.
Proof. induction 1 as [|c g Hc _ IH]; [done|]. simpl. by rewrite Hc. Qed.

Lemma search_choices_group (g rest : list N) :
  g ≠ [] → Forall (λ c, ischoice c = true) g →
  search_choices (123%N :: g ++ 125%N :: rest) = Some g.
Proof.
  intros Hne Hg. cbn [search_choices].
  rewrite take_while_all, drop_while_all by done.
  assert (ischoice 125 = false) as H125 by (vm_compute; reflexivity).
  cbn [take_while drop_while]. rewrite H125, app_nil_r.
  destruct g; [done|]. done.
Qed.

Lemma split_on_plain d (cur x s : list N) :
  d ∉ x → split_on d cur (x ++ s) = split_on d (cur ++ x) s.
Proof.
  revert cur. induction x as [|c x IH]; intros cur Hx.
  - by rewrite app_nil_r.
  - apply not_elem_of_cons in Hx as [Hc Hx]. cbn [split_on app].
    assert ((c =? d)%N = false) as -> by (apply N.eqb_neq; congruence).
    rewrite IH by done. by rewrite <- app_assoc.
Qed.

Lemma split_on_join (cur x : list N) (rest : list (list N)) :
  44%N ∉ x → Forall (λ name, 44%N ∉ name) rest →
  split_on 44 cur (join [44%N] (x :: rest)) = (cur ++ x) :: rest.
Proof.
  revert cur x. induction rest as [|y rest IH]; intros cur x Hx Hrest.
  - cbn [join]. rewrite <- (app_nil_r x) at 1.
    rewrite split_on_plain by done. done.
  - apply Forall_cons in Hrest as [Hy Hrest].
    change (join [44%N] (x :: y :: rest))
      with (x ++ 44%N :: join [44%N] (y :: rest)).
    rewrite split_on_plain by done. cbn [split_on].
    change (44 =? 44)%N with true. cbn iota. by rewrite IH.
Qed.

Lemma drop_while_none f (s : list N) :
  Forall (λ c, f c = false) s → drop_while f s = s.
Proof. destruct 1 as [|c s Hc _]; [done|]. simpl. by rewrite Hc. Qed.

Lemma strip_plain (s : list N) :
  Forall (λ c, isspace c = false) s → strip s = s.
Proof.
  intros Hs. unfold strip. rewrite (drop_while_none isspace s Hs).
  rewrite (drop_while_none isspace (rev s)) by (by apply Forall_rev).
  apply rev_involutive.
Qed.


Lemma split_ws_space (cur s : list N) :
  cur ≠ [] → split_ws cur (32%N :: s) = cur :: split_ws [] s.
Proof. intros Hcur. cbn [split_ws]. change (isspace 32) with true. by destruct cur. Qed.

Lemma split_ws_end (cur : list N) : cur ≠ [] → split_ws cur [] = [cur].
Proof. by destruct cur. Qed.

Lemma search_usage_block_here (rest : list N) :
  search_usage_block true (lit "usage:" ++ rest)
  = Some (lit "usage:" ++ lazy_until_blank rest).
Proof.
  change (search_usage_block true (lit "usage:" ++ rest))
    with (match ci_prefix (lit "usage:") (lit "usage:" ++ rest) with
          | Some r => Some (take 6 (lit "usage:" ++ rest) ++ lazy_until_blank r)
          | None => search_usage_block (117 =? 10)%N (lit "sage:" ++ rest)
          end).
  assert (ci_prefix (lit "usage:") (lit "usage:" ++ rest) = Some rest) as ->
    by (vm_compute; reflexivity).
  done.
Qed.

(** The characters of a brace group of plain names. *)
Lemma group_chars (names : list (list N)) :
  Forall plain_name names →
  Forall (λ c, ischoice c = true ∧ isspace c = false) (join [44%N] names).
Proof.
  induction 1 as [|x rest [_ Hx] _ IH]; [done|].
  assert (Forall (λ c, ischoice c = true ∧ isspace c = false) x) as Hx'.
  { eapply Forall_impl; [exact Hx|]. intros c (Hc & Hs & _). split; [|done].
    unfold ischoice. unfold isname in Hc.
    destruct (isword c); [done|]. simpl in *. by rewrite Hc, orb_true_r. }
  destruct rest as [|y rest]; [done|].
  change (join [44%N] (x :: y :: rest)) with (x ++ 44%N :: join [44%N] (y :: rest)).
  apply Forall_app. split; [done|]. constructor; [|done].
  split; vm_compute; reflexivity.
Qed.

Lemma Forall_not_elem (Q : N → Prop) (k : N) (s : list N) :
  ¬ Q k → Forall Q s → k ∉ s.
Proof. intros Hk Hs Hin. rewrite Forall_forall in Hs. by apply Hk, Hs. Qed.

Lemma fmap_fixed (f : list N → list N) (l : list (list N)) :
  Forall (λ x, f x = x) l → f <$> l = l.
Proof. induction 1 as [|x l Hx _ IH]; [done|]. cbn. by rewrite Hx, IH. Qed.

Lemma find_usage_group (prog0 : list N) (names : list (list N))
    (tail : list N) :
  plain_name prog0 → names ≠ [] → Forall plain_name names →
  tail = [] ∨ (∃ rest, tail = 10%N :: 10%N :: rest) →
  _find_subcommands_from_help (usage_text prog0 names ++ tail) = names.
Proof.
  intros [Hprog0 Hprog] Hnames Hplain Htail.
  pose proof (group_chars names Hplain) as Hgroup.
  set (g := join [44%N] names) in *.
  assert (g ≠ []) as Hg.
  { unfold g. destruct names as [|x [|y rest]]; [done| |].
    - apply Forall_cons in Hplain as [[Hx _] _]. done.
    - apply Forall_cons in Hplain as [[Hx _] _]. by destruct x. }
  assert (Forall (λ c, isspace c = false) prog0) as Hprog_space.
  { eapply Forall_impl; [exact Hprog|]. by intros c (_ & ? & _). }
  assert (Forall (λ c, isspace c = false) g) as Hg_space.
  { eapply Forall_impl; [exact Hgroup|]. by intros c [_ ?]. }
  assert (Forall (λ c, ischoice c = true) g) as Hg_choice.
  { eapply Forall_impl; [exact Hgroup|]. by intros c [? _]. }
  assert (∀ k, isname k = false → k ∉ prog0) as Hprog_ne.
  { intros k Hk. apply (Forall_not_elem plain_char); [|done].
    intros (Hk' & _). congruence. }
  assert (∀ k, ischoice k = false → k ∉ g) as Hg_ne.
  { intros k Hk. apply (Forall_not_elem (λ c, ischoice c = true)); [|done].
    congruence. }
  assert (10%N ∉ g) as Hg10.
  { apply (Forall_not_elem (λ c, isspace c = false)); [|done]. done. }
  assert (10%N ∉ prog0) as Hp10 by (by apply Hprog_ne).
  set (body := 32%N :: prog0 ++ 32%N :: 123%N :: g ++ [125%N]).
  assert (10%N ∉ body) as Hbody.
  { unfold body. rewrite not_elem_of_cons, not_elem_of_app, !not_elem_of_cons,
      not_elem_of_app, not_elem_of_cons. split_and!; try done. apply not_elem_of_nil. }
  assert (usage_text prog0 names ++ tail = lit "usage:" ++ body ++ tail) as ->.
  { unfold usage_text, body, g. repeat (cbn [app]; rewrite <- ?app_assoc).
    done. }
  assert (search_usage_block true (lit "usage:" ++ body ++ tail)
          = Some (lit "usage:" ++ body)) as Hblock.
  { rewrite search_usage_block_here. do 2 f_equal.
    destruct Htail as [->|[rest ->]].
    - rewrite app_nil_r. by apply lazy_until_blank_all.
    - by apply lazy_until_blank_stop. }
  assert (join (lit " ") (split_ws [] (lit "usage:" ++ body))
          = lit "usage:" ++ body) as Hline.
  { rewrite (split_ws_word [] (lit "usage:"))
      by (repeat constructor; vm_compute; reflexivity).
    unfold body. rewrite split_ws_space by done.
    rewrite split_ws_word by done. rewrite split_ws_space by done.
    rewrite <- (app_nil_r (123%N :: g ++ [125%N])).
    rewrite split_ws_word.
    - cbn [app]. rewrite split_ws_end by done. rewrite app_nil_r. done.
    - constructor; [vm_compute; reflexivity|]. apply Forall_app. split; [done|].
      repeat constructor. }
  unfold _find_subcommands_from_help, usage_choices.
  rewrite Hblock. cbv zeta. rewrite Hline.
  rewrite sub_optionals_none.
  2:{ unfold body. rewrite not_elem_of_app, not_elem_of_cons, not_elem_of_app,
        !not_elem_of_cons, not_elem_of_app, not_elem_of_cons.
      split_and!; try done; try (by apply (bool_decide_unpack _); vm_compute).
      all: first [by apply Hprog_ne|by apply Hg_ne|apply not_elem_of_nil]. }
  assert (lit "usage:" ++ body
          = (lit "usage:" ++ 32%N :: prog0 ++ [32%N]) ++ 123%N :: g ++ 125%N :: [])
    as -> by (unfold body; repeat (cbn [app]; rewrite <- ?app_assoc); done).
  rewrite search_choices_skip.
  2:{ rewrite not_elem_of_app, not_elem_of_cons, not_elem_of_app,
        not_elem_of_cons.
      split_and!; try done; try (by apply (bool_decide_unpack _); vm_compute).
      all: first [by apply Hprog_ne|apply not_elem_of_nil]. }
  rewrite search_choices_group by done.
  unfold g. destruct names as [|x rest]; [done|].
  apply Forall_cons in Hplain as [Hx Hrest].
  assert (∀ name, plain_name name → 44%N ∉ name) as Hcomma.
  { intros name [_ Hname]. apply (Forall_not_elem plain_char); [|done].
    intros (Hk & _). vm_compute in Hk. done. }
  rewrite split_on_join; [|by apply Hcomma|].
  2:{ eapply Forall_impl; [exact Hrest|]. apply Hcomma. }
  assert (∀ name, plain_name name → strip name = name) as Hstrip.
  { intros name [_ Hname]. apply strip_plain.
    eapply Forall_impl; [exact Hname|]. by intros c (_ & ? & _). }
  cbn [fmap list_fmap app]. rewrite Hstrip by done. f_equal.
  apply fmap_fixed. eapply Forall_impl; [exact Hrest|]. apply Hstrip.
Qed.


(** *** A labeled section *)

Lemma header_facts (header : list N) :
  header ∈ headers →
  (∀ rest, ci_prefix (lit "usage:") ((header ++ lit ":") ++ rest) = None)
  ∧ (∀ rest, header_at ((header ++ lit ":") ++ rest) = true)
  ∧ Forall (λ c, is_linebreak c = false) (header ++ lit ":").
Proof.
  unfold headers. intros Hin.
  repeat (apply elem_of_cons in Hin as [->|Hin]);
    [..|by apply elem_of_nil in Hin];
    (split_and!; [intros rest; vm_compute; reflexivity..|]);
    apply Forall_forall; intros c Hc;
    apply (bool_decide_unpack _) in Hc || idtac;
    revert c Hc; apply Forall_forall;
    apply (bool_decide_unpack _); vm_compute; exact I.
Qed.

Lemma drop_while_snoc f (l : list N) (c : N) :
  f c = false → ∃ l', drop_while f (l ++ [c]) = l' ++ [c].
Proof.
  intros Hc. induction l as [|x l IH]; simpl.
  - rewrite Hc. by exists [].
  - destruct (f x); [done|]. by exists (x :: l).
Qed.

Lemma strip_head (c : N) (w : list N) :
  isspace c = false → ∃ r, strip (32%N :: 32%N :: c :: w) = c :: r.
Proof.
  intros Hc. unfold strip. cbn [drop_while]. change (isspace 32) with true.
  cbn iota. rewrite Hc. cbn [rev].
  destruct (drop_while_snoc isspace (rev w) c Hc) as [l' ->].
  exists (rev l'). by rewrite rev_unit.
Qed.

Lemma name_run_plain (name tail : list N) :
  name ≠ [] → Forall (λ c, isname c = true) name →
  name_run (name ++ 32%N :: tail) = Some name.
Proof.
  intros Hne Hname. unfold name_run. rewrite take_while_all by done.
  cbn [take_while]. assert (isname 32 = false) as -> by (vm_compute; reflexivity).
  rewrite app_nil_r. by destruct name.
Qed.

Lemma scan_section_line (name help : list N) :
  plain_name name →
  scan_line true (section_line (name, help)) = (true, [name])
  ∧ (∀ rest, ci_prefix (lit "usage:") (section_line (name, help) ++ rest) = None).
Proof.
  intros [Hne Hname]. destruct name as [|c name']; [done|].
  apply Forall_cons in Hname as Hname'. destruct Hname' as [(Hc & Hspace & _) _].
  assert (section_line (c :: name', help)
          = 32%N :: 32%N :: c :: name' ++ 32%N :: 32%N :: help) as ->.
  { unfold section_line. simpl fst. simpl snd.
    repeat (cbn [app]; rewrite <- ?app_assoc). done. }
  split; [|intros rest; vm_compute; reflexivity].
  unfold scan_line.
  assert (header_at (32%N :: 32%N :: c :: name' ++ 32%N :: 32%N :: help)
          = false) as -> by (vm_compute; reflexivity).
  destruct (strip_head c (name' ++ 32%N :: 32%N :: help) Hspace) as [r ->].
  assert (startswith_indent
            (32%N :: 32%N :: c :: name' ++ 32%N :: 32%N :: help) = true) as ->
    by (vm_compute; reflexivity).
  cbn [is_nil negb orb andb].
  assert (starts_with (lit "{") (c :: r) = false) as ->.
  { change (starts_with (lit "{") (c :: r)) with ((123 =? c)%N && true).
    rewrite andb_true_r. apply N.eqb_neq. intros <-. vm_compute in Hc. done. }
  f_equal. unfold match_indented. change (isspace 32) with true. cbn iota.
  cbn [after_space]. change (isspace 32) with true. cbn iota.
  rewrite Hspace.
  change (c :: name' ++ 32%N :: 32%N :: help)
    with ((c :: name') ++ 32%N :: 32%N :: help).
  rewrite name_run_plain; [done..|].
  eapply Forall_impl; [exact Hname|]. by intros k (? & _).
Qed.

Lemma usage_not_here (s : list N) :
  ci_prefix (lit "usage:") s = None →
  search_usage_block true s = search_usage_block false s.
Proof. intros Hp. destruct s; cbn [search_usage_block]; by rewrite Hp. Qed.

Lemma usage_skip_whole_line (line rest : list N) :
  ci_prefix (lit "usage:") (line ++ 10%N :: rest) = None → 10%N ∉ line →
  search_usage_block true (line ++ 10%N :: rest) = search_usage_block true rest.
Proof.
  intros Hprefix Hline. rewrite usage_not_here by done.
  rewrite usage_skip_line by done. done.
Qed.

Lemma no_usage_in_lines (lines : list (list N)) :
  Forall (λ line, (∀ rest, ci_prefix (lit "usage:") (line ++ rest) = None)
                  ∧ 10%N ∉ line) lines →
  search_usage_block true (concat ((λ line, line ++ [10%N]) <$> lines)) = None.
Proof.
  induction 1 as [|line lines [Hprefix Hline] _ IH]; [done|].
  cbn [fmap list_fmap concat]. rewrite <- app_assoc. cbn [app].
  rewrite usage_skip_whole_line by done. exact IH.
Qed.

Lemma splitlines_of_lines (lines : list (list N)) :
  Forall (Forall (λ c, is_linebreak c = false)) lines →
  splitlines (concat ((λ line, line ++ [10%N]) <$> lines)) = lines.
Proof.
  unfold splitlines. induction 1 as [|line lines Hline _ IH]; [done|].
  cbn [fmap list_fmap concat]. rewrite <- app_assoc. cbn [app].
  rewrite splitlines_plain by done. cbn [splitlines_from app].
  change (is_linebreak 10) with true. cbn. by rewrite IH.
Qed.

Lemma find_section_lines (header : list N) (entries : list (list N * list N)) :
  header ∈ headers →
  Forall (λ entry, plain_name entry.1
                   ∧ Forall (λ c, is_linebreak c = false) entry.2) entries →
  _find_subcommands_from_help (section_text header entries) = entries.*1.
Proof.
  intros (Husage & Hheader & Hbreak)%header_facts Hentries.
  assert (section_text header entries
          = concat ((λ line, line ++ [10%N])
                      <$> (header ++ lit ":") :: (section_line <$> entries)))
    as Htext.
  { unfold section_text. cbn [fmap list_fmap concat].
    rewrite <- list_fmap_compose, <- !app_assoc. done. }
  assert (Forall (λ entry,
            scan_line true (section_line entry) = (true, [entry.1])
            ∧ (∀ rest, ci_prefix (lit "usage:") (section_line entry ++ rest)
                       = None)
            ∧ Forall (λ c, is_linebreak c = false) (section_line entry))
          entries) as Hlines.
  { eapply Forall_impl; [exact Hentries|]. intros [name help] [Hname Hhelp].
    destruct (scan_section_line name help Hname) as [Hscan Hprefix].
    split_and!; [done..|]. unfold section_line.
    destruct Hname as [_ Hname]. cbn [fst snd] in *.
    repeat (apply Forall_app; split); try done;
      try (by apply (bool_decide_unpack _); vm_compute).
    eapply Forall_impl; [exact Hname|]. by intros c (_ & _ & ?). }
  assert (∀ s, Forall (λ c, is_linebreak c = false) s → 10%N ∉ s) as Hno10.
  { intros s Hs. apply (Forall_not_elem (λ c, is_linebreak c = false)); [|done].
    done. }
  unfold _find_subcommands_from_help, usage_choices, section_commands.
  rewrite Htext at 1. rewrite no_usage_in_lines.
  2:{ constructor; [split; [done|by apply Hno10]|].
      apply Forall_fmap. eapply Forall_impl; [exact Hlines|].
      intros entry (_ & ? & ?). split; [done|by apply Hno10]. }
  assert (header_search true (section_text header entries) = true) as ->.
  { unfold section_text. rewrite !app_assoc, <- (app_assoc _ NL).
    destruct ((header ++ lit ":") ++ _) eqn:Heq; cbn [header_search];
      rewrite <- Heq, Hheader; done. }
  rewrite Htext, splitlines_of_lines.
  2:{ constructor; [done|]. apply Forall_fmap.
      eapply Forall_impl; [exact Hlines|]. by intros entry (_ & _ & ?). }
  cbn [scan_lines]. unfold scan_line at 1.
  rewrite <- (app_nil_r (header ++ lit ":")), Hheader.
  cbn [app]. clear Htext Hentries.
  induction Hlines as [|entry entries (Hscan & _) _ IH]; [done|].
  cbn [fmap list_fmap scan_lines]. rewrite Hscan. cbn [app]. by rewrite IH.
Qed.

(** C5, as amended: the extractor keeps the order of the text and
    removes no duplicate.  For every text the names it returns, in a row,
    are a subsequence of the text.  And it returns what the text lists,
    as listed: for every list of names, repeats included, the usage line
    with the brace group of these names (alone, or followed by an empty
    line and anything) gives exactly the list, and so does a labeled
    section whose indented lines start with these names. *)
Theorem extractor_keeps_text_order :
  (∀ text, concat (_find_subcommands_from_help text) `sublist_of` text)
  ∧ (∀ prog0 names tail,
       plain_name prog0 → names ≠ [] → Forall plain_name names →
       tail = [] ∨ (∃ rest, tail = NL ++ NL ++ rest) →
       _find_subcommands_from_help (usage_text prog0 names ++ tail) = names)
  ∧ (∀ header entries,
       header ∈ headers →
       Forall (λ entry, plain_name entry.1
                        ∧ Forall (λ c, is_linebreak c = false) entry.2)
              entries →
       _find_subcommands_from_help (section_text header entries)
       = entries.*1).
Proof.
  split_and!.
  - apply find_subcommands_sublist.
  - intros prog0 names tail. apply find_usage_group.
  - apply find_section_lines.
Qed.

End ExtractorRoundTrip.

(** A brace group and a section that list a name twice. *)
Lemma extractor_keeps_text_order_witness :
  @_find_subcommands_from_help ascii_db
     (usage_text (lit "tool") [lit "run"; lit "dry-run"; lit "run"] ++ [])
  = [lit "run"; lit "dry-run"; lit "run"]
  ∧ @_find_subcommands_from_help ascii_db
       (section_text (lit "Commands")
          [(lit "build", lit "Build an image");
           (lit "build", lit "Build it again")])
    = [(lit "build", lit "Build an image");
       (lit "build", lit "Build it again")].*1.
Proof.
  destruct (@extractor_keeps_text_order ascii_db) as (_ & Husage & Hsection).
  assert (∀ name, name ≠ [] →
            bool_decide (Forall (λ c, @isname ascii_db c = true
                                      ∧ @isspace ascii_db c = false
                                      ∧ is_linebreak c = false) name) = true →
            @plain_name ascii_db name) as Hplain.
  { intros name Hne Hname. split; [done|]. by apply bool_decide_eq_true in Hname. }
  split.
  - apply Husage.
    + by apply Hplain.
    + done.
    + repeat constructor; by apply Hplain.
    + by left.
  - apply Hsection.
    + unfold headers. left.
    + repeat constructor; try (by apply Hplain);
        by apply (bool_decide_unpack _).
Defined.
